(** * docker-help: the container dashboard of [main.go]

    A shallow embedding of the presentation pipeline of the dashboard:
    the helpers [firstName], [formatPorts], [nz], [parseTime], [since],
    the controller methods [setStatus], [refresh], [showForRow],
    [fetchLogs], and the parts of the Go standard library they lean on
    ([strings], [unicode/utf8], [sort], [time], [fmt]).

    Go strings are byte sequences: they are modelled by [string], one
    [ascii] per byte.  Go's [int] and [time.Duration] are 64-bit integers,
    modelled in [Z] with the wrap-around written out where the code can
    reach it.  [float64] is IEEE binary64, modelled by [spec_float] with
    [prec = 53] and [emax = 1024].

    A method that can panic returns an [option]: [None] is the panic, of an
    index out of range or of a nil pointer.  The pointers of the daemon's
    answers that the program dereferences are [option]s, [None] for nil. *)

From Stdlib Require Import ZArith NArith Lia Bool List Ascii String DecimalString.
From Stdlib Require Import Floats.SpecFloat.
From Stdlib Require Import Sorted.
From stdpp Require Import base option list gmap strings.

Set Default Proof Using "Type".
Local Open Scope string_scope.
Local Open Scope Z_scope.

(** ** Bytes *)

Definition byte_val (c : ascii) : N := N_of_ascii c.

Definition byte_in (lo hi : N) (c : ascii) : bool :=
  ((lo <=? byte_val c) && (byte_val c <=? hi))%N.

(** [utf8.RuneSelf = 0x80]: bytes below it are single-byte runes. *)
Definition RuneSelf : N := 128.

Definition isASCII (c : ascii) : bool := (byte_val c <? RuneSelf)%N.

(** ** Package [fmt]: the verbs the program uses *)

Module fmt.

(** [%d] on a signed integer. *)
Definition d (n : Z) : string := NilZero.string_of_int (Z.to_int n).

(** [%d] on an unsigned integer ([uint16] ports). *)
Definition u (n : N) : string := NilZero.string_of_uint (N.to_uint n).

End fmt.

(** ** Package [unicode/utf8] and [unicode.IsSpace]

    Runes are code points in [Z]; the decoders work on the bytes of a
    string and return the rune with its width in bytes. *)

Module utf8.

Definition RuneError : Z := 0xFFFD.
Definition UTFMax : nat := 4.

Definition bz (c : ascii) : Z := Z.of_N (byte_val c).

(** One entry of the table [first]: ASCII, invalid, or a lead byte with
    the size of its sequence and the accepted range of the second byte. *)
Inductive firstInfo :=
| AS
| XX
| Lead (sz : nat) (lo hi : N).

Definition first (c : ascii) : firstInfo :=
  let b := byte_val c in
  if (b <? 0x80)%N then AS
  else if (b <? 0xC2)%N then XX
  else if (b <? 0xE0)%N then Lead 2 0x80 0xBF
  else if (b =? 0xE0)%N then Lead 3 0xA0 0xBF
  else if (b <? 0xED)%N then Lead 3 0x80 0xBF
  else if (b =? 0xED)%N then Lead 3 0x80 0x9F
  else if (b <? 0xF0)%N then Lead 3 0x80 0xBF
  else if (b =? 0xF0)%N then Lead 4 0x90 0xBF
  else if (b <? 0xF4)%N then Lead 4 0x80 0xBF
  else if (b =? 0xF4)%N then Lead 4 0x80 0x8F
  else XX.

(** Continuation bytes: [locb = 0x80], [hicb = 0xBF]. *)
Definition isCont (c : ascii) : bool := byte_in 0x80 0xBF c.

Definition mask2 : Z := 0x1F.
Definition mask3 : Z := 0x0F.
Definition mask4 : Z := 0x07.
Definition maskx : Z := 0x3F.

Definition DecodeRuneInString (s : list ascii) : Z * nat :=
  match s with
  | [] => (RuneError, 0%nat)
  | s0 :: _ =>
      match first s0 with
      | AS => (bz s0, 1%nat)
      | XX => (RuneError, 1%nat)
      | Lead sz lo hi =>
          if (length s <? sz)%nat then (RuneError, 1%nat)
          else
            match s with
            | _ :: s1 :: tl1 =>
                if negb (byte_in lo hi s1) then (RuneError, 1%nat)
                else if (sz <=? 2)%nat then
                  (Z.lor (Z.shiftl (Z.land (bz s0) mask2) 6)
                         (Z.land (bz s1) maskx), 2%nat)
                else
                  match tl1 with
                  | s2 :: tl2 =>
                      if negb (isCont s2) then (RuneError, 1%nat)
                      else if (sz <=? 3)%nat then
                        (Z.lor (Z.lor (Z.shiftl (Z.land (bz s0) mask3) 12)
                                      (Z.shiftl (Z.land (bz s1) maskx) 6))
                               (Z.land (bz s2) maskx), 3%nat)
                      else
                        match tl2 with
                        | s3 :: _ =>
                            if negb (isCont s3) then (RuneError, 1%nat)
                            else
                              (Z.lor (Z.lor (Z.lor
                                 (Z.shiftl (Z.land (bz s0) mask4) 18)
                                 (Z.shiftl (Z.land (bz s1) maskx) 12))
                                 (Z.shiftl (Z.land (bz s2) maskx) 6))
                                 (Z.land (bz s3) maskx), 4%nat)
                        | [] => (RuneError, 1%nat)
                        end
                  | [] => (RuneError, 1%nat)
                  end
            | _ => (RuneError, 1%nat)
            end
      end
  end.

(** [RuneStart]: the byte is not a continuation byte. *)
Definition RuneStart (c : ascii) : bool :=
  negb (Z.land (bz c) 0xC0 =? 0x80).

(** The backwards search of [DecodeLastRuneInString]:
    [for start--; start >= lim; start-- { if RuneStart(s[start]) { break } }],
    entered with the decremented [start].  The window [lim .. end-2] has
    at most [UTFMax - 1] positions, so [UTFMax] unfoldings reach the exit
    test. *)
Fixpoint findStart (s : list ascii) (lim start : Z) (fuel : nat) : Z :=
  match fuel with
  | O => start
  | S k =>
      if start <? lim then start
      else
        match s !! Z.to_nat start with
        | Some c => if RuneStart c then start else findStart s lim (start - 1) k
        | None => start
        end
  end.

Definition DecodeLastRuneInString (s : list ascii) : Z * nat :=
  let end_ := Z.of_nat (length s) in
  if end_ =? 0 then (RuneError, 0%nat)
  else
    let start := end_ - 1 in
    match s !! Z.to_nat start with
    | Some c =>
        if isASCII c then (bz c, 1%nat)
        else
          let lim := Z.max 0 (end_ - Z.of_nat UTFMax) in
          let start := findStart s lim (start - 1) UTFMax in
          let start := if start <? 0 then 0 else start in
          let '(r, size) := DecodeRuneInString (drop (Z.to_nat start) s) in
          if start + Z.of_nat size =? end_ then (r, size)
          else (RuneError, 1%nat)
    | None => (RuneError, 0%nat)
    end.

End utf8.

Module unicode.

(** [unicode.IsSpace]: the Latin-1 switch, then the [White_Space] range
    table above Latin-1. *)
Definition IsSpace (r : Z) : bool :=
  if (0 <=? r) && (r <=? 0xFF) then
    (r =? 9) || (r =? 10) || (r =? 11) || (r =? 12) || (r =? 13)
    || (r =? 32) || (r =? 0x85) || (r =? 0xA0)
  else
    (r =? 0x1680) || ((0x2000 <=? r) && (r <=? 0x200A))
    || (r =? 0x2028) || (r =? 0x2029) || (r =? 0x202F)
    || (r =? 0x205F) || (r =? 0x3000).

End unicode.

(** ** The trimming functions under [strings.TrimSpace] *)

Module trim.

Section Func.
Variable f : Z -> bool.

(** [indexFunc(s, f, truth)]: the [range] loop over the runes of [s],
    at byte offset [i]; [-1] when no rune qualifies.  Every rune of a
    non-empty rest is at least one byte wide, so [length s] unfoldings
    reach the end of the string. *)
Fixpoint indexFuncFrom (fuel : nat) (s : list ascii) (truth : bool) (i : nat) : Z :=
  match fuel with
  | O => -1
  | S k =>
      match drop i s with
      | [] => -1
      | rest =>
          let '(r, size) := utf8.DecodeRuneInString rest in
          if Bool.eqb (f r) truth then Z.of_nat i
          else indexFuncFrom k s truth (i + size)
      end
  end.

Definition indexFunc (s : list ascii) (truth : bool) : Z :=
  indexFuncFrom (length s) s truth 0.

(** [lastIndexFunc(s, f, truth)]: [for i := len(s); i > 0;] decoding the
    last rune of [s[0:i]]. *)
Fixpoint lastIndexFuncFrom (fuel : nat) (s : list ascii) (truth : bool) (i : nat) : Z :=
  match fuel with
  | O => -1
  | S k =>
      if (0 <? i)%nat then
        let '(r, size) := utf8.DecodeLastRuneInString (take i s) in
        let i := (i - size)%nat in
        if Bool.eqb (f r) truth then Z.of_nat i
        else lastIndexFuncFrom k s truth i
      else -1
  end.

Definition lastIndexFunc (s : list ascii) (truth : bool) : Z :=
  lastIndexFuncFrom (S (length s)) s truth (length s).

Definition TrimLeftFunc (s : list ascii) : list ascii :=
  let i := indexFunc s false in
  if i =? -1 then [] else drop (Z.to_nat i) s.

Definition TrimRightFunc (s : list ascii) : list ascii :=
  let i := lastIndexFunc s false in
  let i :=
    if (0 <=? i) && negb (isASCII (default "000"%char (s !! Z.to_nat i)))
    then i + Z.of_nat (snd (utf8.DecodeRuneInString (drop (Z.to_nat i) s)))
    else i + 1 in
  take (Z.to_nat i) s.

Definition TrimFunc (s : list ascii) : list ascii :=
  TrimRightFunc (TrimLeftFunc s).
End Func.

(** The table [asciiSpace]: tab, newline, vertical tab, form feed,
    carriage return, space. *)
Definition asciiSpace (c : ascii) : bool :=
  let b := byte_val c in
  ((b =? 9) || (b =? 10) || (b =? 11) || (b =? 12) || (b =? 13) || (b =? 32))%N.

(** Second loop of [TrimSpace], on [t = s[start:]] with [k = stop - start]:
    [for ; stop > start; stop--]. *)
Fixpoint scanBack (t : list ascii) (k : nat) : list ascii :=
  match k with
  | O => []
  | S k' =>
      match t !! k' with
      | Some c =>
          if negb (isASCII c) then TrimRightFunc unicode.IsSpace (take k t)
          else if asciiSpace c then scanBack t k'
          else take k t
      | None => take k t
      end
  end.

(** First loop of [TrimSpace], on the rest [s[start:]]. *)
Fixpoint scanFront (t : list ascii) : list ascii :=
  match t with
  | [] => []
  | c :: rest =>
      if negb (isASCII c) then TrimFunc unicode.IsSpace t
      else if asciiSpace c then scanFront rest
      else scanBack t (length t)
  end.

Definition TrimSpaceBytes (s : list ascii) : list ascii := scanFront s.

End trim.

(** ** Package [strings] *)

Module strings.

(** [strings.Join]. *)
Fixpoint Join (elems : list string) (sep : string) : string :=
  match elems with
  | [] => ""
  | [e] => e
  | e :: rest => e ++ sep ++ Join rest sep
  end.

(** [strings.TrimPrefix] with a one-byte prefix. *)
Definition TrimPrefix1 (s : string) (prefix : ascii) : string :=
  match s with
  | String c rest => if Ascii.eqb c prefix then rest else s
  | EmptyString => s
  end.

(** [strings.ReplaceAll(s, old, new)] with a one-byte [old]. *)
Fixpoint ReplaceAll1 (s : string) (old : ascii) (new : string) : string :=
  match s with
  | EmptyString => EmptyString
  | String c rest =>
      if Ascii.eqb c old then new ++ ReplaceAll1 rest old new
      else String c (ReplaceAll1 rest old new)
  end.

Fixpoint allASCII (s : string) : bool :=
  match s with
  | EmptyString => true
  | String c rest => isASCII c && allASCII rest
  end.

Definition isUpperByte (c : ascii) : bool := byte_in 65 90 c.

Fixpoint hasUpper (s : string) : bool :=
  match s with
  | EmptyString => false
  | String c rest => isUpperByte c || hasUpper rest
  end.

(** [c += 'a' - 'A'] on an upper-case byte. *)
Definition lowerByte (c : ascii) : ascii :=
  if isUpperByte c then ascii_of_N (byte_val c + 32) else c.

Fixpoint mapBytes (f : ascii -> ascii) (s : string) : string :=
  match s with
  | EmptyString => EmptyString
  | String c rest => String (f c) (mapBytes f rest)
  end.

(** [strings.ToLower]: the ASCII-only path is the library's loop; on a
    string with a byte [>= RuneSelf] the library maps [unicode.ToLower]
    over the runes, whose case tables are taken as the parameter
    [unicodeLower]. *)
Definition ToLower (unicodeLower : string -> string) (s : string) : string :=
  if allASCII s then
    if hasUpper s then mapBytes lowerByte s else s
  else unicodeLower s.

(** [strings.TrimSpace] on a Go string. *)
Definition TrimSpace (s : string) : string :=
  string_of_list_ascii (trim.TrimSpaceBytes (list_ascii_of_string s)).

End strings.


(** ** [float64]: IEEE binary64 on [spec_float] *)

Module float64.

Definition prec : Z := 53.
Definition emax : Z := 1024.

Definition minInt64 : Z := - 2 ^ 63.
Definition maxInt64 : Z := 2 ^ 63 - 1.

(** [float64(n)] for an integer [n]: round to nearest, ties to even. *)
Definition ofInt (n : Z) : spec_float := binary_normalize prec emax n 0 false.

Definition add : spec_float -> spec_float -> spec_float := SFadd prec emax.
Definition div : spec_float -> spec_float -> spec_float := SFdiv prec emax.

(** [int(f)]: the fraction is discarded (truncation towards zero).  For a
    value outside [int64], an infinity or a NaN the language leaves the
    result to the implementation; the model returns the "integer
    indefinite" value of amd64.  The durations of this program stay far
    inside the range. *)
Definition toInt (f : spec_float) : Z :=
  match f with
  | S754_zero _ => 0
  | S754_finite s m e =>
      let mag := if 0 <=? e then Z.pos m * 2 ^ e else Z.pos m / 2 ^ (- e) in
      let v := if s then - mag else mag in
      if (minInt64 <=? v) && (v <=? maxInt64) then v else minInt64
  | _ => minInt64
  end.

End float64.

(** ** Package [time] *)

Module time.

(** A [Duration] is an [int64] count of nanoseconds. *)
Definition Duration := Z.

Definition Nanosecond : Duration := 1.
Definition Microsecond : Duration := 1000 * Nanosecond.
Definition Millisecond : Duration := 1000 * Microsecond.
Definition Second : Duration := 1000 * Millisecond.
Definition Minute : Duration := 60 * Second.
Definition Hour : Duration := 60 * Minute.

Definition minDuration : Duration := - 2 ^ 63.
Definition maxDuration : Duration := 2 ^ 63 - 1.

(** Go's [/] and [%] on integers truncate towards zero. *)
Definition Seconds (d : Duration) : spec_float :=
  let sec := Z.quot d Second in
  let nsec := Z.rem d Second in
  float64.add (float64.ofInt sec)
              (float64.div (float64.ofInt nsec) (float64.ofInt 1000000000)).

Definition Minutes (d : Duration) : spec_float :=
  let min := Z.quot d Minute in
  let nsec := Z.rem d Minute in
  float64.add (float64.ofInt min)
              (float64.div (float64.ofInt nsec) (float64.ofInt (60 * 1000000000))).

Definition Hours (d : Duration) : spec_float :=
  let h := Z.quot d Hour in
  let nsec := Z.rem d Hour in
  float64.add (float64.ofInt h)
              (float64.div (float64.ofInt nsec) (float64.ofInt (60 * 60 * 1000000000))).

(** An instant without a monotonic reading: seconds since January 1 of
    year 1, 00:00:00 UTC, and nanoseconds within the second. *)
Record Time := mkTime { sec : Z; nsec : Z }.

(** [time.Time{}], the zero instant. *)
Definition zero : Time := mkTime 0 0.

Definition IsZero (t : Time) : bool := (sec t =? 0) && (nsec t =? 0).

(** [t.Sub(u)]: the difference, or the minimum or maximum duration when it
    does not fit. *)
Definition Sub (t u : Time) : Duration :=
  let exact := (sec t - sec u) * Second + (nsec t - nsec u) in
  if exact <? minDuration then minDuration
  else if maxDuration <? exact then maxDuration
  else exact.

(** [time.Since(t)] at the clock reading [now]. *)
Definition Since (now t : Time) : Duration := Sub now t.

End time.

(** ** Package [sort]: [sort.SliceStable]

    [SliceStable(x, less)] runs [stable_func] on the slice through
    [less(i, j)] and [swap(i, j)].  The closure passed by the program reads
    both elements from the slice being sorted, so [Less] looks them up in
    the current contents.  The library calls both only with indices below
    the length. *)

Module sort.

Section Stable.
Context {A : Type}.
Variable less : A -> A -> bool.

Definition Less (data : list A) (i j : nat) : bool :=
  match data !! i, data !! j with
  | Some x, Some y => less x y
  | _, _ => false
  end.

Definition Swap (i j : nat) (data : list A) : list A :=
  match data !! i, data !! j with
  | Some x, Some y => <[j := x]> (<[i := y]> data)
  | _, _ => data
  end.

(** Inner loop of [insertionSort_func]:
    [for j := i; j > a && data.Less(j, j-1); j-- { data.Swap(j, j-1) }]. *)
Fixpoint insertDown (a j : nat) (data : list A) : list A :=
  match j with
  | O => data
  | S j' =>
      if (a <? j)%nat && Less data j j'
      then insertDown a j' (Swap j j' data)
      else data
  end.

(** [insertionSort_func(data, a, b)]: [for i := a + 1; i < b; i++]. *)
Definition insertionSort (a b : nat) (data : list A) : list A :=
  foldl (fun d i => insertDown a i d) data (seq (a + 1) (b - (a + 1))).

(** [swapRange_func(data, a, b, n)]. *)
Definition swapRange (a b n : nat) (data : list A) : list A :=
  foldl (fun d i => Swap (a + i) (b + i) d) data (seq 0 n).

(** The loop of [rotate_func] on the block lengths [i] and [j]; each
    round shortens one of them, so [i + j] rounds suffice. *)
Fixpoint rotateLoop (fuel m i j : nat) (data : list A) : list A :=
  match fuel with
  | O => data
  | S k =>
      if (i =? j)%nat then swapRange (m - i) m i data
      else if (j <? i)%nat
           then rotateLoop k m (i - j) j (swapRange (m - i) m j data)
           else rotateLoop k m i (j - i) (swapRange (m - i) (m + j - i) i data)
  end.

Definition rotate (a m b : nat) (data : list A) : list A :=
  rotateLoop (S (b - a)) m (m - a) (b - m) data.

(** Binary search of [symMerge_func] when [data[a:m]] has one element:
    the lowest [i] in [m, b) with [data[i] >= data[a]]. *)
Fixpoint searchHigh (fuel a i j : nat) (data : list A) : nat :=
  match fuel with
  | O => i
  | S k =>
      if (i <? j)%nat then
        let h := ((i + j) / 2)%nat in
        if Less data h a then searchHigh k a (h + 1) j data
        else searchHigh k a i h data
      else i
  end.

(** Binary search when [data[m:b]] has one element: the lowest [i] in
    [a, m) with [data[i] > data[m]]. *)
Fixpoint searchLow (fuel m i j : nat) (data : list A) : nat :=
  match fuel with
  | O => i
  | S k =>
      if (i <? j)%nat then
        let h := ((i + j) / 2)%nat in
        if negb (Less data m h) then searchLow k m (h + 1) j data
        else searchLow k m i h data
      else i
  end.

(** The symmetric search: [for start < r { c := (start+r)/2; ... }]. *)
Fixpoint searchSym (fuel p start r : nat) (data : list A) : nat :=
  match fuel with
  | O => start
  | S k =>
      if (start <? r)%nat then
        let c := ((start + r) / 2)%nat in
        if negb (Less data (p - c) c) then searchSym k p (c + 1) r data
        else searchSym k p start c data
      else start
  end.

(** [symMerge_func(data, a, m, b)] merges the sorted runs [data[a:m]]
    and [data[m:b]].  Both recursive calls are on ranges at most half as
    long, so [b - a] levels of recursion suffice. *)
Fixpoint symMerge (fuel a m b : nat) (data : list A) : list A :=
  match fuel with
  | O => data
  | S k =>
      if (m - a =? 1)%nat then
        let i := searchHigh (S (b - m)) a m b data in
        foldl (fun d x => Swap x (x + 1) d) data (seq a (i - 1 - a))
      else if (b - m =? 1)%nat then
        let i := searchLow (S (m - a)) m a m data in
        foldl (fun d x => Swap (m - x) (m - x - 1) d) data (seq 0 (m - i))
      else
        let mid := ((a + b) / 2)%nat in
        let n := (mid + m)%nat in
        let '(start, r) :=
          if (mid <? m)%nat then ((n - b)%nat, mid) else (a, m) in
        let p := (n - 1)%nat in
        let start := searchSym (S (r - start)) p start r data in
        let end_ := (n - start)%nat in
        let data :=
          if (start <? m)%nat && (m <? end_)%nat
          then rotate start m end_ data else data in
        let data :=
          if (a <? start)%nat && (start <? mid)%nat
          then symMerge k a start mid data else data in
        if (mid <? end_)%nat && (end_ <? b)%nat
        then symMerge k mid end_ b data else data
  end.

(** First loop of [stable_func]: insertion sort on consecutive blocks,
    [for b <= n { insertionSort(data, a, b); a = b; b += blockSize }],
    followed by the last, shorter block. *)
Fixpoint sortBlocks (fuel blockSize a n : nat) (data : list A) : list A :=
  match fuel with
  | O => data
  | S k =>
      if (a + blockSize <=? n)%nat
      then sortBlocks k blockSize (a + blockSize) n
                      (insertionSort a (a + blockSize) data)
      else insertionSort a n data
  end.

(** One pass of the second loop: merge neighbouring blocks pairwise. *)
Fixpoint mergePass (fuel blockSize a n : nat) (data : list A) : list A :=
  match fuel with
  | O => data
  | S k =>
      if (a + 2 * blockSize <=? n)%nat
      then mergePass k blockSize (a + 2 * blockSize) n
                     (symMerge (2 * blockSize) a (a + blockSize)
                               (a + 2 * blockSize) data)
      else if (a + blockSize <? n)%nat
           then symMerge (n - a) a (a + blockSize) n data
           else data
  end.

(** [for blockSize < n { ...; blockSize *= 2 }]. *)
Fixpoint mergeBlocks (fuel blockSize n : nat) (data : list A) : list A :=
  match fuel with
  | O => data
  | S k =>
      if (blockSize <? n)%nat
      then mergeBlocks k (2 * blockSize) n (mergePass (S n) blockSize 0 n data)
      else data
  end.

(** [stable_func(data, n)] with [blockSize := 20]. *)
Definition stable (n : nat) (data : list A) : list A :=
  let blockSize := 20%nat in
  let data := sortBlocks (S n) blockSize 0 n data in
  mergeBlocks (S n) blockSize n data.

Definition SliceStable (x : list A) : list A := stable (length x) x.
End Stable.

End sort.

(** ** Errors *)

(** An [error] is represented by the text of [err.Error()], which is what
    the [%v] verb prints. *)
Definition error := string.

Inductive result (A : Type) :=
| Ok (a : A)
| Err (e : error).
Arguments Ok {A} a.
Arguments Err {A} e.

(** ** The daemon's API types *)

Module Port.
(** [types.Port]; the two port numbers are [uint16]. *)
Record t := mk { IP : string; PrivatePort : N; PublicPort : N; Type_ : string }.
End Port.

Module Container.
(** [types.Container], the fields the program reads. *)
Record t := mk {
  ID : string;
  Names : list string;
  Image : string;
  State : string;
  Status : string;
  Ports : list Port.t
}.
End Container.

Module ContainerState.
Record t := mk { Status : string; StartedAt : string }.
End ContainerState.

Module ContainerJSONBase.
(** [types.ContainerJSONBase], reduced to [State], which is a pointer
    ([*ContainerState]): [None] is nil. *)
Record t := mk { State : option ContainerState.t }.
End ContainerJSONBase.

Module ContainerJSON.
(** [types.ContainerJSON] embeds [*ContainerJSONBase], a pointer too. *)
Record t := mk { ContainerJSONBase : option ContainerJSONBase.t }.

(** The selector [ins.State]: it goes through the embedded pointer and
    gives the pointer [State]; [None] when either is nil. *)
Definition State (ins : t) : option ContainerState.t :=
  base ← ContainerJSONBase ins; ContainerJSONBase.State base.
End ContainerJSON.

Module ListOptions.
Record t := mk { All : bool }.
End ListOptions.

Module LogsOptions.
Record t := mk {
  ShowStdout : bool;
  ShowStderr : bool;
  Tail : string;
  Timestamps : bool
}.
End LogsOptions.

(** The calls that reach the daemon, in the order they are issued. *)
Inductive Call :=
| CallContainerList (options : ListOptions.t)
| CallContainerInspect (containerID : string)
| CallContainerLogs (containerID : string) (options : LogsOptions.t).

(** [client.Client]: what the daemon answers.  The first argument is the
    number of calls issued before this one, so the answers may change from
    one call to the next.  [ContainerLogs] returns a reader; the reader is
    represented by the outcome of [io.ReadAll] on it. *)
Module client.
Record Client := mk {
  ContainerList : nat -> ListOptions.t -> result (list Container.t);
  ContainerInspect : nat -> string -> result ContainerJSON.t;
  ContainerLogs : nat -> string -> LogsOptions.t -> result (result (list ascii))
}.
End client.

(** ** The terminal toolkit *)

Module tview.

Inductive Alignment := AlignLeft | AlignCenter | AlignRight.

Record TableCell := mkCell {
  Text : string;
  Align : Alignment;
  MaxWidth : Z;
  Expansion : Z;
  NotSelectable : bool
}.

Definition NewTableCell (text : string) : TableCell :=
  mkCell text AlignLeft 0 0 false.

Definition SetAlign (al : Alignment) (c : TableCell) : TableCell :=
  mkCell (Text c) al (MaxWidth c) (Expansion c) (NotSelectable c).

Definition SetSelectable (selectable : bool) (c : TableCell) : TableCell :=
  mkCell (Text c) (Align c) (MaxWidth c) (Expansion c) (negb selectable).

Definition SetMaxWidth (w : Z) (c : TableCell) : TableCell :=
  mkCell (Text c) (Align c) w (Expansion c) (NotSelectable c).

Definition SetExpansion (e : Z) (c : TableCell) : TableCell :=
  mkCell (Text c) (Align c) (MaxWidth c) e (NotSelectable c).

(** A table: its cells by (row, column) and the selected position. *)
Record Table := mkTable {
  cells : gmap (Z * Z) TableCell;
  selectedRow : Z;
  selectedColumn : Z
}.

Definition NewTable : Table := mkTable ∅ 0 0.

Definition SetCell (row column : Z) (c : TableCell) (t : Table) : Table :=
  mkTable (<[(row, column) := c]> (cells t)) (selectedRow t) (selectedColumn t).

Definition Clear (t : Table) : Table :=
  mkTable ∅ (selectedRow t) (selectedColumn t).

Definition Select (row column : Z) (t : Table) : Table :=
  mkTable (cells t) row column.

End tview.

(** ** What the program takes from its platform

    The wall clock and the functions of [time] and [unicode] that depend on
    time-zone data, layout parsing and case tables. *)
Record Platform := mkPlatform {
  (** [time.Now()], by the number of earlier readings *)
  Now : nat -> time.Time;
  (** [time.Parse(time.RFC3339Nano, s)] *)
  Parse_RFC3339Nano : string -> result time.Time;
  (** [t.Local().Format(time.RFC1123)] *)
  Format_Local_RFC1123 : time.Time -> string;
  (** [t.Format("15:04:05 ")] *)
  Format_clock : time.Time -> string;
  (** [strings.Map(unicode.ToLower, s)] *)
  unicodeLower : string -> string
}.

(** ** The program *)

Module ContainerSummary.
Record t := mk {
  ID : string;
  Name : string;
  Image : string;
  State : string;
  Status : string;
  Ports : string
}.
End ContainerSummary.

(** [App].  [stopped] records a call of [a.ui.Stop()]. *)
Record App := mkApp {
  stopped : bool;
  table : tview.Table;
  details : string;
  logs : string;
  statusBar : string;
  cli : client.Client;
  containers : list ContainerSummary.t
}.

(** The world outside the process: the calls issued to the daemon so far and
    the number of clock readings taken. *)
Record World := mkWorld {
  issued : list Call;
  readings : nat
}.

Definition issue (c : Call) (w : World) : World :=
  mkWorld (issued w ++ [c]) (readings w).

Definition tick (w : World) : World :=
  mkWorld (issued w) (S (readings w)).

(** Go's [int] is 64 bits wide; arithmetic wraps around. *)
Definition wrap64 (z : Z) : Z := (z + 2 ^ 63) mod 2 ^ 64 - 2 ^ 63.

Definition len {A} (l : list A) : Z := Z.of_nat (length l).

(** The line feed that ends each line of the detail block. *)
Definition nl : string := String "010" "".

Definition cell (text : string) : tview.TableCell :=
  tview.SetExpansion 1 (tview.SetMaxWidth 0 (tview.NewTableCell text)).

Definition firstName (names : list string) : string :=
  match names with
  | [] => ""
  | n0 :: _ => strings.TrimPrefix1 n0 "/"
  end.

Definition nz (s fallback : string) : string :=
  if String.eqb s "" then fallback else s.

Section Program.
Variable pf : Platform.

(** The body of the loop of [formatPorts]: what one port appends to [out]. *)
Definition formatPort (p : Port.t) : string :=
  if (0 <? Port.PublicPort p)%N then
    nz (Port.IP p) "0.0.0.0" ++ ":" ++ fmt.u (Port.PublicPort p) ++ "->"
      ++ fmt.u (Port.PrivatePort p) ++ "/"
      ++ strings.ToLower (unicodeLower pf) (Port.Type_ p)
  else
    fmt.u (Port.PrivatePort p) ++ "/"
      ++ strings.ToLower (unicodeLower pf) (Port.Type_ p).

Definition formatPorts (ports : list Port.t) : string :=
  if (length ports =? 0)%nat then "-"
  else
    let out := foldl (fun (out : list string) p => (out ++ [formatPort p])%list) [] ports in
    strings.Join out ", ".

Definition parseTime (s : string) : time.Time :=
  match Parse_RFC3339Nano pf s with
  | Ok t => t
  | Err _ => time.zero
  end.

(** [since(t)], with the clock reading that [time.Since] takes. *)
Definition since (now t : time.Time) : string :=
  let d := time.Since now t in
  if d <? time.Minute then
    fmt.d (float64.toInt (time.Seconds d)) ++ " seconds"
  else if d <? time.Hour then
    fmt.d (float64.toInt (time.Minutes d)) ++ " minutes"
  else if d <? 24 * time.Hour then
    fmt.d (float64.toInt (time.Hours d)) ++ " hours"
  else
    fmt.d (float64.toInt (float64.div (time.Hours d) (float64.ofInt 24))) ++ " days".

(** The comparison closure of [refresh], on the two elements read from
    the slice. *)
Definition lessContainer (ci cj : Container.t) : bool :=
  if negb (String.eqb (Container.State ci) (Container.State cj)) then
    String.eqb (Container.State ci) "running"
  else
    String.ltb (firstName (Container.Names ci)) (firstName (Container.Names cj)).

Definition headers : list string := ["Name"; "Image"; "State"; "Status"; "Ports"].

(** [for c, h := range headers { a.table.SetCell(0, c, ...) }]. *)
Definition setHeaders (t : tview.Table) : tview.Table :=
  foldl (fun t ch =>
           tview.SetCell 0 (Z.of_nat ch.1)
             (tview.SetSelectable false
                (tview.SetAlign tview.AlignCenter
                   (tview.NewTableCell ("[::b]" ++ ch.2)))) t)
        t (imap (fun c h => (c, h)) headers).

Definition setStatus (msg : string) (aw : App * World) : App * World :=
  let '(a, w) := aw in
  let now := Now pf (readings w) in
  (mkApp (stopped a) (table a) (details a) (logs a)
         (Format_clock pf now ++ msg) (cli a) (containers a),
   tick w).

Definition fetchLogs (containerID : string) (n : Z) (aw : App * World)
  : result string * World :=
  let '(a, w) := aw in
  let options := LogsOptions.mk true true (fmt.d n) true in
  let rdr := client.ContainerLogs (cli a) (length (issued w)) containerID options in
  let w := issue (CallContainerLogs containerID options) w in
  match rdr with
  | Err err => (Err err, w)
  | Ok rdr =>
      match rdr with
      | Err err => (Err err, w)
      | Ok b =>
          let s := strings.ReplaceAll1 (string_of_list_ascii b) "013" "" in
          (Ok (strings.TrimSpace s), w)
      end
  end.

Definition setDetails (text : string) (a : App) : App :=
  mkApp (stopped a) (table a) text (logs a) (statusBar a) (cli a) (containers a).

Definition setLogs (text : string) (a : App) : App :=
  mkApp (stopped a) (table a) (details a) text (statusBar a) (cli a) (containers a).

(** [showForRow(row)].  The result is [None] when the method panics:
    that is what indexing [a.containers] out of range does, and what
    [ins.State.StartedAt] does when the answer of the inspection carries no
    state (a nil pointer). *)
Definition showForRow (row : Z) (aw : App * World) : option (App * World) :=
  let '(a, w) := aw in
  let idx := wrap64 (row - 1) in
  if (idx <? 0) || (len (containers a) <=? idx) then Some (a, w)
  else
    c ← containers a !! Z.to_nat idx;
    let ins := client.ContainerInspect (cli a) (length (issued w))
                 (ContainerSummary.ID c) in
    let w := issue (CallContainerInspect (ContainerSummary.ID c)) w in
    '(a, w) ←
      match ins with
      | Err err => Some (setDetails ("[red]Inspect error: " ++ err) a, w)
      | Ok ins =>
          state ← ContainerJSON.State ins;
          let started := parseTime (ContainerState.StartedAt state) in
          let b := "[::b]Name:[-] " ++ ContainerSummary.Name c ++ nl in
          let b := b ++ "[::b]ID:[-] " ++ ContainerSummary.ID c ++ nl in
          let b := b ++ "[::b]Image:[-] " ++ ContainerSummary.Image c ++ nl in
          let b := b ++ "[::b]State:[-] " ++ ContainerState.Status state ++ nl in
          let b := b ++ "[::b]Status:[-] " ++ ContainerSummary.Status c ++ nl in
          let '(b, w) :=
            if negb (time.IsZero started) then
              (b ++ "[::b]Started:[-] " ++ Format_Local_RFC1123 pf started
                 ++ " (" ++ since (Now pf (readings w)) started ++ " ago)" ++ nl,
               tick w)
            else (b, w) in
          Some (setDetails b a, w)
      end;
    let '(r, w) := fetchLogs (ContainerSummary.ID c) 5 (a, w) in
    match r with
    | Err err => Some (setLogs ("[red]Logs error: " ++ err) a, w)
    | Ok logs =>
        let logs :=
          if String.eqb (strings.TrimSpace logs) "" then "(no logs)" else logs in
        Some (setLogs logs a, w)
    end.

Definition setTable (t : tview.Table) (a : App) : App :=
  mkApp (stopped a) t (details a) (logs a) (statusBar a) (cli a) (containers a).

Definition setContainers (cs : list ContainerSummary.t) (a : App) : App :=
  mkApp (stopped a) (table a) (details a) (logs a) (statusBar a) (cli a) cs.

(** The body of [for r, ctn := range containers] in [refresh]. *)
Definition addRow (a : App) (r : nat) (ctn : Container.t) : App :=
  let row := Z.of_nat r + 1 in
  let name := firstName (Container.Names ctn) in
  let ports := formatPorts (Container.Ports ctn) in
  let summary :=
    ContainerSummary.mk (Container.ID ctn) name (Container.Image ctn)
      (Container.State ctn) (Container.Status ctn) ports in
  let a := setContainers (containers a ++ [summary])%list a in
  let a := setTable (tview.SetCell row 0 (cell name) (table a)) a in
  let a := setTable (tview.SetCell row 1 (cell (Container.Image ctn)) (table a)) a in
  let a := setTable (tview.SetCell row 2 (cell (ContainerSummary.State summary)) (table a)) a in
  let a := setTable (tview.SetCell row 3 (cell (ContainerSummary.Status summary)) (table a)) a in
  setTable (tview.SetCell row 4 (cell (ContainerSummary.Ports summary)) (table a)) a.

(** [refresh()].  [None] is a panic, which [refresh] can only get from
    [showForRow]; otherwise the state and the returned error ([None] for
    [nil]). *)
Definition refresh (aw : App * World) : option ((App * World) * option error) :=
  let '(a, w) := aw in
  let options := ListOptions.mk true in
  let r := client.ContainerList (cli a) (length (issued w)) options in
  let w := issue (CallContainerList options) w in
  match r with
  | Err err => Some ((a, w), Some err)
  | Ok containers0 =>
      let containers0 := sort.SliceStable lessContainer containers0 in
      let a := setContainers [] a in
      let a := setTable (tview.Clear (table a)) a in
      let a := setTable (setHeaders (table a)) a in
      let a := foldl (fun a rc => addRow a rc.1 rc.2) a
                     (imap (fun r ctn => (r, ctn)) containers0) in
      let '(a, w) :=
        setStatus ("[green]Refreshed. " ++ fmt.d (len (containers a)) ++ " containers.")
                  (a, w) in
      if 0 <? len (containers a) then
        let a := setTable (tview.Select 1 0 (table a)) a in
        aw ← showForRow 1 (a, w);
        Some (aw, None)
      else
        let a := setDetails "No containers found." a in
        let a := setLogs "" a in
        Some ((a, w), None)
  end.

(** [setupUI()]: the header row; the borders, titles and layout have no
    state in this model. *)
Definition setupUI (a : App) : App := setTable (setHeaders (table a)) a.

(** The function registered with [SetSelectedFunc]. *)
Definition selectedFunc (row column : Z) (aw : App * World) : option (App * World) :=
  showForRow row aw.

(** The function registered with [SetInputCapture], on [event.Rune()].
    The boolean tells whether the event is passed on ([return event]). *)
Definition inputCapture (rune : Z) (aw : App * World)
  : option ((App * World) * bool) :=
  if (rune =? 113) || (rune =? 81) then
    let '(a, w) := aw in
    Some ((mkApp true (table a) (details a) (logs a) (statusBar a) (cli a)
                 (containers a), w), false)
  else if (rune =? 114) || (rune =? 82) then
    '(aw, err) ← refresh aw;
    match err with
    | Some err => Some (setStatus ("[red]Refresh error: " ++ err) aw, false)
    | None => Some (aw, false)
    end
  else Some (aw, true).

(** [main()] from [app.setupUI()] up to the start of the event loop. *)
Definition startup (aw : App * World) : option (App * World) :=
  let '(a, w) := aw in
  let a := setupUI a in
  '(aw, err) ← refresh (a, w);
  match err with
  | Some err => Some (setStatus ("[red]Error loading containers: " ++ err) aw)
  | None => Some aw
  end.
(** The function registered with [SetDoneFunc], on the key;
    [tcell.KeyEscape] is 27. *)
Definition doneFunc (key : Z) (a : App) : App :=
  if key =? 27 then
    mkApp true (table a) (details a) (logs a) (statusBar a) (cli a) (containers a)
  else a.

End Program.

(** * Notions used in the statements *)




(** A float that is not above zero: a zero, a negative number, or one of
    the exceptional values that [int()] sends to the minimum. *)
Definition notPositive (f : spec_float) : Prop :=
  match f with
  | S754_zero _ | S754_nan => True
  | S754_infinity s | S754_finite s _ _ => s = true
  end.

(** The first rune of [t] exists and is not white space. *)
Definition startsNonSpace (t : list ascii) : Prop :=
  t <> [] /\ unicode.IsSpace (fst (utf8.DecodeRuneInString t)) = false.

(** Stripping the bytes of [asciiSpace] from the front and from the end. *)
Fixpoint stripLeft (l : list ascii) : list ascii :=
  match l with
  | c :: rest => if trim.asciiSpace c then stripLeft rest else l
  | [] => []
  end.

Definition stripRight (l : list ascii) : list ascii := rev (stripLeft (rev l)).

(** The carriage return. *)
Definition CR : ascii := "013"%char.

(** A log chunk as the specification describes it: the raw bytes without
    their carriage returns, trimmed of white space at both ends. *)
Definition logText (raw : list ascii) : string :=
  strings.TrimSpace
    (string_of_list_ascii (List.filter (fun c => negb (Ascii.eqb c CR)) raw)).

(** What the logs pane shows for a fetched chunk. *)
Definition logsShown (raw : list ascii) : string :=
  if String.eqb (logText raw) "" then "(no logs)" else logText raw.

(** What the logs pane shows for the outcome of the fetch. *)
Definition logsPane (r : result (result (list ascii))) : string :=
  match r with
  | Err err | Ok (Err err) => "[red]Logs error: " ++ err
  | Ok (Ok raw) => logsShown raw
  end.

(** Every byte value. *)
Definition allBytes : list ascii := map ascii_of_nat (seq 0 256).

(** White space as the specification means it, byte by byte: the UTF-8
    encodings of U+0009..U+000D, U+0020, U+0085, U+00A0, U+1680,
    U+2000..U+200A, U+2028, U+2029, U+202F, U+205F and U+3000. *)
Definition spaceEncodings : list (list ascii) :=
  map (map ascii_of_N)
    [[9]; [10]; [11]; [12]; [13]; [32];
     [194; 133]; [194; 160];
     [225; 154; 128];
     [226; 128; 128]; [226; 128; 129]; [226; 128; 130]; [226; 128; 131];
     [226; 128; 132]; [226; 128; 133]; [226; 128; 134]; [226; 128; 135];
     [226; 128; 136]; [226; 128; 137]; [226; 128; 138];
     [226; 128; 168]; [226; 128; 169]; [226; 128; 175];
     [226; 129; 159];
     [227; 128; 128]]%N.

(** Content made of white space only. *)
Inductive Blank : list ascii -> Prop :=
| Blank_nil : Blank []
| Blank_cons (e l : list ascii) : e ∈ spaceEncodings -> Blank l -> Blank (e ++ l).

(** [t] is [s] with its leading and trailing white space trimmed: [s] is
    [t] between two runs of white space, and [t] neither starts nor ends
    with white space. *)
Definition trimmedOf (s t : list ascii) : Prop :=
  exists pre post,
    s = (pre ++ t ++ post)%list /\ Blank pre /\ Blank post
    /\ (forall e q, e ∈ spaceEncodings -> t <> (e ++ q)%list)
    /\ (forall e p, e ∈ spaceEncodings -> t <> (p ++ e)%list).

Definition isSpaceEncoding (e : list ascii) : bool :=
  bool_decide (e ∈ spaceEncodings).

(** The options [fetchLogs(id, 5)] sends. *)
Definition tail5 : LogsOptions.t := LogsOptions.mk true true "5" true.

(** The five lines that open the detail block. *)
Definition detailHead (c : ContainerSummary.t) (liveState : string) : string :=
  let b := "[::b]Name:[-] " ++ ContainerSummary.Name c ++ nl in
  let b := b ++ "[::b]ID:[-] " ++ ContainerSummary.ID c ++ nl in
  let b := b ++ "[::b]Image:[-] " ++ ContainerSummary.Image c ++ nl in
  let b := b ++ "[::b]State:[-] " ++ liveState ++ nl in
  b ++ "[::b]Status:[-] " ++ ContainerSummary.Status c ++ nl.

(** The line with the start time, absolute and relative. *)
Definition startedLine (pf : Platform) (started now : time.Time) : string :=
  "[::b]Started:[-] " ++ Format_Local_RFC1123 pf started
    ++ " (" ++ since now started ++ " ago)" ++ nl.

(** What [showForRow] reads from the answer of the inspection: the error,
    or the state that the answer carries; nothing when the answer carries
    no state, where [ins.State.StartedAt] dereferences a nil pointer. *)
Definition inspected (r : result ContainerJSON.t) : option (result ContainerState.t) :=
  match r with
  | Err err => Some (Err err)
  | Ok ins => Ok <$> ContainerJSON.State ins
  end.

(** Whether the inspection leads to a [Started] line. *)
Definition rendersStarted (pf : Platform) (r : result ContainerState.t) : bool :=
  match r with
  | Err _ => false
  | Ok state => negb (time.IsZero (parseTime pf (ContainerState.StartedAt state)))
  end.

(** What the details pane shows for the outcome of the inspection. *)
Definition detailsPane (pf : Platform) (c : ContainerSummary.t)
           (r : result ContainerState.t) (now : time.Time) : string :=
  match r with
  | Err err => "[red]Inspect error: " ++ err
  | Ok state =>
      let head := detailHead c (ContainerState.Status state) in
      if rendersStarted pf r
      then head ++ startedLine pf (parseTime pf (ContainerState.StartedAt state)) now
      else head
  end.

(** The world after [showForRow] on a row of the list: the inspection and
    the log fetch have been issued, in this order, and the clock has been
    read once when the [Started] line is rendered. *)
Definition worldAfterShow (pf : Platform) (id : string)
           (r : result ContainerState.t) (w : World) : World :=
  mkWorld (issued w ++ [CallContainerInspect id; CallContainerLogs id tail5])
          (if rendersStarted pf r then S (readings w) else readings w).

(** The summary built from one record of the daemon. *)
Definition summaryOf (pf : Platform) (ctn : Container.t) : ContainerSummary.t :=
  ContainerSummary.mk (Container.ID ctn) (firstName (Container.Names ctn))
    (Container.Image ctn) (Container.State ctn) (Container.Status ctn)
    (formatPorts pf (Container.Ports ctn)).

(** The inspection that a refresh of the listing [cs] issues, for its
    first row, answers with an error or with a state. *)
Definition firstRowAnswered (a : App) (w : World) (cs : list Container.t) : Prop :=
  forall top, head (sort.SliceStable lessContainer cs) = Some top ->
    is_Some (inspected (client.ContainerInspect (cli a) (S (length (issued w)))
                          (Container.ID top))).

(** Every running summary comes before every summary that is not running. *)
Definition runningFirst (out : list ContainerSummary.t) : Prop :=
  forall (i j : nat) x y,
    (i < j)%nat -> out !! i = Some x -> out !! j = Some y ->
    ContainerSummary.State y = "running" -> ContainerSummary.State x = "running".

(** Summaries of equal state are in ascending order of their names. *)
Definition nameAscending (out : list ContainerSummary.t) : Prop :=
  forall (i j : nat) x y,
    (i < j)%nat -> out !! i = Some x -> out !! j = Some y ->
    ContainerSummary.State x = ContainerSummary.State y ->
    String.ltb (ContainerSummary.Name y) (ContainerSummary.Name x) = false.

(** What [since] is expected to show for a whole number [k] of seconds
    below one hour, by integer division. *)
Definition wholeSeconds (k : nat) : string :=
  let k := Z.of_nat k in
  if k <? 60 then fmt.d k ++ " seconds" else fmt.d (k / 60) ++ " minutes".

(** The comparison of [since] with it at [k] seconds. *)
Definition wholeSecondsAgree (k : nat) : bool :=
  String.eqb (since (time.mkTime (Z.of_nat k) 0) time.zero) (wholeSeconds k).

(** The comparison of [since] with "-k seconds" for a start time [k]
    seconds ahead of the clock. *)
Definition secondsAheadAgree (k : nat) : bool :=
  String.eqb (since time.zero (time.mkTime (Z.of_nat k) 0))
             (fmt.d (- Z.of_nat k) ++ " seconds").

(** A header cell as [setupUI] and [refresh] build it. *)
Definition headerCell (h : string) : tview.TableCell :=
  tview.mkCell ("[::b]" ++ h) tview.AlignCenter 0 0 true.

(** ** Sample values

    A platform whose clock starts at second 63,000,000,000 of the calendar,
    which parses two spellings of an instant and nothing else; a daemon that
    gives the same answers to every call; a controller that holds one
    summary. *)

Definition samplePlatform : Platform :=
  mkPlatform
    (fun n => time.mkTime (63000000000 + Z.of_nat n) 0)
    (fun s =>
       if String.eqb s "past" then Ok (time.mkTime 62999999000 0)
       else if String.eqb s "future" then Ok (time.mkTime 63000000005 0)
       else Err "cannot parse")
    (fun t => "T" ++ fmt.d (time.sec t))
    (fun t => fmt.d (time.sec t) ++ " ")
    (fun s => s).

Definition sampleClient (listed : result (list Container.t))
           (inspected : result ContainerJSON.t)
           (fetched : result (result (list ascii))) : client.Client :=
  client.mk (fun _ _ => listed) (fun _ _ => inspected) (fun _ _ _ => fetched).

Definition sampleSummary : ContainerSummary.t :=
  ContainerSummary.mk "id-b" "b" "nginx" "running" "Up 2 hours" "-".

Definition sampleApp (cl : client.Client) : App :=
  mkApp false tview.NewTable "" "" "" cl [sampleSummary].

Definition sampleWorld : World := mkWorld [] 0.

Definition sampleState (startedAt : string) : ContainerState.t :=
  ContainerState.mk "running" startedAt.

Definition sampleJSON (startedAt : string) : ContainerJSON.t :=
  ContainerJSON.mk (Some (ContainerJSONBase.mk (Some (sampleState startedAt)))).

Definition sampleInspect (startedAt : string) : result ContainerJSON.t :=
  Ok (sampleJSON startedAt).

(** The five cells that the loop of [refresh] writes for the record of
    index [r]. *)
Definition rowCells (pf : Platform) (r : nat) (ctn : Container.t)
           (t : tview.Table) : tview.Table :=
  let row := Z.of_nat r + 1 in
  let s := summaryOf pf ctn in
  tview.SetCell row 4 (cell (ContainerSummary.Ports s))
    (tview.SetCell row 3 (cell (ContainerSummary.Status s))
       (tview.SetCell row 2 (cell (ContainerSummary.State s))
          (tview.SetCell row 1 (cell (ContainerSummary.Image s))
             (tview.SetCell row 0 (cell (ContainerSummary.Name s)) t)))).

(** The table after the loop over the records [cs], the first of which has
    index [k]. *)
Definition rowsFrom (pf : Platform) (k : nat) (cs : list Container.t)
           (t : tview.Table) : tview.Table :=
  foldl (fun t rc => rowCells pf rc.1 rc.2 t) t
        (imap (fun r ctn => ((k + r)%nat, ctn)) cs).

(** The text of column [col] in the table row of a summary. *)
Definition column (c : ContainerSummary.t) (col : Z) : string :=
  if col =? 0 then ContainerSummary.Name c
  else if col =? 1 then ContainerSummary.Image c
  else if col =? 2 then ContainerSummary.State c
  else if col =? 3 then ContainerSummary.Status c
  else ContainerSummary.Ports c.

(** The runes that the key handler of the table acts on: q, Q, r, R. *)
Definition handledRune (rune : Z) : bool :=
  (rune =? 113) || (rune =? 81) || (rune =? 114) || (rune =? 82).

(** Insertion of [x] into a list kept in reverse: [x] goes behind the
    leading elements it is less than, as the inner loop of the insertion
    sort moves it. *)
Fixpoint placeRev {A} (less : A -> A -> bool) (x : A) (r : list A) : list A :=
  match r with
  | [] => [x]
  | y :: r' => if less x y then y :: placeRev less x r' else x :: r
  end.

(** The insertion sort, read from the last position to the first. *)
Definition isortRev {A} (less : A -> A -> bool) (r data : list A) : list A :=
  foldl (fun r x => placeRev less x r) r data.

(** The records with state [s] and primary name [n]. *)
Definition sameKey (s n : string) (c : ContainerSummary.t) : bool :=
  String.eqb (ContainerSummary.State c) s && String.eqb (ContainerSummary.Name c) n.

(** Two floats that are each other's opposite; the sign of a zero is left
    out of the comparison. *)
Definition mirrored (f g : spec_float) : Prop :=
  match f, g with
  | S754_zero _, S754_zero _ => True
  | _, _ => f = SFopp g
  end.

(** The ways [symMerge] puts two neighbouring runs [L] and [R] together.
    It leaves them as they are when the first of [R] is not less than the
    last of [L]; or it splits them into [L1 ++ L2] and [R1 ++ R2], where
    the last of [R1] is less than the first of [L2] and the first of [R2]
    is not less than the last of [L1], and puts together [L1] with [R1]
    and [L2] with [R2]. *)
Definition catOK {A} (less : A -> A -> bool) (L R : list A) : Prop :=
  L = [] \/ R = [] \/
  exists l r, last L = Some l /\ head R = Some r /\ less r l = false.

Definition crossOK {A} (less : A -> A -> bool) (L2 R1 : list A) : Prop :=
  L2 = [] \/ R1 = [] \/
  exists l r, head L2 = Some l /\ last R1 = Some r /\ less r l = true.

Inductive Merged {A} (less : A -> A -> bool) : list A -> list A -> list A -> Prop :=
| Merged_cat (L R : list A) : catOK less L R -> Merged less L R (L ++ R)
| Merged_split (L1 L2 R1 R2 S1 S2 : list A) :
    crossOK less L2 R1 -> catOK less L1 R2 ->
    Merged less L1 R1 S1 -> Merged less L2 R2 S2 ->
    Merged less (L1 ++ L2) (R1 ++ R2) (S1 ++ S2).


(** A list made of sorted blocks of [bs] elements, the last of which may
    be shorter: what the loops of [stable] work on. *)
Inductive Blocks {A} (le : A -> A -> Prop) (bs : nat) : list A -> Prop :=
| Blocks_last (l : list A) :
    (length l <= bs)%nat -> StronglySorted le l -> Blocks le bs l
| Blocks_cons (l rest : list A) :
    length l = bs -> StronglySorted le l -> Blocks le bs rest ->
    Blocks le bs (l ++ rest).

(** [l'] keeps the order that [l] has among the elements of every class
    [E] no two elements of which are less than each other. *)
Definition stableOn {A} (less : A -> A -> bool) (l' l : list A) : Prop :=
  forall E : A -> bool,
    (forall x y, E x = true -> E y = true -> less x y = false) ->
    List.filter E l' = List.filter E l.

(** The comparison [less] goes along with the order [le] on the elements
    that satisfy [P]: an element less than another stays so when the two
    are replaced by elements beyond them. *)
Definition respects {A} (less : A -> A -> bool) (P : A -> Prop)
           (le : A -> A -> Prop) : Prop :=
  forall x y z u, P x -> P y -> P z -> P u ->
    le x y -> less y z = true -> le z u -> less x u = true.
(** * Properties *)

(** ** Port formatting *)










(** ** Relative time *)

Lemma binary_round_aux_negative (m e : Z) (l : location) :
  notPositive (binary_round_aux float64.prec float64.emax true m e l).
Proof.
  unfold binary_round_aux.
  destruct (shr_fexp _ _ m e l) as [mrs' e'].
  destruct (shr_fexp _ _ _ e' loc_Exact) as [mrs'' e''].
  destruct (shr_m mrs''); simpl; [done| |done].
  by destruct (e'' <=? _).
Qed.

Lemma ofInt_notPositive (n : Z) : n <= 0 -> notPositive (float64.ofInt n).
Proof.
  intros Hn. destruct n as [|p|p]; [done|lia|].
  unfold float64.ofInt, binary_normalize, binary_round.
  destruct (shl_align _ _ _). apply binary_round_aux_negative.
Qed.

Lemma div_notPositive (x : spec_float) (m : positive) (e : Z) :
  notPositive x -> notPositive (float64.div x (S754_finite false m e)).
Proof.
  destruct x as [s|s| |s mx ex]; simpl; try done.
  - intros ->. done.
  - intros ->. unfold float64.div, SFdiv.
    destruct (SFdiv_core_binary _ _ _ _ _ _) as [[mz ez] lz].
    apply binary_round_aux_negative.
Qed.

Lemma add_notPositive (x y : spec_float) :
  notPositive x -> notPositive y -> notPositive (float64.add x y).
Proof.
  destruct x as [sx|sx| |sx mx ex], y as [sy|sy| |sy my ey]; simpl; try done;
    try (intros -> ->; done); try (intros _ ->; done); try (intros -> _; done).
  - by destruct sx, sy.
  - intros -> ->. unfold float64.add, SFadd, binary_normalize, cond_Zopp. simpl.
    unfold binary_round. destruct (shl_align _ _ _). apply binary_round_aux_negative.
Qed.

Lemma toInt_notPositive (f : spec_float) : notPositive f -> float64.toInt f <= 0.
Proof.
  destruct f as [s|s| |s m e]; simpl; try done.
  intros ->.
  assert (0 <= (if 0 <=? e then Z.pos m * 2 ^ e else Z.pos m / 2 ^ (- e))) as Hmag.
  { destruct (0 <=? e) eqn:He.
    - apply Z.mul_nonneg_nonneg; [lia|]. apply Z.pow_nonneg. lia.
    - apply Z.div_pos; [lia|]. apply Z.pow_pos_nonneg; lia. }
  destruct (_ && _); [lia|done].
Qed.

(** The seconds of a negative duration truncate to a count that is not
    above zero. *)
Lemma Seconds_negative (d : Z) : d < 0 -> float64.toInt (time.Seconds d) <= 0.
Proof.
  intros Hd. apply toInt_notPositive. unfold time.Seconds.
  apply add_notPositive.
  - apply ofInt_notPositive.
    pose proof (Z.quot_opp_l (- d) time.Second) as H. rewrite Z.opp_involutive in H.
    rewrite H by done.
    assert (0 <= (- d) ÷ time.Second); [|lia].
    apply Z.quot_pos; [lia|done].
  - change (float64.ofInt 1000000000) with
      (S754_finite false 8388608000000000 (-23)).
    apply div_notPositive, ofInt_notPositive.
    pose proof (Z.rem_opp_l (- d) time.Second) as H. rewrite Z.opp_involutive in H.
    rewrite H by done.
    assert (0 <= Z.rem (- d) time.Second); [|lia].
    apply Z.rem_nonneg; [done|lia].
Qed.

Lemma Second_val : time.Second = 1000000000.
Proof. reflexivity. Qed.

Ltac durations := rewrite ?Second_val in *; lia.

(** C7. The bucket of [since] is chosen by strict comparisons with one
    minute, one hour and one day, and the number shown is the truncation of
    the duration in the bucket's unit: below one minute "n seconds", below
    one hour "n minutes", below one day "n hours", from one day on
    "n days".  45 s gives "45 seconds", 90 s "1 minutes", 7200 s "2 hours",
    172800 s "2 days", and exactly 60 s is in the minutes bucket. *)
Theorem since_buckets (now t : time.Time) (d : Z) :
  time.Since now t = d ->
  (d < 60 * time.Second ->
     since now t = fmt.d (float64.toInt (time.Seconds d)) ++ " seconds")
  /\ (60 * time.Second <= d < 3600 * time.Second ->
     since now t = fmt.d (float64.toInt (time.Minutes d)) ++ " minutes")
  /\ (3600 * time.Second <= d < 86400 * time.Second ->
     since now t = fmt.d (float64.toInt (time.Hours d)) ++ " hours")
  /\ (86400 * time.Second <= d ->
     since now t =
       fmt.d (float64.toInt (float64.div (time.Hours d) (float64.ofInt 24))) ++ " days")
  /\ (d = 45 * time.Second -> since now t = "45 seconds")
  /\ (d = 90 * time.Second -> since now t = "1 minutes")
  /\ (d = 7200 * time.Second -> since now t = "2 hours")
  /\ (d = 172800 * time.Second -> since now t = "2 days")
  /\ (d = 60 * time.Second -> since now t = "1 minutes").
Proof.
  intros Hd. unfold since. rewrite Hd.
  change time.Minute with (60 * time.Second).
  change time.Hour with (3600 * time.Second).
  change (24 * (3600 * time.Second)) with (86400 * time.Second).
  repeat split.
  - intros H. apply Z.ltb_lt in H. by rewrite H.
  - intros [H1 H2]. apply Z.ltb_ge in H1. apply Z.ltb_lt in H2.
    rewrite H1. by rewrite H2.
  - intros [H1 H2].
    assert ((d <? 60 * time.Second) = false) as -> by (apply Z.ltb_ge; durations).
    apply Z.ltb_ge in H1. apply Z.ltb_lt in H2. rewrite H1. by rewrite H2.
  - intros H.
    assert ((d <? 60 * time.Second) = false) as -> by (apply Z.ltb_ge; durations).
    assert ((d <? 3600 * time.Second) = false) as -> by (apply Z.ltb_ge; durations).
    apply Z.ltb_ge in H. by rewrite H.
  - intros ->. vm_compute. reflexivity.
  - intros ->. vm_compute. reflexivity.
  - intros ->. vm_compute. reflexivity.
  - intros ->. vm_compute. reflexivity.
  - intros ->. vm_compute. reflexivity.
Qed.

Lemma since_buckets_witness :
  since (time.mkTime 1045 0) (time.mkTime 1000 0) = "45 seconds".
Proof.
  apply (since_buckets (time.mkTime 1045 0) (time.mkTime 1000 0) (45 * time.Second)).
  - reflexivity.
  - reflexivity.
Defined.

Lemma since_of_duration (now t now' t' : time.Time) :
  time.Since now t = time.Since now' t' -> since now t = since now' t'.
Proof. intros H. unfold since. by rewrite H. Qed.

Lemma wholeSeconds_grid : forallb wholeSecondsAgree (seq 0 (Z.to_nat 3600)) = true.
Proof. vm_compute. reflexivity. Qed.

(** On every whole number of seconds below one hour the count shown is the
    integer quotient of the duration by the unit of its bucket. *)
Lemma since_whole_seconds (now t : time.Time) (k : nat) :
  (k < Z.to_nat 3600)%nat ->
  time.Since now t = Z.of_nat k * time.Second ->
  since now t = wholeSeconds k.
Proof.
  intros Hk Hd.
  pose proof wholeSeconds_grid as Hgrid.
  rewrite forallb_forall in Hgrid.
  specialize (Hgrid k ltac:(apply in_seq; lia)).
  unfold wholeSecondsAgree in Hgrid. apply String.eqb_eq in Hgrid.
  rewrite <- Hgrid. apply since_of_duration. rewrite Hd.
  unfold time.Since, time.Sub, time.zero. cbn [time.sec time.nsec].
  unfold time.minDuration, time.maxDuration. rewrite Second_val.
  destruct (_ <? - 2 ^ 63) eqn:E1; [apply Z.ltb_lt in E1; lia|].
  destruct (2 ^ 63 - 1 <? _) eqn:E2; [apply Z.ltb_lt in E2; lia|]. lia.
Qed.

Lemma secondsAhead_grid : forallb secondsAheadAgree (seq 0 (Z.to_nat 3600)) = true.
Proof. vm_compute. reflexivity. Qed.

(** For a start time a whole number of seconds ahead, up to one hour, the
    count shown is that number with a minus sign: there is no bucket but
    seconds below zero, and no clamping. *)
Lemma since_whole_seconds_ahead (now t : time.Time) (k : nat) :
  (k < Z.to_nat 3600)%nat ->
  time.Since now t = - Z.of_nat k * time.Second ->
  since now t = fmt.d (- Z.of_nat k) ++ " seconds".
Proof.
  intros Hk Hd.
  pose proof secondsAhead_grid as Hgrid.
  rewrite forallb_forall in Hgrid.
  specialize (Hgrid k ltac:(apply in_seq; lia)).
  unfold secondsAheadAgree in Hgrid. apply String.eqb_eq in Hgrid.
  rewrite <- Hgrid. apply since_of_duration. rewrite Hd.
  unfold time.Since, time.Sub, time.zero. cbn [time.sec time.nsec].
  unfold time.minDuration, time.maxDuration. rewrite Second_val.
  destruct (_ <? - 2 ^ 63) eqn:E1; [apply Z.ltb_lt in E1; lia|].
  destruct (2 ^ 63 - 1 <? _) eqn:E2; [apply Z.ltb_lt in E2; lia|]. lia.
Qed.

(** The number that is truncated is a [float64].  From 4096 hours on, the
    hours of a duration one nanosecond short of a whole hour round to that
    hour: 171 days less one nanosecond are shown as 171 days. *)
Remark since_days_float (now t : time.Time) :
  time.Since now t = 171 * 24 * time.Hour - 1 -> since now t = "171 days".
Proof.
  intros Hd. unfold since. rewrite Hd. vm_compute. reflexivity.
Qed.

(** ** Decoding and trimming *)

Lemma first_ascii (c : ascii) : isASCII c = true -> utf8.first c = utf8.AS.
Proof. unfold isASCII, utf8.first, RuneSelf. by intros ->. Qed.

Lemma first_not_ascii (c : ascii) : isASCII c = false -> utf8.first c <> utf8.AS.
Proof.
  unfold isASCII, utf8.first, RuneSelf. intros ->.
  repeat (case_match; try done).
Qed.

Lemma RuneError_not_space : unicode.IsSpace utf8.RuneError = false.
Proof. reflexivity. Qed.

Lemma Decode_ascii (c : ascii) (rest : list ascii) :
  isASCII c = true -> utf8.DecodeRuneInString (c :: rest) = (utf8.bz c, 1%nat).
Proof. intros H. unfold utf8.DecodeRuneInString. by rewrite first_ascii. Qed.

(** A rune of a non-empty string takes at least one byte and no more than
    the string has. *)
Lemma Decode_size (s : list ascii) :
  s <> [] ->
  (1 <= snd (utf8.DecodeRuneInString s) <= length s)%nat.
Proof.
  destruct s as [|s0 s]; [done|]. intros _.
  unfold utf8.DecodeRuneInString.
  destruct (utf8.first s0) as [| |sz lo hi]; simpl; [lia|lia|].
  destruct (S (length s) <? sz)%nat eqn:Hlen; [simpl; lia|].
  destruct s as [|s1 s]; [simpl; lia|].
  destruct (negb (byte_in lo hi s1)); [simpl; lia|].
  destruct (sz <=? 2)%nat; [simpl; lia|].
  destruct s as [|s2 s]; [simpl; lia|].
  destruct (negb (utf8.isCont s2)); [simpl; lia|].
  destruct (sz <=? 3)%nat; [simpl; lia|].
  destruct s as [|s3 s]; [simpl; lia|].
  destruct (negb (utf8.isCont s3)); simpl; lia.
Qed.

(** A rune decoded as white space is decoded alike when more bytes follow:
    only the error rune depends on what comes after. *)
Lemma Decode_app (p q : list ascii) :
  unicode.IsSpace (fst (utf8.DecodeRuneInString p)) = true ->
  utf8.DecodeRuneInString (p ++ q) = utf8.DecodeRuneInString p.
Proof.
  destruct p as [|s0 p]; [done|].
  rewrite <- app_comm_cons.
  unfold utf8.DecodeRuneInString.
  destruct (utf8.first s0) as [| |sz lo hi]; [done|done|].
  rewrite !length_cons, length_app.
  destruct (S (length p) <? sz)%nat eqn:Hlen; [done|].
  apply Nat.ltb_ge in Hlen.
  assert ((S (length p + length q) <? sz)%nat = false) as ->
    by (apply Nat.ltb_ge; lia).
  destruct p as [|s1 p]; [done|]. rewrite <- app_comm_cons.
  destruct (negb (byte_in lo hi s1)); [done|].
  destruct (sz <=? 2)%nat; [done|].
  destruct p as [|s2 p]; [done|]. rewrite <- app_comm_cons.
  destruct (negb (utf8.isCont s2)); [done|].
  destruct (sz <=? 3)%nat; [done|].
  destruct p as [|s3 p]; [done|]. rewrite <- app_comm_cons.
  done.
Qed.

(** What [DecodeLastRuneInString] returns as white space is a rune that
    decodes forwards, with the same width, from where it starts. *)
Lemma DecodeLast_space (s : list ascii) (r : Z) (size : nat) :
  utf8.DecodeLastRuneInString s = (r, size) ->
  unicode.IsSpace r = true ->
  (1 <= size <= length s)%nat
  /\ utf8.DecodeRuneInString (drop (length s - size) s) = (r, size).
Proof.
  unfold utf8.DecodeLastRuneInString.
  destruct (Z.of_nat (length s) =? 0) eqn:Hlen.
  { intros [= <- <-]. done. }
  apply Z.eqb_neq in Hlen.
  destruct (s !! Z.to_nat (Z.of_nat (length s) - 1)) as [c|] eqn:Hc;
    [|intros [= <- <-]; done].
  destruct (isASCII c) eqn:Hascii.
  - intros [= <- <-] _. split; [lia|].
    replace (Z.to_nat (Z.of_nat (length s) - 1)) with (length s - 1)%nat in Hc by lia.
    rewrite (drop_S _ c _ Hc).
    by rewrite Decode_ascii.
  - set (start := (if _ <? 0 then 0 else _)).
    destruct (utf8.DecodeRuneInString (drop (Z.to_nat start) s)) as [r' size'] eqn:Hd.
    destruct (start + Z.of_nat size' =? Z.of_nat (length s)) eqn:Hend.
    + intros [= <- <-] Hsp. apply Z.eqb_eq in Hend.
      assert (0 <= start) as Hstart.
      { subst start. destruct (_ <? 0) eqn:E; [lia|]. by apply Z.ltb_ge in E. }
      assert (drop (Z.to_nat start) s <> []) as Hne.
      { intros E. rewrite E in Hd. injection Hd as <- <-. done. }
      pose proof (Decode_size _ Hne) as Hsz. rewrite Hd in Hsz. simpl in Hsz.
      split; [lia|].
      replace (length s - size')%nat with (Z.to_nat start) by lia. done.
    + intros [= <- <-]. done.
Qed.

Lemma findStart_le (s : list ascii) (lim start : Z) (k : nat) :
  utf8.findStart s lim start k <= start.
Proof.
  revert start. induction k as [|k IH]; intros start; simpl; [lia|].
  destruct (start <? lim); [lia|].
  destruct (s !! Z.to_nat start) as [c|]; [|lia].
  destruct (utf8.RuneStart c); [lia|].
  specialize (IH (start - 1)). lia.
Qed.

Lemma DecodeLast_size (s : list ascii) :
  s <> [] ->
  (1 <= snd (utf8.DecodeLastRuneInString s) <= length s)%nat.
Proof.
  intros Hne. assert (0 < length s)%nat as Hlen by (destruct s; [done|simpl; lia]).
  unfold utf8.DecodeLastRuneInString.
  destruct (Z.of_nat (length s) =? 0) eqn:E; [apply Z.eqb_eq in E; lia|].
  destruct (s !! Z.to_nat (Z.of_nat (length s) - 1)) as [c|] eqn:Hc.
  2:{ apply lookup_ge_None in Hc. lia. }
  destruct (isASCII c); [simpl; lia|].
  set (start := (if _ <? 0 then 0 else _)).
  destruct (utf8.DecodeRuneInString (drop (Z.to_nat start) s)) as [r' size'] eqn:Hd.
  destruct (start + Z.of_nat size' =? Z.of_nat (length s)) eqn:Hend; [|simpl; lia].
  apply Z.eqb_eq in Hend. simpl.
  assert (0 <= start) as Hstart.
  { subst start. destruct (_ <? 0) eqn:E'; [lia|]. by apply Z.ltb_ge in E'. }
  assert (drop (Z.to_nat start) s <> []) as Hne'.
  { intros E'. rewrite E' in Hd. injection Hd as <- <-.
    subst start.
    pose proof (findStart_le s (Z.max 0 (Z.of_nat (length s) - Z.of_nat utf8.UTFMax))
                  (Z.of_nat (length s) - 1 - 1) utf8.UTFMax) as Hle.
    destruct (_ <? 0); lia. }
  pose proof (Decode_size _ Hne') as Hsz. rewrite Hd in Hsz. simpl in Hsz. lia.
Qed.

Local Opaque utf8.DecodeRuneInString utf8.DecodeLastRuneInString.

Lemma asciiSpace_IsSpace (c : ascii) :
  isASCII c = true -> trim.asciiSpace c = unicode.IsSpace (utf8.bz c).
Proof.
  destruct c as [[] [] [] [] [] [] [] []]; intros H; try discriminate H; reflexivity.
Qed.

Lemma startsNonSpace_ascii (c : ascii) (rest : list ascii) :
  isASCII c = true -> trim.asciiSpace c = false -> startsNonSpace (c :: rest).
Proof.
  intros Ha Hs. split; [done|].
  rewrite Decode_ascii by done. simpl. by rewrite <- asciiSpace_IsSpace.
Qed.

(** A non-empty prefix of a string whose first rune is not white space
    starts with a rune that is not white space either. *)
Lemma startsNonSpace_take (v : list ascii) (n : nat) :
  startsNonSpace v -> take n v <> [] -> startsNonSpace (take n v).
Proof.
  intros [Hne Hsp] Hp. split; [done|].
  destruct (unicode.IsSpace (utf8.DecodeRuneInString (take n v)).1) eqn:E; [|done].
  pose proof (Decode_app (take n v) (drop n v) E) as H.
  rewrite take_drop in H. rewrite H in Hsp. congruence.
Qed.

(** [indexFunc] stops at a rune that is not white space, when it stops. *)
Lemma indexFuncFrom_found (fuel : nat) (s : list ascii) (i : nat) :
  let r := trim.indexFuncFrom unicode.IsSpace fuel s false i in
  r = -1 \/ (0 <= r /\ startsNonSpace (drop (Z.to_nat r) s)).
Proof.
  revert i. induction fuel as [|fuel IH]; intros i; cbn [trim.indexFuncFrom]; [auto|].
  destruct (drop i s) as [|c rest] eqn:Hd; [auto|].
  destruct (utf8.DecodeRuneInString (c :: rest)) as [r' size] eqn:Hdec.
  destruct (Bool.eqb (unicode.IsSpace r') false) eqn:Hsp.
  - right. split; [lia|]. rewrite Nat2Z.id, Hd. split; [done|].
    rewrite Hdec. simpl. by apply Bool.eqb_prop in Hsp.
  - apply IH.
Qed.

Lemma TrimLeftFunc_starts (s : list ascii) :
  trim.TrimLeftFunc unicode.IsSpace s = []
  \/ startsNonSpace (trim.TrimLeftFunc unicode.IsSpace s).
Proof.
  unfold trim.TrimLeftFunc, trim.indexFunc.
  destruct (indexFuncFrom_found (length s) s 0) as [->|[H0 Hs]]; [by left|].
  destruct (_ =? -1) eqn:E; [by left|by right].
Qed.

Lemma TrimLeftFunc_id (s : list ascii) :
  startsNonSpace s -> trim.TrimLeftFunc unicode.IsSpace s = s.
Proof.
  intros [Hne Hsp]. unfold trim.TrimLeftFunc, trim.indexFunc.
  destruct s as [|c rest]; [done|].
  cbn [length trim.indexFuncFrom drop].
  destruct (utf8.DecodeRuneInString (c :: rest)) as [r size]. simpl in Hsp.
  rewrite Hsp. reflexivity.
Qed.

(** [lastIndexFunc] finds a rune when the string starts with one that is
    not white space: the search cannot step over the first rune. *)
Lemma lastIndexFuncFrom_found (fuel : nat) (s : list ascii) (i : nat) :
  startsNonSpace s -> (1 <= i <= length s)%nat -> (i < fuel)%nat ->
  0 <= trim.lastIndexFuncFrom unicode.IsSpace fuel s false i
    < Z.of_nat (length s).
Proof.
  intros Hs. revert i. induction fuel as [|fuel IH]; intros i Hi Hfuel; [lia|].
  simpl. destruct (0 <? i)%nat eqn:Hpos; [|apply Nat.ltb_ge in Hpos; lia].
  destruct (utf8.DecodeLastRuneInString (take i s)) as [r size] eqn:Hdec.
  assert (take i s <> []) as Hne.
  { destruct s; [by destruct Hs|]. destruct i; [lia|done]. }
  pose proof (DecodeLast_size _ Hne) as Hsize. rewrite Hdec in Hsize.
  rewrite length_take in Hsize. simpl in Hsize.
  destruct (Bool.eqb (unicode.IsSpace r) false) eqn:Hsp; [lia|].
  assert (unicode.IsSpace r = true) as Hr by (by destruct (unicode.IsSpace r)).
  destruct (DecodeLast_space _ _ _ Hdec Hr) as [_ Hfw].
  rewrite length_take in Hfw.
  destruct (decide (i - size = 0)%nat) as [Hz|Hnz].
  - (* the white-space rune would be the first rune of [s] *)
    exfalso. replace (i `min` length s - size)%nat with 0%nat in Hfw by lia.
    rewrite drop_0 in Hfw.
    destruct (startsNonSpace_take s i Hs Hne) as [_ Hns].
    rewrite Hfw in Hns. simpl in Hns. congruence.
  - apply IH; lia.
Qed.

Lemma TrimRightFunc_nonempty (v : list ascii) :
  startsNonSpace v -> trim.TrimRightFunc unicode.IsSpace v <> [].
Proof.
  intros Hs. unfold trim.TrimRightFunc, trim.lastIndexFunc.
  assert (1 <= length v)%nat as Hlen.
  { destruct v; [by destruct Hs|simpl; lia]. }
  pose proof (lastIndexFuncFrom_found (S (length v)) v (length v) Hs) as Hi.
  specialize (Hi ltac:(lia) ltac:(lia)).
  set (i := trim.lastIndexFuncFrom _ _ _ _ _) in *.
  destruct ((0 <=? i) && _) eqn:Hbr.
  - apply andb_true_iff in Hbr as [_ Hc].
    destruct (v !! Z.to_nat i) as [c|] eqn:Hl; [|done].
    rewrite (drop_S _ c _ Hl).
    pose proof (Decode_size (c :: drop (S (Z.to_nat i)) v) ltac:(done)) as Hsz.
    destruct v as [|c0 v]; [simpl in Hlen; lia|].
    destruct (Z.to_nat (i + _)) eqn:E; [lia|done].
  - destruct v as [|c0 v]; [simpl in Hlen; lia|].
    destruct (Z.to_nat (i + 1)) eqn:E; [lia|done].
Qed.

Lemma TrimRightFunc_starts (v : list ascii) :
  startsNonSpace v -> startsNonSpace (trim.TrimRightFunc unicode.IsSpace v).
Proof.
  intros Hs. pose proof (TrimRightFunc_nonempty v Hs) as Hne.
  unfold trim.TrimRightFunc in *. by apply startsNonSpace_take.
Qed.

Lemma TrimFunc_starts (s : list ascii) :
  trim.TrimFunc unicode.IsSpace s = []
  \/ startsNonSpace (trim.TrimFunc unicode.IsSpace s).
Proof.
  unfold trim.TrimFunc.
  destruct (TrimLeftFunc_starts s) as [->|Hs]; [by left|].
  right. by apply TrimRightFunc_starts.
Qed.

Lemma scanBack_starts (c : ascii) (rest : list ascii) (k : nat) :
  isASCII c = true -> trim.asciiSpace c = false ->
  (1 <= k <= S (length rest))%nat ->
  startsNonSpace (trim.scanBack (c :: rest) k).
Proof.
  intros Ha Hs. induction k as [|k IH]; intros Hk; [lia|].
  assert (startsNonSpace (take (S k) (c :: rest))) as Htake
    by (by apply startsNonSpace_ascii).
  simpl trim.scanBack.
  destruct ((c :: rest) !! k) as [c'|] eqn:Hl; [|done].
  destruct (negb (isASCII c')); [by apply TrimRightFunc_starts|].
  destruct (trim.asciiSpace c') eqn:Hs'; [|done].
  destruct k as [|k]; [simpl in Hl; congruence|].
  apply IH. simpl in Hk. lia.
Qed.

(** The result of [TrimSpace] is empty or starts with a rune that is not
    white space. *)
Lemma TrimSpaceBytes_starts (s : list ascii) :
  trim.TrimSpaceBytes s = [] \/ startsNonSpace (trim.TrimSpaceBytes s).
Proof.
  unfold trim.TrimSpaceBytes. induction s as [|c rest IH]; simpl; [by left|].
  destruct (isASCII c) eqn:Ha; simpl.
  - destruct (trim.asciiSpace c) eqn:Hs; [done|].
    right. apply (scanBack_starts c rest (S (length rest))); [done|done|lia].
  - apply TrimFunc_starts.
Qed.

(** Trimming a string that starts with a rune that is not white space
    leaves something. *)
Lemma TrimSpaceBytes_nonempty (t : list ascii) :
  startsNonSpace t -> trim.TrimSpaceBytes t <> [].
Proof.
  intros Hs. destruct t as [|c rest]; [by destruct Hs|].
  unfold trim.TrimSpaceBytes. simpl.
  destruct (isASCII c) eqn:Ha; simpl.
  - destruct (trim.asciiSpace c) eqn:Hsp.
    + destruct Hs as [_ Hs]. rewrite Decode_ascii in Hs by done. simpl in Hs.
      rewrite <- asciiSpace_IsSpace in Hs by done. congruence.
    + pose proof (scanBack_starts c rest (S (length rest)) Ha Hsp ltac:(lia)) as [H _].
      done.
  - unfold trim.TrimFunc. rewrite TrimLeftFunc_id by done.
    by apply TrimRightFunc_nonempty.
Qed.

(** Trimming twice gives the empty string only when trimming once does. *)
Lemma TrimSpaceBytes_twice_empty (s : list ascii) :
  trim.TrimSpaceBytes (trim.TrimSpaceBytes s) = [] -> trim.TrimSpaceBytes s = [].
Proof.
  intros H. destruct (TrimSpaceBytes_starts s) as [E|Hs]; [done|].
  by apply TrimSpaceBytes_nonempty in Hs.
Qed.

Lemma TrimSpace_twice_empty (s : string) :
  strings.TrimSpace (strings.TrimSpace s) = "" -> strings.TrimSpace s = "".
Proof.
  unfold strings.TrimSpace. rewrite list_ascii_of_string_of_list_ascii.
  intros H.
  apply (f_equal list_ascii_of_string) in H.
  rewrite list_ascii_of_string_of_list_ascii in H. simpl in H.
  apply TrimSpaceBytes_twice_empty in H. by rewrite H.
Qed.

Local Transparent utf8.DecodeRuneInString utf8.DecodeLastRuneInString.

(** ** The loop bounds of the model are never the reason a loop stops

    Each loop of the library is modelled with a count of unfoldings.  Past
    the stated measure, more unfoldings change nothing: the loop ends by its
    own test. *)

Lemma findStart_fuel (s : list ascii) (lim start : Z) (k k' : nat) :
  start - lim < Z.of_nat k -> start - lim < Z.of_nat k' ->
  utf8.findStart s lim start k = utf8.findStart s lim start k'.
Proof.
  revert start k'. induction k as [|k IH]; intros start k' Hk Hk'.
  - destruct k' as [|k']; [done|]. simpl.
    assert ((start <? lim) = true) as -> by (apply Z.ltb_lt; lia). done.
  - destruct k' as [|k'].
    + simpl. assert ((start <? lim) = true) as -> by (apply Z.ltb_lt; lia). done.
    + simpl. destruct (start <? lim); [done|].
      destruct (s !! Z.to_nat start) as [c|]; [|done].
      destruct (utf8.RuneStart c); [done|]. apply IH; lia.
Qed.

Lemma indexFuncFrom_fuel (f : Z -> bool) (s : list ascii) (truth : bool)
      (fuel fuel' i : nat) :
  (length s - i <= fuel)%nat -> (length s - i <= fuel')%nat ->
  trim.indexFuncFrom f fuel s truth i = trim.indexFuncFrom f fuel' s truth i.
Proof.
  revert fuel' i. induction fuel as [|fuel IH]; intros fuel' i Hf Hf'.
  - destruct fuel' as [|fuel']; [done|]. cbn [trim.indexFuncFrom].
    rewrite drop_ge by lia. done.
  - destruct fuel' as [|fuel']; cbn [trim.indexFuncFrom].
    + rewrite drop_ge by lia. done.
    + destruct (drop i s) as [|c rest] eqn:Hd; [done|].
      pose proof (Decode_size (c :: rest) ltac:(done)) as Hsz.
      destruct (utf8.DecodeRuneInString (c :: rest)) as [r size]. simpl in Hsz.
      destruct (Bool.eqb (f r) truth); [done|]. apply IH; lia.
Qed.

Lemma lastIndexFuncFrom_fuel (f : Z -> bool) (s : list ascii) (truth : bool)
      (fuel fuel' i : nat) :
  (i <= length s)%nat -> (i <= fuel)%nat -> (i <= fuel')%nat ->
  trim.lastIndexFuncFrom f fuel s truth i = trim.lastIndexFuncFrom f fuel' s truth i.
Proof.
  revert fuel' i. induction fuel as [|fuel IH]; intros fuel' i Hi Hf Hf'.
  - assert (i = 0%nat) as -> by lia. by destruct fuel'.
  - destruct fuel' as [|fuel'].
    + assert (i = 0%nat) as -> by lia. done.
    + cbn [trim.lastIndexFuncFrom].
      destruct (0 <? i)%nat eqn:Hpos; [|done]. apply Nat.ltb_lt in Hpos.
      assert (take i s <> []) as Hne.
      { destruct s; [simpl in Hi; lia|]. destruct i; [lia|done]. }
      pose proof (DecodeLast_size _ Hne) as Hsz.
      destruct (utf8.DecodeLastRuneInString (take i s)) as [r size]. simpl in Hsz.
      destruct (Bool.eqb (f r) truth); [done|]. apply IH; lia.
Qed.

Section SortFuel.
Context {A : Type}.
Variable less : A -> A -> bool.

Lemma rotateLoop_fuel (fuel fuel' m i j : nat) (data : list A) :
  (0 < i)%nat -> (0 < j)%nat -> (i + j <= fuel)%nat -> (i + j <= fuel')%nat ->
  sort.rotateLoop fuel m i j data = sort.rotateLoop fuel' m i j data.
Proof.
  revert fuel' i j data. induction fuel as [|fuel IH]; intros fuel' i j data Hi Hj Hf Hf';
    [lia|].
  destruct fuel' as [|fuel']; [lia|]. cbn [sort.rotateLoop].
  destruct (i =? j)%nat eqn:E; [done|]. apply Nat.eqb_neq in E.
  destruct (j <? i)%nat eqn:E'.
  - apply Nat.ltb_lt in E'. apply IH; lia.
  - apply Nat.ltb_ge in E'. apply IH; lia.
Qed.

Lemma searchHigh_fuel (fuel fuel' a i j : nat) (data : list A) :
  (j - i < fuel)%nat -> (j - i < fuel')%nat ->
  sort.searchHigh less fuel a i j data = sort.searchHigh less fuel' a i j data.
Proof.
  revert fuel' i j. induction fuel as [|fuel IH]; intros fuel' i j Hf Hf'; [lia|].
  destruct fuel' as [|fuel']; [lia|]. cbn [sort.searchHigh].
  destruct (i <? j)%nat eqn:E; [|done]. apply Nat.ltb_lt in E.
  pose proof (Nat.div_mod_eq (i + j) 2) as Hdm.
  pose proof (Nat.mod_upper_bound (i + j) 2 ltac:(lia)) as Hm.
  destruct (sort.Less less data _ a); apply IH; lia.
Qed.

Lemma searchLow_fuel (fuel fuel' m i j : nat) (data : list A) :
  (j - i < fuel)%nat -> (j - i < fuel')%nat ->
  sort.searchLow less fuel m i j data = sort.searchLow less fuel' m i j data.
Proof.
  revert fuel' i j. induction fuel as [|fuel IH]; intros fuel' i j Hf Hf'; [lia|].
  destruct fuel' as [|fuel']; [lia|]. cbn [sort.searchLow].
  destruct (i <? j)%nat eqn:E; [|done]. apply Nat.ltb_lt in E.
  pose proof (Nat.div_mod_eq (i + j) 2) as Hdm.
  pose proof (Nat.mod_upper_bound (i + j) 2 ltac:(lia)) as Hm.
  destruct (negb (sort.Less less data m _)); apply IH; lia.
Qed.

Lemma searchSym_fuel (fuel fuel' p start r : nat) (data : list A) :
  (r - start < fuel)%nat -> (r - start < fuel')%nat ->
  sort.searchSym less fuel p start r data = sort.searchSym less fuel' p start r data.
Proof.
  revert fuel' start r. induction fuel as [|fuel IH]; intros fuel' start r Hf Hf'; [lia|].
  destruct fuel' as [|fuel']; [lia|]. cbn [sort.searchSym].
  destruct (start <? r)%nat eqn:E; [|done]. apply Nat.ltb_lt in E.
  pose proof (Nat.div_mod_eq (start + r) 2) as Hdm.
  pose proof (Nat.mod_upper_bound (start + r) 2 ltac:(lia)) as Hm.
  destruct (negb (sort.Less less data _ _)); apply IH; lia.
Qed.

(** [symMerge] is called on [a < m < b]; both inner calls are on ranges of
    at most half the length. *)
Lemma symMerge_fuel (fuel fuel' a m b : nat) (data : list A) :
  (a < m < b)%nat -> (b - a <= fuel)%nat -> (b - a <= fuel')%nat ->
  sort.symMerge less fuel a m b data = sort.symMerge less fuel' a m b data.
Proof.
  revert fuel' a m b data.
  induction fuel as [|fuel IH]; intros fuel' a m b data Hamb Hf Hf'; [lia|].
  destruct fuel' as [|fuel']; [lia|]. cbn [sort.symMerge].
  destruct (m - a =? 1)%nat; [done|].
  destruct (b - m =? 1)%nat; [done|].
  pose proof (Nat.div_mod_eq (a + b) 2) as Hdm.
  pose proof (Nat.mod_upper_bound (a + b) 2 ltac:(lia)) as Hm.
  destruct (if (_ <? m)%nat then _ else _) as [start r]. cbv zeta.
  set (st := sort.searchSym _ _ _ _ _ _).
  set (d1 := if (st <? m)%nat && _ then _ else data).
  destruct ((a <? st)%nat && (st <? (a + b) / 2)%nat) eqn:E1.
  - apply andb_true_iff in E1 as [E1a E1b].
    apply Nat.ltb_lt in E1a, E1b.
    rewrite (IH fuel' a st ((a + b) / 2)%nat d1) by lia.
    set (d2 := sort.symMerge less fuel' a st _ d1).
    destruct (((a + b) / 2 <? (a + b) / 2 + m - st)%nat && _) eqn:E2; [|done].
    apply andb_true_iff in E2 as [E2a E2b].
    apply Nat.ltb_lt in E2a, E2b. apply IH; lia.
  - destruct (((a + b) / 2 <? (a + b) / 2 + m - st)%nat && _) eqn:E2; [|done].
    apply andb_true_iff in E2 as [E2a E2b].
    apply Nat.ltb_lt in E2a, E2b. apply IH; lia.
Qed.

Lemma sortBlocks_fuel (fuel fuel' blockSize a n : nat) (data : list A) :
  (0 < blockSize)%nat -> (n - a < fuel)%nat -> (n - a < fuel')%nat ->
  sort.sortBlocks less fuel blockSize a n data
  = sort.sortBlocks less fuel' blockSize a n data.
Proof.
  intros Hb. revert fuel' a data.
  induction fuel as [|fuel IH]; intros fuel' a data Hf Hf'; [lia|].
  destruct fuel' as [|fuel']; [lia|]. cbn [sort.sortBlocks].
  destruct (a + blockSize <=? n)%nat eqn:E; [|done].
  apply Nat.leb_le in E. apply IH; lia.
Qed.

Lemma mergePass_fuel (fuel fuel' blockSize a n : nat) (data : list A) :
  (0 < blockSize)%nat -> (n - a < fuel)%nat -> (n - a < fuel')%nat ->
  sort.mergePass less fuel blockSize a n data
  = sort.mergePass less fuel' blockSize a n data.
Proof.
  intros Hb. revert fuel' a data.
  induction fuel as [|fuel IH]; intros fuel' a data Hf Hf'; [lia|].
  destruct fuel' as [|fuel']; [lia|]. cbn [sort.mergePass].
  destruct (a + 2 * blockSize <=? n)%nat eqn:E; [|done].
  apply Nat.leb_le in E. apply IH; lia.
Qed.

Lemma mergeBlocks_fuel (fuel fuel' blockSize n : nat) (data : list A) :
  (0 < blockSize)%nat -> (n - blockSize < fuel)%nat -> (n - blockSize < fuel')%nat ->
  sort.mergeBlocks less fuel blockSize n data
  = sort.mergeBlocks less fuel' blockSize n data.
Proof.
  revert fuel' blockSize data.
  induction fuel as [|fuel IH]; intros fuel' blockSize data Hb Hf Hf'; [lia|].
  destruct fuel' as [|fuel']; [lia|]. cbn [sort.mergeBlocks].
  destruct (blockSize <? n)%nat eqn:E; [|done].
  apply Nat.ltb_lt in E. apply IH; lia.
Qed.

End SortFuel.

(** ** Sorting: the records are rearranged, none is lost or invented *)

Section SortPermutation.
Context {A : Type}.
Variable less : A -> A -> bool.

Lemma Swap_perm (i j : nat) (data : list A) : sort.Swap i j data ≡ₚ data.
Proof.
  unfold sort.Swap.
  destruct (data !! i) as [x|] eqn:Hi; [|done].
  destruct (data !! j) as [y|] eqn:Hj; [|done].
  by apply Permutation_insert_swap.
Qed.

Lemma foldl_perm {B} (f : list A -> B -> list A) (l : list B) (data : list A) :
  (forall d x, f d x ≡ₚ d) -> foldl f data l ≡ₚ data.
Proof.
  intros Hf. revert data. induction l as [|x l IH]; intros data; simpl; [done|].
  by rewrite IH.
Qed.

Lemma insertDown_perm (a j : nat) (data : list A) :
  sort.insertDown less a j data ≡ₚ data.
Proof.
  revert data. induction j as [|j IH]; intros data; simpl; [done|].
  destruct (_ && _); [|done]. by rewrite IH, Swap_perm.
Qed.

Lemma insertionSort_perm (a b : nat) (data : list A) :
  sort.insertionSort less a b data ≡ₚ data.
Proof. apply foldl_perm. intros d x. apply insertDown_perm. Qed.

Lemma swapRange_perm (a b n : nat) (data : list A) :
  sort.swapRange a b n data ≡ₚ data.
Proof. apply foldl_perm. intros d x. apply Swap_perm. Qed.

Lemma rotateLoop_perm (fuel m i j : nat) (data : list A) :
  sort.rotateLoop fuel m i j data ≡ₚ data.
Proof.
  revert i j data. induction fuel as [|fuel IH]; intros i j data; simpl; [done|].
  destruct (i =? j)%nat; [apply swapRange_perm|].
  destruct (j <? i)%nat; by rewrite IH, swapRange_perm.
Qed.

Lemma rotate_perm (a m b : nat) (data : list A) :
  sort.rotate a m b data ≡ₚ data.
Proof. apply rotateLoop_perm. Qed.

Lemma symMerge_perm (fuel a m b : nat) (data : list A) :
  sort.symMerge less fuel a m b data ≡ₚ data.
Proof.
  revert a m b data. induction fuel as [|fuel IH]; intros a m b data; [done|].
  cbn [sort.symMerge].
  destruct (m - a =? 1)%nat.
  { apply foldl_perm. intros d x. apply Swap_perm. }
  destruct (b - m =? 1)%nat.
  { apply foldl_perm. intros d x. apply Swap_perm. }
  destruct (if (_ <? m)%nat then _ else _) as [start r]. cbv zeta.
  repeat match goal with
         | |- context [if ?c then _ else _] => destruct c
         end; rewrite ?IH, ?rotate_perm; done.
Qed.

Lemma sortBlocks_perm (fuel blockSize a n : nat) (data : list A) :
  sort.sortBlocks less fuel blockSize a n data ≡ₚ data.
Proof.
  revert a data. induction fuel as [|fuel IH]; intros a data; simpl; [done|].
  destruct (_ <=? n)%nat; [by rewrite IH, insertionSort_perm|].
  apply insertionSort_perm.
Qed.

Lemma mergePass_perm (fuel blockSize a n : nat) (data : list A) :
  sort.mergePass less fuel blockSize a n data ≡ₚ data.
Proof.
  revert a data. induction fuel as [|fuel IH]; intros a data; [done|].
  cbn [sort.mergePass].
  destruct (_ <=? n)%nat; [by rewrite IH, symMerge_perm|].
  destruct (_ <? n)%nat; [apply symMerge_perm|done].
Qed.

Lemma mergeBlocks_perm (fuel blockSize n : nat) (data : list A) :
  sort.mergeBlocks less fuel blockSize n data ≡ₚ data.
Proof.
  revert blockSize data. induction fuel as [|fuel IH]; intros blockSize data; [done|].
  cbn [sort.mergeBlocks].
  destruct (_ <? n)%nat; [by rewrite IH, mergePass_perm|done].
Qed.

(** [sort.SliceStable] returns a permutation of its input, whatever the
    comparison is. *)
Lemma SliceStable_perm (x : list A) : sort.SliceStable less x ≡ₚ x.
Proof.
  unfold sort.SliceStable, sort.stable.
  by rewrite mergeBlocks_perm, sortBlocks_perm.
Qed.

Lemma SliceStable_length (x : list A) :
  length (sort.SliceStable less x) = length x.
Proof. by rewrite SliceStable_perm. Qed.

End SortPermutation.

(** ** Selection *)

Lemma wrap64_id (z : Z) :
  float64.minInt64 <= z <= float64.maxInt64 -> wrap64 z = z.
Proof.
  unfold wrap64, float64.minInt64, float64.maxInt64. intros H.
  rewrite Z.mod_small; lia.
Qed.

Lemma wrap64_range (z : Z) : float64.minInt64 <= wrap64 z <= float64.maxInt64.
Proof.
  unfold wrap64, float64.minInt64, float64.maxInt64.
  pose proof (Z.mod_pos_bound (z + 2 ^ 63) (2 ^ 64) ltac:(lia)). lia.
Qed.

Lemma ReplaceAll1_CR (b : list ascii) :
  strings.ReplaceAll1 (string_of_list_ascii b) CR "" =
  string_of_list_ascii (List.filter (fun c => negb (Ascii.eqb c CR)) b).
Proof.
  induction b as [|c b IH]; [done|]. simpl.
  destruct (Ascii.eqb c CR) eqn:E; simpl; by rewrite IH.
Qed.

(** The test of [showForRow] on the re-trimmed text is the test on the
    text itself. *)
Lemma logs_placeholder (raw : list ascii) :
  (if String.eqb (strings.TrimSpace (logText raw)) "" then "(no logs)"
   else logText raw) = logsShown raw.
Proof.
  unfold logsShown.
  destruct (String.eqb (logText raw) "") eqn:E.
  - apply String.eqb_eq in E. rewrite E. reflexivity.
  - destruct (String.eqb (strings.TrimSpace (logText raw)) "") eqn:E'; [|done].
    apply String.eqb_eq in E'. apply TrimSpace_twice_empty in E'.
    apply String.eqb_neq in E. done.
Qed.

(** [fetchLogs(id, 5)] issues one call and returns the trimmed text. *)
Lemma fetchLogs_spec (id : string) (a : App) (w : World) :
  fetchLogs id 5 (a, w) =
    (match client.ContainerLogs (cli a) (length (issued w)) id tail5 with
     | Err err | Ok (Err err) => Err err
     | Ok (Ok raw) => Ok (logText raw)
     end,
     issue (CallContainerLogs id tail5) w).
Proof.
  unfold fetchLogs. change (LogsOptions.mk true true (fmt.d 5) true) with tail5.
  destruct (client.ContainerLogs _ _ _ _) as [[raw|err]|err]; [|done|done].
  change "013"%char with CR. by rewrite ReplaceAll1_CR.
Qed.

(** [showForRow] on a row of the list, in one equation: it panics when
    the inspection answers without a state; otherwise both panes are
    written from the outcomes of the two calls, independently. *)
Lemma showForRow_selected pf (row : Z) (a : App) (w : World) (c : ContainerSummary.t) :
  1 <= row <= float64.maxInt64 ->
  containers a !! Z.to_nat (row - 1) = Some c ->
  let id := ContainerSummary.ID c in
  let ins := client.ContainerInspect (cli a) (length (issued w)) id in
  let fetched := client.ContainerLogs (cli a) (S (length (issued w))) id tail5 in
  showForRow pf row (a, w) =
    (r ← inspected ins;
     Some (setLogs (logsPane fetched)
             (setDetails (detailsPane pf c r (Now pf (readings w))) a),
           worldAfterShow pf id r w)).
Proof.
  intros Hrow Hc id ins fetched. unfold showForRow.
  rewrite wrap64_id by (unfold float64.minInt64, float64.maxInt64 in *; lia).
  pose proof (lookup_lt_Some _ _ _ Hc) as Hlt.
  assert ((row - 1 <? 0) || (len (containers a) <=? row - 1) = false) as ->.
  { apply orb_false_iff. split; [apply Z.ltb_ge; lia|].
    apply Z.leb_gt. unfold len. lia. }
  rewrite Hc. cbn [mbind option_bind].
  fold id. fold ins.
  assert (forall a1 w1,
            cli a1 = cli a -> issued w1 = (issued w ++ [CallContainerInspect id])%list ->
    (let '(r, w2) := fetchLogs id 5 (a1, w1) in
     match r with
     | Err err => Some (setLogs ("[red]Logs error: " ++ err) a1, w2)
     | Ok logs0 =>
         Some (setLogs (if String.eqb (strings.TrimSpace logs0) "" then "(no logs)"
                        else logs0) a1, w2)
     end)
    = Some (setLogs (logsPane fetched) a1,
            mkWorld (issued w ++ [CallContainerInspect id; CallContainerLogs id tail5])
                    (readings w1))) as Hlogs.
  { intros a1 w1 Hcli Hiss. rewrite fetchLogs_spec. rewrite Hcli, Hiss.
    rewrite length_app. simpl length. rewrite Nat.add_1_r. fold fetched.
    unfold issue. rewrite Hiss. rewrite <- app_assoc. simpl app.
    destruct fetched as [[raw|err]|err]; simpl; [|done|done].
    by rewrite logs_placeholder. }
  unfold inspected, worldAfterShow, detailsPane, rendersStarted.
  destruct ins as [i|err].
  - destruct (ContainerJSON.State i) as [state|]; [|done].
    cbn [fmap option_fmap option_map mbind option_bind].
    fold (detailHead c (ContainerState.Status state)).
    destruct (negb (time.IsZero _)); cbn [mbind option_bind].
    + rewrite Hlogs; [done|done|done].
    + rewrite Hlogs; [done|done|done].
  - cbn [mbind option_bind]. rewrite Hlogs; [done|done|done].
Qed.

(** [showForRow] on a row of the list whose inspection answered with an
    error or with a state. *)
Lemma showForRow_answered pf (row : Z) (a : App) (w : World) (c : ContainerSummary.t)
      (r : result ContainerState.t) :
  1 <= row <= float64.maxInt64 ->
  containers a !! Z.to_nat (row - 1) = Some c ->
  let id := ContainerSummary.ID c in
  let fetched := client.ContainerLogs (cli a) (S (length (issued w))) id tail5 in
  inspected (client.ContainerInspect (cli a) (length (issued w)) id) = Some r ->
  showForRow pf row (a, w) =
    Some (setLogs (logsPane fetched)
            (setDetails (detailsPane pf c r (Now pf (readings w))) a),
          worldAfterShow pf id r w).
Proof.
  intros Hrow Hc id fetched Hr.
  rewrite (showForRow_selected pf row a w c Hrow Hc). fold id. by rewrite Hr.
Qed.

(** [showForRow] does not return in one case only: the row is a row of
    the list and the inspection of its container answers without a state.
    It never indexes the list out of range. *)
Lemma showForRow_panics pf (row : Z) (a : App) (w : World) :
  showForRow pf row (a, w) = None ->
  exists c ins,
    0 <= wrap64 (row - 1) < len (containers a)
    /\ containers a !! Z.to_nat (wrap64 (row - 1)) = Some c
    /\ client.ContainerInspect (cli a) (length (issued w)) (ContainerSummary.ID c) = Ok ins
    /\ ContainerJSON.State ins = None.
Proof.
  unfold showForRow.
  destruct (_ || _) eqn:Hguard; [done|].
  apply orb_false_iff in Hguard as [H0 Hlen].
  apply Z.ltb_ge in H0. apply Z.leb_gt in Hlen.
  destruct (containers a !! Z.to_nat (wrap64 (row - 1))) as [c|] eqn:Hc.
  2:{ apply lookup_ge_None in Hc. unfold len in Hlen. lia. }
  cbn [mbind option_bind].
  destruct (client.ContainerInspect _ _ _) as [ins|err] eqn:Hins.
  - destruct (ContainerJSON.State ins) as [state|] eqn:Hst.
    + cbn [mbind option_bind]. destruct (negb _); cbn [mbind option_bind];
        rewrite fetchLogs_spec;
        destruct (client.ContainerLogs _ _ _ _) as [[raw|e]|e]; done.
    + intros _. exists c, ins. done.
  - cbn [mbind option_bind]. rewrite fetchLogs_spec.
    destruct (client.ContainerLogs _ _ _ _) as [[raw|e]|e]; done.
Qed.

(** C8. The selection handler indexes the summary list only with an index
    inside it: a row whose index [row - 1] is outside [0, length) (the
    header row 0 among them) leaves the state and the world as they are, no
    call issued, and a row inside has an element.  The handler panics in no
    case but one, which is not about the index: the row is inside and the
    inspection of its container answered without a state. *)
Theorem showForRow_bounds pf (row : Z) (a : App) (w : World) :
  float64.minInt64 <= row <= float64.maxInt64 ->
  len (containers a) <= float64.maxInt64 ->
  (~ (0 <= row - 1 < len (containers a)) ->
     showForRow pf row (a, w) = Some (a, w))
  /\ (0 <= row - 1 < len (containers a) ->
      is_Some (containers a !! Z.to_nat (row - 1)))
  /\ showForRow pf 0 (a, w) = Some (a, w)
  /\ (showForRow pf row (a, w) = None ->
      0 <= row - 1 < len (containers a)
      /\ exists c ins,
           containers a !! Z.to_nat (row - 1) = Some c
           /\ client.ContainerInspect (cli a) (length (issued w)) (ContainerSummary.ID c)
              = Ok ins
           /\ ContainerJSON.State ins = None).
Proof.
  intros Hrow Hlen.
  assert (~ (0 <= row - 1 < len (containers a)) ->
          showForRow pf row (a, w) = Some (a, w)) as Hout.
  { intros Hout. unfold showForRow.
    destruct (decide (row = float64.minInt64)) as [->|Hne].
    + assert (wrap64 (float64.minInt64 - 1) = float64.maxInt64) as -> by reflexivity.
      assert ((len (containers a) <=? float64.maxInt64) = true) as ->
        by (by apply Z.leb_le).
      by rewrite orb_true_r.
    + rewrite wrap64_id by lia.
      destruct (_ || _) eqn:Hg; [done|].
      apply orb_false_iff in Hg as [H0 H1].
      apply Z.ltb_ge in H0. apply Z.leb_gt in H1. lia. }
  split; [done|]. split; [|split].
  - intros [H0 H1]. apply lookup_lt_is_Some. unfold len in H1. lia.
  - reflexivity.
  - intros Hnone.
    destruct (decide (0 <= row - 1 < len (containers a))) as [Hin|Hno].
    2:{ rewrite (Hout Hno) in Hnone. done. }
    split; [done|].
    destruct (showForRow_panics pf row a w Hnone) as (c & ins & _ & Hc & Hins & Hst).
    rewrite wrap64_id in Hc
      by (unfold float64.minInt64, float64.maxInt64 in *; lia).
    by exists c, ins.
Qed.

Lemma showForRow_bounds_witness :
  let a := sampleApp (sampleClient (Err "down") (Err "down") (Err "down")) in
  showForRow samplePlatform 2 (a, sampleWorld) = Some (a, sampleWorld).
Proof.
  intros a.
  assert (float64.minInt64 <= 2 <= float64.maxInt64) as Hrow by done.
  assert (len (containers a) <= float64.maxInt64) as Hlen by done.
  destruct (showForRow_bounds samplePlatform 2 a sampleWorld Hrow Hlen)
    as (Hout & _).
  apply Hout. unfold len. simpl. lia.
Defined.

(** C4. When the inspection fails, the details pane gets the inline error
    text, the log fetch is issued all the same, right after the inspection,
    and the logs pane is written from the outcome of the fetch alone: on a
    successful fetch it shows the fetched chunk. *)
Theorem showForRow_inspect_error pf (row : Z) (a : App) (w : World)
        (c : ContainerSummary.t) (err : error) :
  1 <= row <= float64.maxInt64 ->
  containers a !! Z.to_nat (row - 1) = Some c ->
  client.ContainerInspect (cli a) (length (issued w)) (ContainerSummary.ID c) = Err err ->
  let id := ContainerSummary.ID c in
  let fetched := client.ContainerLogs (cli a) (S (length (issued w))) id tail5 in
  exists a' w',
    showForRow pf row (a, w) = Some (a', w')
    /\ details a' = "[red]Inspect error: " ++ err
    /\ issued w' = (issued w ++ [CallContainerInspect id; CallContainerLogs id tail5])%list
    /\ logs a' = logsPane fetched
    /\ (forall raw, fetched = Ok (Ok raw) -> logs a' = logsShown raw).
Proof.
  intros Hrow Hc Hins id fetched.
  subst id fetched.
  eexists _, _. split.
  { apply (showForRow_answered pf row a w c (Err err)); [done|done|by rewrite Hins]. }
  simpl. repeat split. intros raw ->. done.
Qed.

Lemma showForRow_inspect_error_witness :
  exists a' w',
    showForRow samplePlatform 1
      (sampleApp (sampleClient (Err "down") (Err "no such container")
                               (Ok (Ok (list_ascii_of_string "started")))),
       sampleWorld) = Some (a', w')
    /\ details a' = "[red]Inspect error: no such container"
    /\ logs a' = "started".
Proof.
  assert (1 <= 1 <= float64.maxInt64) as Hrow by done.
  destruct (showForRow_inspect_error samplePlatform 1
              (sampleApp (sampleClient (Err "down") (Err "no such container")
                                       (Ok (Ok (list_ascii_of_string "started")))))
              sampleWorld sampleSummary "no such container" Hrow eq_refl eq_refl)
    as (a' & w' & Hshow & Hd & _ & _ & Hl).
  exists a', w'. split; [exact Hshow|]. split; [exact Hd|].
  rewrite (Hl _ eq_refl). vm_compute. reflexivity.
Defined.

Lemma asciiSpace_isASCII (c : ascii) : trim.asciiSpace c = true -> isASCII c = true.
Proof.
  destruct c as [[] [] [] [] [] [] [] []]; intros H; try discriminate H; reflexivity.
Qed.

(** Bytes of ASCII white space only are trimmed to nothing. *)
Lemma TrimSpaceBytes_blank (s : list ascii) :
  forallb trim.asciiSpace s = true -> trim.TrimSpaceBytes s = [].
Proof.
  unfold trim.TrimSpaceBytes. induction s as [|c s IH]; [done|].
  simpl. intros H. apply andb_true_iff in H as [Hc Hs].
  rewrite (asciiSpace_isASCII c Hc), Hc. simpl. by apply IH.
Qed.

Lemma forallb_filter {A} (p q : A -> bool) (l : list A) :
  forallb p l = true -> forallb p (List.filter q l) = true.
Proof.
  induction l as [|x l IH]; [done|]. simpl. intros H.
  apply andb_true_iff in H as [Hx Hl].
  destruct (q x); simpl; [rewrite Hx|]; by apply IH.
Qed.

Lemma logText_blank (raw : list ascii) :
  forallb trim.asciiSpace raw = true -> logText raw = "".
Proof.
  intros H. unfold logText, strings.TrimSpace.
  rewrite list_ascii_of_string_of_list_ascii.
  rewrite TrimSpaceBytes_blank; [done|]. by apply forallb_filter.
Qed.

Lemma stripRight_snoc (l : list ascii) (c : ascii) :
  stripRight (l ++ [c])%list = if trim.asciiSpace c then stripRight l else (l ++ [c])%list.
Proof.
  unfold stripRight. rewrite rev_app_distr. simpl.
  destruct (trim.asciiSpace c); [done|].
  simpl. by rewrite rev_involutive.
Qed.

Lemma scanBack_ascii (t : list ascii) (k : nat) :
  forallb isASCII t = true -> (k <= length t)%nat ->
  trim.scanBack t k = stripRight (take k t).
Proof.
  intros Ha. induction k as [|k IH]; intros Hk; [done|].
  cbn [trim.scanBack].
  destruct (t !! k) as [c|] eqn:Hc.
  2:{ apply lookup_ge_None in Hc. lia. }
  rewrite (take_S_r _ _ _ Hc), stripRight_snoc.
  assert (isASCII c = true) as ->.
  { rewrite forallb_forall in Ha. apply Ha, list_elem_of_In.
    by apply list_elem_of_lookup_2 in Hc. }
  cbn [negb]. destruct (trim.asciiSpace c); [apply IH; lia|].
  by rewrite <- (take_S_r _ _ _ Hc).
Qed.

Lemma stripLeft_ascii (s : list ascii) :
  forallb isASCII s = true -> forallb isASCII (stripLeft s) = true.
Proof.
  induction s as [|c s IH]; [done|]. intros H.
  pose proof H as H'. simpl in H'. apply andb_true_iff in H' as [_ Hs].
  simpl. destruct (trim.asciiSpace c); [by apply IH|done].
Qed.

(** On ASCII text [strings.TrimSpace] strips the bytes of [asciiSpace] from
    both ends and nothing else. *)
Lemma TrimSpaceBytes_ascii (s : list ascii) :
  forallb isASCII s = true ->
  trim.TrimSpaceBytes s = stripRight (stripLeft s).
Proof.
  unfold trim.TrimSpaceBytes. induction s as [|c s IH]; intros Ha; [done|].
  pose proof Ha as Ha'. simpl in Ha'. apply andb_true_iff in Ha' as [Hc Hs].
  cbn [trim.scanFront stripLeft]. rewrite Hc. cbn [negb].
  destruct (trim.asciiSpace c); [by apply IH|].
  rewrite scanBack_ascii by (done || lia). by rewrite firstn_all.
Qed.

(** ** White space, byte by byte

    [strings.TrimSpace] against the encodings of the white-space runes:
    what the decoder reads as white space is one of [spaceEncodings], and
    the loops cut such encodings off, and nothing else. *)

Section WhiteSpace.
Local Open Scope list_scope.

Lemma in_allBytes (c : ascii) : In c allBytes.
Proof.
  unfold allBytes. rewrite <- (ascii_nat_embedding c). apply in_map, in_seq.
  pose proof (nat_ascii_bounded c). lia.
Qed.

Lemma isSpaceEncoding_true (e : list ascii) :
  isSpaceEncoding e = true -> e ∈ spaceEncodings.
Proof. unfold isSpaceEncoding. apply bool_decide_eq_true_1. Qed.

(** The decoder on every sequence of bytes that it accepts: what it
    decodes as white space is one of the encodings. *)
Lemma decodesToEncodings_true :
  forallb (fun s0 =>
    match utf8.first s0 with
    | utf8.AS => implb (unicode.IsSpace (utf8.bz s0)) (isSpaceEncoding [s0])
    | utf8.XX => true
    | utf8.Lead sz lo hi =>
        forallb (fun s1 =>
          if (sz <=? 2)%nat then
            implb (unicode.IsSpace (utf8.DecodeRuneInString [s0; s1]).1)
                  (isSpaceEncoding [s0; s1])
          else
            forallb (fun s2 =>
              if (sz <=? 3)%nat then
                implb (unicode.IsSpace (utf8.DecodeRuneInString [s0; s1; s2]).1)
                      (isSpaceEncoding [s0; s1; s2])
              else
                true)
              (List.filter utf8.isCont allBytes)
            && ((sz <=? 3)%nat
                || existsb (Z.testbit
                              (Z.lor (Z.shiftl (Z.land (utf8.bz s0) utf8.mask4) 18)
                                     (Z.shiftl (Z.land (utf8.bz s1) utf8.maskx) 12)))
                           [16; 17; 18; 19; 20]))
          (List.filter (byte_in lo hi) allBytes)
    end) allBytes
  = true.
Proof. vm_compute. reflexivity. Qed.

(** What the encodings have in common: each decodes to a white-space
    rune over its whole length; a one-byte encoding is an ASCII space; in a
    longer one no byte is ASCII, the first byte starts a rune and the
    others do not. *)
Lemma encodingsDecode_true :
  forallb (fun e =>
    unicode.IsSpace (utf8.DecodeRuneInString e).1
    && ((utf8.DecodeRuneInString e).2 =? length e)%nat
    && match e with
       | [c] => isASCII c && trim.asciiSpace c
       | [f; c1] =>
           negb (isASCII f) && utf8.RuneStart f
           && negb (isASCII c1) && negb (utf8.RuneStart c1)
       | [f; c1; c2] =>
           negb (isASCII f) && utf8.RuneStart f
           && negb (isASCII c1) && negb (utf8.RuneStart c1)
           && negb (isASCII c2) && negb (utf8.RuneStart c2)
       | _ => false
       end) spaceEncodings
  = true.
Proof. vm_compute. reflexivity. Qed.

(** No encoding begins with a byte that a lead byte accepts after it, and
    every lead byte asks for two bytes at least; the ASCII spaces are
    encodings. *)
Lemma leadsReject_true :
  forallb (fun s0 =>
    match utf8.first s0 with
    | utf8.Lead sz lo hi =>
        (2 <=? sz)%nat
        && forallb (fun e => match e with
                             | f :: _ => negb (byte_in lo hi f)
                             | [] => false
                             end) spaceEncodings
    | utf8.AS => implb (trim.asciiSpace s0) (isSpaceEncoding [s0])
    | utf8.XX => true
    end) allBytes
  = true.
Proof. vm_compute. reflexivity. Qed.

Lemma IsSpace_small (r : Z) : unicode.IsSpace r = true -> 0 <= r < 65536.
Proof.
  unfold unicode.IsSpace.
  destruct ((0 <=? r) && (r <=? 0xFF)) eqn:E.
  - apply andb_true_iff in E as [H1 H2].
    apply Z.leb_le in H1, H2. lia.
  - rewrite !orb_true_iff, !andb_true_iff, !Z.eqb_eq, !Z.leb_le. lia.
Qed.

Lemma testbit_high (r k : Z) : 0 <= r < 65536 -> 16 <= k -> Z.testbit r k = false.
Proof.
  intros Hr Hk. destruct (decide (r = 0)) as [->|Hne]; [apply Z.bits_0|].
  apply Z.bits_above_log2; [lia|].
  assert (Z.log2 r < 16) by (apply Z.log2_lt_pow2; lia). lia.
Qed.

Ltac rune_error :=
  intros [= <- <-] Hsp; by rewrite RuneError_not_space in Hsp.

(** The bytes of a rune that decodes as white space are one of the
    encodings. *)
Lemma space_decode_enc (s : list ascii) (r : Z) (size : nat) :
  utf8.DecodeRuneInString s = (r, size) -> unicode.IsSpace r = true ->
  take size s ∈ spaceEncodings.
Proof.
  pose proof decodesToEncodings_true as Hall. rewrite forallb_forall in Hall.
  destruct s as [|s0 s]; [rune_error|].
  specialize (Hall s0 (in_allBytes s0)).
  unfold utf8.DecodeRuneInString.
  destruct (utf8.first s0) as [| |sz lo hi] eqn:Hfirst; [|rune_error|].
  { intros [= <- <-] Hsp. rewrite Hsp in Hall. cbn [implb] in Hall.
    change (take 1 (s0 :: s)) with [s0]. apply isSpaceEncoding_true. exact Hall. }
  rewrite forallb_forall in Hall.
  destruct (length (s0 :: s) <? sz)%nat eqn:Hlen; [rune_error|].
  destruct s as [|s1 s]; [rune_error|].
  destruct (byte_in lo hi s1) eqn:Hb; cbn [negb]; [|rune_error].
  assert (In s1 (List.filter (byte_in lo hi) allBytes)) as Hin1
    by (apply filter_In; split; [apply in_allBytes|done]).
  specialize (Hall s1 Hin1).
  destruct (sz <=? 2)%nat eqn:H2.
  { intros [= <- <-] Hsp. change (take 2 (s0 :: s1 :: s)) with [s0; s1].
    apply isSpaceEncoding_true.
    assert (utf8.DecodeRuneInString [s0; s1]
            = (Z.lor (Z.shiftl (Z.land (utf8.bz s0) utf8.mask2) 6)
                     (Z.land (utf8.bz s1) utf8.maskx), 2%nat)) as Hd.
    { unfold utf8.DecodeRuneInString. rewrite Hfirst. cbn [length].
      apply Nat.leb_le in H2.
      assert ((2 <? sz)%nat = false) as -> by (apply Nat.ltb_ge; lia).
      rewrite Hb. cbn [negb]. apply Nat.leb_le in H2. by rewrite H2. }
    rewrite Hd in Hall. cbn [fst] in Hall. rewrite Hsp in Hall.
    cbn [implb] in Hall. exact Hall. }
  apply andb_true_iff in Hall as [Hall3 Hall4]. rewrite forallb_forall in Hall3.
  destruct s as [|s2 s]; [rune_error|].
  destruct (utf8.isCont s2) eqn:Hc2; cbn [negb]; [|rune_error].
  assert (In s2 (List.filter utf8.isCont allBytes)) as Hin2
    by (apply filter_In; split; [apply in_allBytes|done]).
  specialize (Hall3 s2 Hin2).
  destruct (sz <=? 3)%nat eqn:H3.
  { intros [= <- <-] Hsp. change (take 3 (s0 :: s1 :: s2 :: s)) with [s0; s1; s2].
    apply isSpaceEncoding_true.
    assert (utf8.DecodeRuneInString [s0; s1; s2]
            = (Z.lor (Z.lor (Z.shiftl (Z.land (utf8.bz s0) utf8.mask3) 12)
                            (Z.shiftl (Z.land (utf8.bz s1) utf8.maskx) 6))
                     (Z.land (utf8.bz s2) utf8.maskx), 3%nat)) as Hd.
    { unfold utf8.DecodeRuneInString. rewrite Hfirst. cbn [length].
      pose proof H3 as H3'. apply Nat.leb_le in H3'.
      assert ((3 <? sz)%nat = false) as -> by (apply Nat.ltb_ge; lia).
      rewrite Hb, H2, Hc2, H3. done. }
    rewrite Hd in Hall3. cbn [fst] in Hall3. rewrite Hsp in Hall3.
    cbn [implb] in Hall3. exact Hall3. }
  cbn [orb] in Hall4.
  destruct s as [|s3 s]; [rune_error|].
  destruct (utf8.isCont s3); cbn [negb]; [|rune_error].
  intros [= <- <-] Hsp. exfalso.
  apply existsb_exists in Hall4 as (k & Hk & Hbit).
  pose proof (IsSpace_small _ Hsp) as Hsmall.
  assert (16 <= k) as Hk16.
  { cbn in Hk. destruct Hk as [<-|[<-|[<-|[<-|[<-|[]]]]]]; lia. }
  pose proof (testbit_high _ k Hsmall Hk16) as Hf.
  rewrite 2!Z.lor_spec in Hf. rewrite Hbit in Hf. done.
Qed.

Lemma enc_facts (e : list ascii) :
  e ∈ spaceEncodings ->
  unicode.IsSpace (utf8.DecodeRuneInString e).1 = true
  /\ (utf8.DecodeRuneInString e).2 = length e
  /\ match e with
     | [c] => isASCII c && trim.asciiSpace c
     | [f; c1] =>
         negb (isASCII f) && utf8.RuneStart f
         && negb (isASCII c1) && negb (utf8.RuneStart c1)
     | [f; c1; c2] =>
         negb (isASCII f) && utf8.RuneStart f
         && negb (isASCII c1) && negb (utf8.RuneStart c1)
         && negb (isASCII c2) && negb (utf8.RuneStart c2)
     | _ => false
     end = true.
Proof.
  intros He. apply list_elem_of_In in He.
  pose proof encodingsDecode_true as H. rewrite forallb_forall in H.
  specialize (H e He).
  apply andb_true_iff in H as [H H3]. apply andb_true_iff in H as [H1 H2].
  apply Nat.eqb_eq in H2. done.
Qed.

(** An encoding decodes to its white-space rune whatever follows it. *)
Lemma decode_enc (e q : list ascii) :
  e ∈ spaceEncodings ->
  exists r, utf8.DecodeRuneInString (e ++ q) = (r, length e)
            /\ unicode.IsSpace r = true.
Proof.
  intros He. destruct (enc_facts e He) as (Hsp & Hlen & _).
  rewrite (Decode_app e q Hsp).
  destruct (utf8.DecodeRuneInString e) as [r size]. cbn [fst snd] in *.
  exists r. by rewrite Hlen.
Qed.

Lemma enc_nonempty (e : list ascii) : e ∈ spaceEncodings -> e <> [].
Proof. intros He. destruct (enc_facts e He) as (_ & _ & H). by destruct e. Qed.

(** A rune decoded over two bytes or more is decoded alike when more
    bytes follow. *)
Lemma Decode_app_multi (p q : list ascii) :
  (2 <= (utf8.DecodeRuneInString p).2)%nat ->
  utf8.DecodeRuneInString (p ++ q) = utf8.DecodeRuneInString p.
Proof.
  destruct p as [|s0 p]; [cbn; lia|].
  rewrite <- app_comm_cons.
  unfold utf8.DecodeRuneInString.
  destruct (utf8.first s0) as [| |sz lo hi]; [cbn; lia|cbn; lia|].
  rewrite !length_cons, length_app.
  destruct (S (length p) <? sz)%nat eqn:Hlen; [cbn; lia|].
  apply Nat.ltb_ge in Hlen.
  assert ((S (length p + length q) <? sz)%nat = false) as ->
    by (apply Nat.ltb_ge; lia).
  destruct p as [|s1 p]; [cbn; lia|]. rewrite <- app_comm_cons.
  destruct (negb (byte_in lo hi s1)); [cbn; lia|].
  destruct (sz <=? 2)%nat; [done|].
  destruct p as [|s2 p]; [cbn; lia|]. rewrite <- app_comm_cons.
  destruct (negb (utf8.isCont s2)); [cbn; lia|].
  destruct (sz <=? 3)%nat; [done|].
  destruct p as [|s3 p]; [cbn; lia|]. rewrite <- app_comm_cons.
  done.
Qed.

(** What [DecodeLastRuneInString] returns over two bytes or more is
    what the decoder returns forwards from where the rune starts. *)
Lemma DecodeLast_forward (p : list ascii) (r : Z) (size : nat) :
  utf8.DecodeLastRuneInString p = (r, size) -> p <> [] ->
  size = 1%nat
  \/ utf8.DecodeRuneInString (drop (length p - size) p) = (r, size).
Proof.
  intros Hd Hne. pose proof (DecodeLast_size p Hne) as Hsz. rewrite Hd in Hsz.
  cbn [snd] in Hsz. revert Hd.
  unfold utf8.DecodeLastRuneInString.
  destruct (Z.of_nat (length p) =? 0) eqn:Hlen; [intros [= <- <-]; lia|].
  destruct (p !! Z.to_nat (Z.of_nat (length p) - 1)) as [c|] eqn:Hc;
    [|intros [= <- <-]; lia].
  destruct (isASCII c); [intros [= <- <-]; by left|].
  set (start := (if _ <? 0 then 0 else _)).
  destruct (utf8.DecodeRuneInString (drop (Z.to_nat start) p)) as [r' size'] eqn:Hdec.
  destruct (start + Z.of_nat size' =? Z.of_nat (length p)) eqn:Hend;
    [|intros [= <- <-]; by left].
  intros [= <- <-]. right. apply Z.eqb_eq in Hend.
  assert (0 <= start) as Hstart.
  { subst start. destruct (_ <? 0) eqn:E; [lia|]. by apply Z.ltb_ge in E. }
  replace (length p - size')%nat with (Z.to_nat start) by lia. done.
Qed.

(** A byte that is not ASCII, followed by white space only, is decoded
    over one byte. *)
Lemma width_before_blank (b : ascii) (tail : list ascii) :
  isASCII b = false -> Blank tail ->
  (utf8.DecodeRuneInString (b :: tail)).2 = 1%nat.
Proof.
  intros Hb Htail.
  pose proof leadsReject_true as H. rewrite forallb_forall in H.
  specialize (H b (in_allBytes b)).
  unfold utf8.DecodeRuneInString.
  destruct (utf8.first b) as [| |sz lo hi] eqn:Hfirst; [done|done|].
  apply andb_true_iff in H as [Hsz Hrej]. apply Nat.leb_le in Hsz.
  rewrite forallb_forall in Hrej.
  destruct (length (b :: tail) <? sz)%nat eqn:Hlen; [done|].
  destruct Htail as [|e l He Hl].
  { apply Nat.ltb_ge in Hlen. cbn [length] in Hlen. lia. }
  apply list_elem_of_In in He. specialize (Hrej e He).
  destruct e as [|f e]; [done|].
  cbn [app]. by rewrite Hrej.
Qed.

Lemma DecodeLast_ascii (p : list ascii) (c : ascii) :
  isASCII c = true ->
  utf8.DecodeLastRuneInString (p ++ [c]) = (utf8.bz c, 1%nat).
Proof.
  intros Hc. unfold utf8.DecodeLastRuneInString.
  rewrite length_app. cbn [length].
  destruct (Z.of_nat (length p + 1) =? 0) eqn:E; [apply Z.eqb_eq in E; lia|].
  rewrite (list_lookup_middle p [] c) by lia. by rewrite Hc.
Qed.

Ltac ltb_false :=
  match goal with
  | |- context [if ?x <? ?y then _ else _] =>
      let E := fresh in
      destruct (x <? y) eqn:E; [apply Z.ltb_lt in E; lia|clear E]
  end.

Ltac eqb_true :=
  match goal with
  | |- context [if ?x =? ?y then _ else _] =>
      replace (x =? y) with true by (symmetry; apply Z.eqb_eq; lia)
  end.

Ltac lookup_at s n :=
  match goal with
  | |- context [s !! Z.to_nat ?x] => replace (Z.to_nat x) with n by lia
  end.

(** Read backwards, a string that ends with an encoding ends with its
    white-space rune. *)
Lemma DecodeLast_enc (p e : list ascii) :
  e ∈ spaceEncodings ->
  exists r, utf8.DecodeLastRuneInString (p ++ e) = (r, length e)
            /\ unicode.IsSpace r = true.
Proof.
  intros He. destruct (enc_facts e He) as (Hsp & Hlen & Hshape).
  destruct (utf8.DecodeRuneInString e) as [r size] eqn:Hdec.
  cbn [fst snd] in *. subst size.
  exists r. split; [|done].
  destruct e as [|f [|c1 [|c2 [|]]]]; try done.
  - apply andb_true_iff in Hshape as [Ha _].
    rewrite DecodeLast_ascii by done.
    rewrite Decode_ascii in Hdec by done. by injection Hdec as <-.
  - rewrite !andb_true_iff, !negb_true_iff in Hshape.
    destruct Hshape as [[[Hf Hfs] Hc1] Hc1s].
    set (s := p ++ [f; c1]).
    assert (length s = length p + 2)%nat as Hlen by (subst s; by rewrite length_app).
    assert (s !! length p = Some f) as Hlf by (subst s; by apply list_lookup_middle).
    assert (s !! S (length p) = Some c1) as Hl1.
    { subst s. rewrite lookup_app_r by lia.
      by replace (S (length p) - length p)%nat with 1%nat by lia. }
    assert (drop (length p) s = [f; c1]) as Hdrop by (subst s; by rewrite drop_app_length).
    unfold utf8.DecodeLastRuneInString. rewrite Hlen.
    destruct (Z.of_nat (length p + 2) =? 0) eqn:E; [apply Z.eqb_eq in E; lia|].
    lookup_at s (S (length p)). rewrite Hl1, Hc1.
    change utf8.UTFMax with 4%nat. cbn [utf8.findStart].
    ltb_false. lookup_at s (length p). rewrite Hlf, Hfs.
    ltb_false.
    replace (Z.to_nat (Z.of_nat (length p + 2) - 1 - 1)) with (length p) by lia.
    rewrite Hdrop, Hdec.
    cbn [length]. eqb_true. done.
  - rewrite !andb_true_iff, !negb_true_iff in Hshape.
    destruct Hshape as [[[[[Hf Hfs] Hc1] Hc1s] Hc2] Hc2s].
    set (s := p ++ [f; c1; c2]).
    assert (length s = length p + 3)%nat as Hlen by (subst s; by rewrite length_app).
    assert (s !! length p = Some f) as Hlf by (subst s; by apply list_lookup_middle).
    assert (s !! S (length p) = Some c1) as Hl1.
    { subst s. rewrite lookup_app_r by lia.
      by replace (S (length p) - length p)%nat with 1%nat by lia. }
    assert (s !! S (S (length p)) = Some c2) as Hl2.
    { subst s. rewrite lookup_app_r by lia.
      by replace (S (S (length p)) - length p)%nat with 2%nat by lia. }
    assert (drop (length p) s = [f; c1; c2]) as Hdrop
      by (subst s; by rewrite drop_app_length).
    unfold utf8.DecodeLastRuneInString. rewrite Hlen.
    destruct (Z.of_nat (length p + 3) =? 0) eqn:E; [apply Z.eqb_eq in E; lia|].
    lookup_at s (S (S (length p))). rewrite Hl2, Hc2.
    change utf8.UTFMax with 4%nat. cbn [utf8.findStart].
    ltb_false. lookup_at s (S (length p)). rewrite Hl1, Hc1s.
    ltb_false. lookup_at s (length p). rewrite Hlf, Hfs.
    ltb_false.
    replace (Z.to_nat (Z.of_nat (length p + 3) - 1 - 1 - 1)) with (length p) by lia.
    rewrite Hdrop, Hdec.
    cbn [length]. eqb_true. done.
Qed.

Lemma Blank_app (l1 l2 : list ascii) : Blank l1 -> Blank l2 -> Blank (l1 ++ l2).
Proof.
  induction 1 as [|e l He Hl IH]; intros H2; [done|].
  rewrite <- app_assoc. apply Blank_cons; auto.
Qed.

Lemma Blank_one (e : list ascii) : e ∈ spaceEncodings -> Blank e.
Proof.
  intros He. rewrite <- (app_nil_r e). apply Blank_cons; [done|constructor].
Qed.

Lemma asciiSpace_enc (c : ascii) : trim.asciiSpace c = true -> [c] ∈ spaceEncodings.
Proof.
  intros Hc. apply isSpaceEncoding_true.
  destruct c as [[] [] [] [] [] [] [] []]; try discriminate Hc; vm_compute; reflexivity.
Qed.

(** The forward search stops after a prefix of white space. *)
Lemma indexFuncFrom_spec (fuel : nat) (s : list ascii) (i : nat) :
  (i <= length s)%nat -> (length s - i <= fuel)%nat -> Blank (take i s) ->
  let r := trim.indexFuncFrom unicode.IsSpace fuel s false i in
  (r = -1 /\ Blank s) \/ (0 <= r <= Z.of_nat (length s) /\ Blank (take (Z.to_nat r) s)).
Proof.
  revert i. induction fuel as [|fuel IH]; intros i Hi Hfuel Hb; cbn [trim.indexFuncFrom].
  { left. split; [done|]. rewrite take_ge in Hb by lia. done. }
  destruct (drop i s) as [|c rest] eqn:Hd.
  { left. split; [done|].
    apply (f_equal length) in Hd. rewrite length_drop in Hd. cbn [length] in Hd.
    rewrite take_ge in Hb by lia. done. }
  destruct (utf8.DecodeRuneInString (c :: rest)) as [r' size] eqn:Hdec.
  destruct (Bool.eqb (unicode.IsSpace r') false) eqn:Hsp.
  { right. rewrite Nat2Z.id. split; [lia|done]. }
  assert (unicode.IsSpace r' = true) as Hr by (by destruct (unicode.IsSpace r')).
  pose proof (Decode_size (c :: rest) ltac:(done)) as Hsz.
  rewrite Hdec in Hsz. cbn [snd] in Hsz.
  assert (length (c :: rest) = length s - i)%nat as Hlen
    by (by rewrite <- Hd, length_drop).
  apply IH; [lia|lia|].
  rewrite <- take_take_drop, Hd.
  apply Blank_app; [done|]. apply Blank_one.
  by apply (space_decode_enc _ r').
Qed.

Lemma TrimLeftFunc_spec (s : list ascii) :
  exists pre, s = pre ++ trim.TrimLeftFunc unicode.IsSpace s /\ Blank pre.
Proof.
  unfold trim.TrimLeftFunc, trim.indexFunc.
  destruct (indexFuncFrom_spec (length s) s 0) as [[-> Hb]|[Hr Hb]];
    [lia|lia|constructor| |].
  - exists s. by rewrite app_nil_r.
  - set (r := trim.indexFuncFrom _ _ _ _ _) in *.
    destruct (r =? -1) eqn:E; [apply Z.eqb_eq in E; lia|].
    exists (take (Z.to_nat r) s). by rewrite take_drop.
Qed.

(** White space only is skipped whole by the forward search. *)
Lemma indexFuncFrom_blank (fuel : nat) (s : list ascii) (i : nat) :
  Blank (drop i s) -> trim.indexFuncFrom unicode.IsSpace fuel s false i = -1.
Proof.
  revert i. induction fuel as [|fuel IH]; intros i Hb; cbn [trim.indexFuncFrom]; [done|].
  destruct (drop i s) as [|c rest] eqn:Hd; [done|].
  inversion Hb as [|e l He Hl Heq].
  destruct (decode_enc e l He) as (r & Hdec & Hsp).
  rewrite Hdec, Hsp. cbn [Bool.eqb].
  apply IH. rewrite <- drop_drop, Hd, <- Heq.
  by rewrite drop_app_length.
Qed.

Lemma TrimSpaceBytes_Blank (s : list ascii) :
  Blank s -> trim.TrimSpaceBytes s = [].
Proof.
  unfold trim.TrimSpaceBytes. induction 1 as [|e l He Hl IH]; [done|].
  destruct (enc_facts e He) as (_ & _ & Hshape).
  destruct e as [|f e]; [done|].
  rewrite <- app_comm_cons. cbn [trim.scanFront].
  destruct (isASCII f) eqn:Hf; cbn [negb].
  - destruct e as [|c1 [|c2 [|]]]; try done.
    apply andb_true_iff in Hshape as [_ ->]. done.
  - unfold trim.TrimFunc, trim.TrimLeftFunc, trim.indexFunc.
    rewrite indexFuncFrom_blank; [done|].
    rewrite drop_0, app_comm_cons. by apply Blank_cons.
Qed.

Lemma Blank_filter (p : ascii -> bool) (l : list ascii) :
  (forall e, e ∈ spaceEncodings -> List.filter p e = e \/ List.filter p e = []) ->
  Blank l -> Blank (List.filter p l).
Proof.
  intros Hp. induction 1 as [|e l He Hl IH]; [constructor|].
  rewrite List.filter_app.
  destruct (Hp e He) as [-> | ->]; [by apply Blank_cons|done].
Qed.

Lemma Blank_removeCR (raw : list ascii) :
  Blank raw -> Blank (List.filter (fun c => negb (Ascii.eqb c CR)) raw).
Proof.
  apply Blank_filter. intros e He.
  revert e He. apply Forall_forall. unfold spaceEncodings. cbn [map].
  repeat (constructor; [first [by left|by right]|]). constructor.
Qed.

(** The backward search stops before a suffix of white space, at a rune
    that is not white space. *)
Lemma lastIndexFuncFrom_spec (fuel : nat) (v : list ascii) (i : nat) :
  startsNonSpace v -> (1 <= i <= length v)%nat -> (i < fuel)%nat ->
  Blank (drop i v) ->
  exists (i' : nat) (r : Z) (size : nat),
    (1 <= size <= i')%nat /\ (i' <= length v)%nat /\ Blank (drop i' v)
    /\ utf8.DecodeLastRuneInString (take i' v) = (r, size)
    /\ unicode.IsSpace r = false
    /\ trim.lastIndexFuncFrom unicode.IsSpace fuel v false i = Z.of_nat (i' - size).
Proof.
  intros Hs. revert i. induction fuel as [|fuel IH]; intros i Hi Hfuel Hb; [lia|].
  cbn [trim.lastIndexFuncFrom].
  destruct (0 <? i)%nat eqn:Hpos; [|apply Nat.ltb_ge in Hpos; lia].
  destruct (utf8.DecodeLastRuneInString (take i v)) as [r size] eqn:Hdec.
  assert (take i v <> []) as Hne.
  { destruct v; [by destruct Hs|]. destruct i; [lia|done]. }
  pose proof (DecodeLast_size _ Hne) as Hsize. rewrite Hdec in Hsize.
  rewrite length_take in Hsize. cbn [snd] in Hsize.
  destruct (Bool.eqb (unicode.IsSpace r) false) eqn:Hsp.
  { exists i, r, size. apply Bool.eqb_prop in Hsp. repeat split; try lia; done. }
  assert (unicode.IsSpace r = true) as Hr by (by destruct (unicode.IsSpace r)).
  destruct (DecodeLast_space _ _ _ Hdec Hr) as [_ Hfw].
  rewrite length_take in Hfw.
  replace (i `min` length v - size)%nat with (i - size)%nat in Hfw by lia.
  destruct (decide (i - size = 0)%nat) as [Hz|Hnz].
  - exfalso. rewrite Hz, drop_0 in Hfw.
    destruct (startsNonSpace_take v i Hs Hne) as [_ Hns].
    rewrite Hfw in Hns. cbn [fst] in Hns. congruence.
  - apply IH; [lia|lia|].
    rewrite <- (drop_take_drop v (i - size) i) by lia.
    apply Blank_cons; [|done].
    pose proof (space_decode_enc _ _ _ Hfw Hr) as He.
    rewrite take_ge in He; [done|]. rewrite length_drop, length_take. lia.
Qed.

(** [TrimRightFunc] cuts a suffix of white space off, and what it leaves
    does not end with white space. *)
Lemma TrimRightFunc_spec (v : list ascii) :
  startsNonSpace v ->
  exists post,
    v = trim.TrimRightFunc unicode.IsSpace v ++ post /\ Blank post
    /\ (forall e p, e ∈ spaceEncodings ->
                    trim.TrimRightFunc unicode.IsSpace v <> p ++ e).
Proof.
  intros Hs.
  assert (1 <= length v)%nat as Hlen.
  { destruct v; [by destruct Hs|cbn [length]; lia]. }
  destruct (lastIndexFuncFrom_spec (S (length v)) v (length v) Hs)
    as (i' & r & size & Hsz & Hi' & Hb & Hdec & Hsp & Hidx);
    [lia|lia|rewrite drop_all; constructor|].
  assert (take i' v <> []) as Hne.
  { destruct v; [by destruct Hs|]. destruct i'; [lia|done]. }
  assert (trim.TrimRightFunc unicode.IsSpace v = take i' v) as ->.
  { unfold trim.TrimRightFunc, trim.lastIndexFunc. rewrite Hidx. f_equal.
    assert ((0 <=? Z.of_nat (i' - size)) = true) as -> by (apply Z.leb_le; lia).
    rewrite Nat2Z.id.
    destruct (v !! (i' - size)%nat) as [c|] eqn:Hc; [|apply lookup_ge_None in Hc; lia].
    assert (take i' v !! (i' - size)%nat = Some c) as Hc'
      by (rewrite lookup_take_lt by lia; done).
    pose proof (DecodeLast_forward _ _ _ Hdec Hne) as Hfw.
    rewrite length_take in Hfw.
    replace (i' `min` length v - size)%nat with (i' - size)%nat in Hfw by lia.
    cbn [default from_option id andb].
    destruct (isASCII c) eqn:Ha; cbn [negb].
    - assert (size = 1%nat) as ->; [|lia].
      destruct Hfw as [?|Hfw]; [done|].
      rewrite (drop_S _ c _ Hc'), Decode_ascii in Hfw by done. by injection Hfw as _ <-.
    - destruct (decide (size = 1%nat)) as [->|Hn1].
      + rewrite (drop_S _ c _ Hc). replace (S (i' - 1)) with i' by lia.
        rewrite width_before_blank by done. lia.
      + destruct Hfw as [?|Hfw]; [done|].
        rewrite <- (drop_take_drop v (i' - size) i') by lia.
        rewrite Decode_app_multi; rewrite Hfw; cbn [snd]; lia. }
  exists (drop i' v). split; [by rewrite take_drop|]. split; [done|].
  intros e p He Heq.
  destruct (DecodeLast_enc p e He) as (r' & Hd' & Hsp').
  rewrite <- Heq, Hdec in Hd'. injection Hd' as -> _. congruence.
Qed.

(** The second loop of [TrimSpace] cuts a suffix of white space off, and
    what it leaves does not end with white space. *)
Lemma scanBack_spec (c : ascii) (rest : list ascii) (k : nat) :
  isASCII c = true -> trim.asciiSpace c = false ->
  (1 <= k <= S (length rest))%nat -> Blank (drop k (c :: rest)) ->
  exists post,
    c :: rest = trim.scanBack (c :: rest) k ++ post /\ Blank post
    /\ (forall e p, e ∈ spaceEncodings -> trim.scanBack (c :: rest) k <> p ++ e).
Proof.
  intros Ha Hs. induction k as [|k IH]; intros Hk Hb; [lia|].
  cbn [trim.scanBack].
  destruct ((c :: rest) !! k) as [c'|] eqn:Hl;
    [|apply lookup_ge_None in Hl; cbn [length] in Hl; lia].
  destruct (isASCII c') eqn:Ha'; cbn [negb].
  2:{ destruct (TrimRightFunc_spec (take (S k) (c :: rest)))
        as (post & Heq & Hpost & Hsuf).
      { apply startsNonSpace_take; [by apply startsNonSpace_ascii|done]. }
      exists (post ++ drop (S k) (c :: rest)). split.
      - rewrite app_assoc, <- Heq. by rewrite take_drop.
      - split; [by apply Blank_app|done]. }
  destruct (trim.asciiSpace c') eqn:Hs'.
  - destruct k as [|k]; [cbn in Hl; congruence|].
    apply IH; [lia|]. rewrite (drop_S _ c' _ Hl).
    apply (Blank_cons [c']); [by apply asciiSpace_enc|done].
  - exists (drop (S k) (c :: rest)). split; [by rewrite take_drop|]. split; [done|].
    intros e p He Heq. rewrite (take_S_r _ _ _ Hl) in Heq.
    destruct (DecodeLast_enc p e He) as (r & Hd & Hsp).
    rewrite <- Heq, DecodeLast_ascii in Hd by done. injection Hd as <- _.
    rewrite <- asciiSpace_IsSpace in Hsp by done. congruence.
Qed.

(** [strings.TrimSpace] cuts white space off at both ends, and what it
    leaves neither starts nor ends with white space. *)
Lemma TrimSpaceBytes_trimmed (s : list ascii) :
  trimmedOf s (trim.TrimSpaceBytes s).
Proof.
  assert (exists pre post,
            s = pre ++ trim.TrimSpaceBytes s ++ post /\ Blank pre /\ Blank post
            /\ (forall e p, e ∈ spaceEncodings -> trim.TrimSpaceBytes s <> p ++ e))
    as (pre & post & Heq & Hpre & Hpost & Hsuf).
  { unfold trim.TrimSpaceBytes. induction s as [|c rest IH].
    - exists [], []. repeat split; try constructor.
      intros e p He H. cbn [trim.scanFront] in H. symmetry in H.
      apply app_eq_nil in H as [_ ->]. by apply enc_nonempty in He.
    - cbn [trim.scanFront]. destruct (isASCII c) eqn:Ha; cbn [negb].
      + destruct (trim.asciiSpace c) eqn:Hsp.
        * destruct IH as (pre & post & Heq & Hpre & Hpost & Hsuf).
          exists (c :: pre), post.
          split; [by rewrite <- app_comm_cons, <- Heq|].
          split; [|done]. apply (Blank_cons [c]); [by apply asciiSpace_enc|done].
        * destruct (scanBack_spec c rest (S (length rest)) Ha Hsp)
            as (post & Heq & Hpost & Hsuf);
            [lia|cbn [drop]; rewrite drop_all; constructor|].
          exists [], post. split; [done|]. split; [constructor|done].
      + unfold trim.TrimFunc.
        destruct (TrimLeftFunc_spec (c :: rest)) as (pre & Heq & Hpre).
        destruct (TrimLeftFunc_starts (c :: rest)) as [E|Hst].
        * rewrite E in Heq |- *. exists pre, [].
          change (trim.TrimRightFunc unicode.IsSpace []) with (@nil ascii).
          split; [done|]. split; [done|]. split; [constructor|].
          intros e p He H. symmetry in H.
          apply app_eq_nil in H as [_ ->]. by apply enc_nonempty in He.
        * destruct (TrimRightFunc_spec _ Hst) as (post & Heq' & Hpost & Hsuf).
          exists pre, post. split; [by rewrite <- Heq'|done]. }
  exists pre, post. repeat split; try done.
  intros e q He H. destruct (TrimSpaceBytes_starts s) as [E|[_ Hns]].
  - rewrite E in H. symmetry in H.
    apply app_eq_nil in H as [-> _]. by apply enc_nonempty in He.
  - destruct (decode_enc e q He) as (r & Hd & Hsp).
    rewrite H, Hd in Hns. cbn [fst] in Hns. congruence.
Qed.

End WhiteSpace.

(** ** There is one trimmed text

    No encoding starts another, and an encoding starts with the only byte
    of it that starts a rune: a run of white space is cut into its
    encodings in one way, from either end. *)

Section Unique.
Local Open Scope list_scope.

Lemma enc_shape (e : list ascii) :
  e ∈ spaceEncodings ->
  exists f u, e = f :: u /\ utf8.RuneStart f = true
              /\ Forall (fun b => utf8.RuneStart b = false) u.
Proof.
  revert e. apply Forall_forall. unfold spaceEncodings. cbn [map].
  repeat (constructor; [eexists _, _; split; [reflexivity|];
                        split; [reflexivity|]; repeat constructor|]).
  constructor.
Qed.

(** No encoding is the start of another. *)
Lemma enc_prefix_code (e e' q q' : list ascii) :
  e ∈ spaceEncodings -> e' ∈ spaceEncodings -> e ++ q = e' ++ q' ->
  e = e' /\ q = q'.
Proof.
  intros He He' Heq.
  destruct (decode_enc e q He) as (r & Hd & _).
  destruct (decode_enc e' q' He') as (r' & Hd' & _).
  rewrite Heq, Hd' in Hd. injection Hd as _ Hlen.
  assert (e = e') as ->.
  { rewrite <- (take_app_length e q), <- (take_app_length e' q'), Heq.
    by rewrite Hlen. }
  split; [done|]. by apply app_inv_head in Heq.
Qed.

Lemma Blank_head (b : ascii) (l : list ascii) :
  Blank (b :: l) -> utf8.RuneStart b = true.
Proof.
  inversion 1 as [|e l' He Hl Heq].
  destruct (enc_shape e He) as (f & u & -> & Hf & _).
  rewrite <- app_comm_cons in Heq. by injection Heq as -> _.
Qed.

(** An encoding that starts inside [t] and ends in white space after it
    does not exist: white space starts with the first byte of a rune. *)
Lemma enc_overlap (t k e post : list ascii) :
  e ∈ spaceEncodings -> t <> [] -> k <> [] -> e = t ++ k -> Blank (k ++ post) -> False.
Proof.
  intros He Ht Hk Heq Hb.
  destruct (enc_shape e He) as (f & u & -> & _ & Hu).
  destruct t as [|f' t]; [done|]. destruct k as [|b k]; [done|].
  rewrite <- app_comm_cons in Heq. injection Heq as _ ->.
  rewrite <- app_comm_cons in Hb. apply Blank_head in Hb.
  apply Forall_app in Hu as [_ Hu]. apply Forall_cons in Hu as [Hu _]. congruence.
Qed.

Lemma noPrefix_app (t post : list ascii) :
  t <> [] -> (forall e q, e ∈ spaceEncodings -> t <> e ++ q) -> Blank post ->
  forall e q, e ∈ spaceEncodings -> t ++ post <> e ++ q.
Proof.
  intros Ht Hpre Hpost e q He Heq.
  apply app_eq_inv in Heq as [(k & Ht' & Hq)|(k & He' & Hpost')].
  - by apply (Hpre e k He).
  - destruct k as [|b k].
    { rewrite app_nil_r in He'. subst e. apply (Hpre t [] He). by rewrite app_nil_r. }
    apply (enc_overlap t (b :: k) e q He Ht); [done|done|by rewrite <- Hpost'].
Qed.

Lemma Blank_cancel_l (pre y : list ascii) :
  Blank pre -> Blank (pre ++ y) -> Blank y.
Proof.
  induction 1 as [|e l He Hl IH]; [done|].
  rewrite <- app_assoc. inversion 1 as [Hnil|e' l' He' Hl' Heq].
  { destruct (enc_shape e He) as (f & u & -> & _). done. }
  apply enc_prefix_code in Heq as [-> ->]; [|done|done]. by apply IH.
Qed.

Lemma Blank_cancel_r (k post : list ascii) :
  Blank post -> Blank (k ++ post) -> Blank k.
Proof.
  intros Hpost Hb. remember (k ++ post) as z eqn:Hz.
  revert k Hz. induction Hb as [|e l He Hl IH]; intros k Hz.
  { symmetry in Hz. apply app_eq_nil in Hz as [-> _]. constructor. }
  symmetry in Hz. apply app_eq_inv in Hz as [(k2 & -> & Hl2)|(k2 & He2 & Hp2)].
  - apply Blank_cons; [done|]. by apply IH.
  - destruct k as [|b k]; [constructor|].
    destruct k2 as [|b2 k2].
    { rewrite app_nil_r in He2. subst e. cbn [app] in Hp2. subst l.
      rewrite <- (app_nil_r (b :: k)). apply Blank_cons; [done|constructor]. }
    exfalso. apply (enc_overlap (b :: k) (b2 :: k2) e l He); [done|done|done|].
    by rewrite <- Hp2.
Qed.

Lemma Blank_last (k : list ascii) :
  Blank k -> k <> [] -> exists p e, e ∈ spaceEncodings /\ k = p ++ e.
Proof.
  induction 1 as [|e l He Hl IH]; intros Hne; [done|].
  destruct l as [|b l].
  - exists [], e. by rewrite app_nil_r.
  - destruct IH as (p & e' & He' & Heq); [done|].
    exists (e ++ p), e'. split; [done|]. by rewrite Heq, app_assoc.
Qed.

Lemma trimmed_left_unique (pre pre' x x' : list ascii) :
  Blank pre -> Blank pre' -> pre ++ x = pre' ++ x' ->
  (forall e q, e ∈ spaceEncodings -> x <> e ++ q) ->
  (forall e q, e ∈ spaceEncodings -> x' <> e ++ q) ->
  x = x'.
Proof.
  intros Hpre. revert pre'. induction Hpre as [|e l He Hl IH]; intros pre' Hpre' Heq Hx Hx'.
  - destruct Hpre' as [|e' l' He' Hl']; [done|].
    exfalso. cbn [app] in Heq. rewrite <- app_assoc in Heq. exact (Hx e' _ He' Heq).
  - destruct Hpre' as [|e' l' He' Hl'].
    + exfalso. cbn [app] in Heq. rewrite <- app_assoc in Heq.
      symmetry in Heq. exact (Hx' e _ He Heq).
    + rewrite <- !app_assoc in Heq.
      apply enc_prefix_code in Heq as [-> Heq]; [|done|done].
      by apply (IH l').
Qed.

Lemma trimmed_right_unique (t t' post post' : list ascii) :
  Blank post -> Blank post' -> t ++ post = t' ++ post' ->
  (forall e p, e ∈ spaceEncodings -> t <> p ++ e) ->
  (forall e p, e ∈ spaceEncodings -> t' <> p ++ e) ->
  t = t'.
Proof.
  assert (forall u u' po po' k,
             Blank po -> Blank po' -> u = u' ++ k -> po' = k ++ po ->
             (forall e p, e ∈ spaceEncodings -> u <> p ++ e) -> u = u') as Hone.
  { intros u u' po po' k Hpo Hpo' -> -> Hsuf.
    pose proof (Blank_cancel_r k po Hpo Hpo') as Hk.
    destruct k as [|b k]; [by rewrite app_nil_r|].
    destruct (Blank_last _ Hk) as (p & e & He & Heq); [done|].
    exfalso. apply (Hsuf e (u' ++ p) He). by rewrite Heq, app_assoc. }
  intros Hpost Hpost' Heq Hsuf Hsuf'.
  apply app_eq_inv in Heq as [(k & Ht & Hp)|(k & Ht & Hp)].
  - by apply (Hone t t' post post' k).
  - symmetry. by apply (Hone t' t post' post k).
Qed.

(** The trimmed text is unique. *)
Lemma trimmedOf_unique (s t t' : list ascii) :
  trimmedOf s t -> trimmedOf s t' -> t = t'.
Proof.
  assert (forall s0 t0, trimmedOf s0 [] -> trimmedOf s0 t0 -> t0 = []) as Hnil.
  { clear. intros s0 t0 (pre & post & -> & Hpre & Hpost & _)
           (pre' & post' & Heq & Hpre' & Hpost' & Hp' & _).
    destruct t0 as [|b t0]; [done|]. exfalso.
    assert (Blank (pre' ++ (b :: t0) ++ post')) as Hall
      by (rewrite <- Heq; apply Blank_app; [done|exact Hpost]).
    apply Blank_cancel_l in Hall; [|done].
    inversion Hall as [|e l He Hl Hel].
    by apply (noPrefix_app (b :: t0) post' ltac:(done) Hp' Hpost' e l He). }
  intros Ht Ht'.
  destruct t as [|b t]; [symmetry; by apply (Hnil s)|].
  destruct t' as [|b' t']; [by apply (Hnil s)|].
  destruct Ht as (pre & post & -> & Hpre & Hpost & Hp & Hs).
  destruct Ht' as (pre' & post' & Heq & Hpre' & Hpost' & Hp' & Hs').
  apply trimmed_left_unique in Heq; [|done|done|by apply noPrefix_app..].
  by apply (trimmed_right_unique _ _ post post').
Qed.

End Unique.

(** C9. After a successful log fetch the logs pane shows the text that
    remains of the raw bytes once every carriage return is removed and the
    white space at both ends is trimmed, byte for byte (there is one such
    text), or exactly "(no logs)" when nothing remains, as is the case for
    raw content made of white space only. *)
Theorem showForRow_logs pf (row : Z) (a : App) (w : World)
        (c : ContainerSummary.t) (raw : list ascii) (r : result ContainerState.t) :
  1 <= row <= float64.maxInt64 ->
  containers a !! Z.to_nat (row - 1) = Some c ->
  inspected (client.ContainerInspect (cli a) (length (issued w)) (ContainerSummary.ID c))
    = Some r ->
  client.ContainerLogs (cli a) (S (length (issued w))) (ContainerSummary.ID c) tail5
    = Ok (Ok raw) ->
  exists a' w' text,
    showForRow pf row (a, w) = Some (a', w')
    /\ trimmedOf (List.filter (fun c => negb (Ascii.eqb c CR)) raw) text
    /\ (forall t, trimmedOf (List.filter (fun c => negb (Ascii.eqb c CR)) raw) t ->
                  t = text)
    /\ logs a' = match text with
                 | [] => "(no logs)"
                 | _ => string_of_list_ascii text
                 end
    /\ (Blank raw -> logs a' = "(no logs)").
Proof.
  intros Hrow Hc Hr Hlogs.
  set (text := trim.TrimSpaceBytes (List.filter (fun c => negb (Ascii.eqb c CR)) raw)).
  assert (logText raw = string_of_list_ascii text) as Htext.
  { unfold logText, strings.TrimSpace.
    by rewrite list_ascii_of_string_of_list_ascii. }
  eexists _, _, text. split; [by apply (showForRow_answered pf row a w c r)|].
  split; [apply TrimSpaceBytes_trimmed|].
  split; [intros t Ht; apply (trimmedOf_unique _ _ _ Ht), TrimSpaceBytes_trimmed|].
  rewrite Hlogs. cbn [logs setLogs logsPane]. unfold logsShown. rewrite Htext.
  split.
  - by destruct text.
  - intros Hblank. subst text.
    by rewrite (TrimSpaceBytes_Blank _ (Blank_removeCR raw Hblank)).
Qed.

Lemma showForRow_logs_witness :
  exists a' w',
    showForRow samplePlatform 1
      (sampleApp (sampleClient (Err "down") (Err "down")
                    (Ok (Ok (map ascii_of_N [32; 194; 160; 104; 105; 13; 10; 9]%N)))),
       sampleWorld) = Some (a', w')
    /\ logs a' = "hi"
    /\ trimmedOf (map ascii_of_N [32; 194; 160; 104; 105; 10; 9]%N)
                 (list_ascii_of_string "hi").
Proof.
  assert (1 <= 1 <= float64.maxInt64) as Hrow by done.
  destruct (showForRow_logs samplePlatform 1
              (sampleApp (sampleClient (Err "down") (Err "down")
                    (Ok (Ok (map ascii_of_N [32; 194; 160; 104; 105; 13; 10; 9]%N)))))
              sampleWorld sampleSummary
              (map ascii_of_N [32; 194; 160; 104; 105; 13; 10; 9]%N) (Err "down")
              Hrow eq_refl eq_refl eq_refl)
    as (a' & w' & text & Hshow & Htrim & _ & Hl & _).
  assert (logs a' = "hi") as Hhi.
  { vm_compute in Hshow. by injection Hshow as <- _. }
  exists a', w'. split; [exact Hshow|]. split; [exact Hhi|].
  rewrite Hhi in Hl. destruct text as [|b text]; [discriminate Hl|].
  apply (f_equal list_ascii_of_string) in Hl.
  rewrite list_ascii_of_string_of_list_ascii in Hl. rewrite Hl. exact Htrim.
Defined.




(** ** Refresh *)

(** The loop over the records appends one summary per record, in order,
    writes cells, and touches nothing else. *)
Lemma addRows_spec pf (cs : list Container.t) (k : nat) (a : App) :
  let a' := foldl (fun a rc => addRow pf a rc.1 rc.2) a
                  (imap (fun r ctn => ((k + r)%nat, ctn)) cs) in
  a' = mkApp (stopped a) (table a') (details a) (logs a) (statusBar a) (cli a)
             (containers a ++ map (summaryOf pf) cs)
  /\ tview.selectedRow (table a') = tview.selectedRow (table a)
  /\ tview.selectedColumn (table a') = tview.selectedColumn (table a).
Proof.
  revert k a. induction cs as [|ctn cs IH]; intros k a; cbv zeta.
  - simpl. rewrite app_nil_r. by destruct a.
  - rewrite imap_cons. cbn [foldl fst snd].
    rewrite (imap_ext _ (fun r ctn => ((S k + r)%nat, ctn)))
      by (intros i x _; simpl; f_equal; lia).
    destruct (IH (S k) (addRow pf a (k + 0)%nat ctn)) as (Heq & Hr & Hc).
    remember (foldl _ _ _) as a' eqn:Ha'. clear Ha'.
    split; [|split].
    + rewrite Heq. cbn. rewrite <- app_assoc. done.
    + rewrite Hr. done.
    + rewrite Hc. done.
Qed.

Lemma imap_plain {A B} (f : nat -> A -> B) (l : list A) :
  imap f l = imap (fun r x => f (0 + r)%nat x) l.
Proof. by apply imap_ext. Qed.

(** After [Clear] and the header loop the table holds the five header
    cells of row 0 and nothing else. *)
Lemma setHeaders_cells (t : tview.Table) :
  tview.cells (setHeaders (tview.Clear t)) =
    <[(0, 4) := headerCell "Ports"]>
      (<[(0, 3) := headerCell "Status"]>
         (<[(0, 2) := headerCell "State"]>
            (<[(0, 1) := headerCell "Image"]>
               (<[(0, 0) := headerCell "Name"]> ∅)))).
Proof. reflexivity. Qed.

Lemma setHeaders_row0 (t : tview.Table) (row column : Z) (c : tview.TableCell) :
  tview.cells (setHeaders (tview.Clear t)) !! (row, column) = Some c ->
  row = 0 /\ 0 <= column < 5.
Proof.
  rewrite setHeaders_cells. intros H.
  repeat (apply lookup_insert_Some in H as [[Hk _]|[_ H]];
          [injection Hk as <- <-; done|]).
  by rewrite lookup_empty in H.
Qed.

Lemma addRows_table pf (cs : list Container.t) (k : nat) (a : App) :
  table (foldl (fun a rc => addRow pf a rc.1 rc.2) a
               (imap (fun r ctn => ((k + r)%nat, ctn)) cs))
  = rowsFrom pf k cs (table a).
Proof.
  unfold rowsFrom. revert k a. induction cs as [|ctn cs IH]; intros k a; [done|].
  rewrite !imap_cons. cbn [foldl fst snd].
  rewrite (imap_ext _ (fun r ctn => ((S k + r)%nat, ctn)))
    by (intros i x _; simpl; f_equal; lia).
  rewrite IH. done.
Qed.

(** [refresh] after a list call that succeeded, in one equation. *)
Lemma refresh_ok pf (a : App) (w : World) (cs : list Container.t) :
  client.ContainerList (cli a) (length (issued w)) (ListOptions.mk true) = Ok cs ->
  let sorted := sort.SliceStable lessContainer cs in
  let status :=
    Format_clock pf (Now pf (readings w)) ++ "[green]Refreshed. "
      ++ fmt.d (len cs) ++ " containers." in
  let w1 := mkWorld (issued w ++ [CallContainerList (ListOptions.mk true)])
                    (S (readings w)) in
  let t := rowsFrom pf 0 sorted (setHeaders (tview.Clear (table a))) in
  refresh pf (a, w) =
    match sorted with
    | [] =>
        Some ((mkApp (stopped a) t "No containers found." "" status (cli a) [], w1),
              None)
    | top :: _ =>
        let a1 := mkApp (stopped a) (tview.Select 1 0 t) (details a) (logs a) status
                        (cli a) (map (summaryOf pf) sorted) in
        let id := Container.ID top in
        let ins := client.ContainerInspect (cli a) (S (length (issued w))) id in
        let fetched :=
          client.ContainerLogs (cli a) (S (S (length (issued w)))) id tail5 in
        r ← inspected ins;
        Some ((setLogs (logsPane fetched)
                 (setDetails
                    (detailsPane pf (summaryOf pf top) r (Now pf (S (readings w)))) a1),
               worldAfterShow pf id r w1), None)
    end.
Proof.
  intros Hlist sorted status w1 t.
  assert (length sorted = length cs) as Hlen by apply SliceStable_length.
  unfold refresh. rewrite Hlist. fold sorted.
  rewrite (imap_plain (fun r ctn => (r, ctn))).
  set (a0 := setTable (setHeaders (table (setTable (tview.Clear (table (setContainers [] a)))
                                                  (setContainers [] a))))
               (setTable (tview.Clear (table (setContainers [] a))) (setContainers [] a))).
  pose proof (addRows_spec pf sorted 0 a0) as (Heq & _ & _).
  pose proof (addRows_table pf sorted 0 a0) as Ht.
  cbv zeta in Heq.
  remember (foldl _ _ _) as a2 eqn:Ha2.
  destruct a2 as [st2 t2 d2 l2 sb2 cl2 cs2].
  cbn [stopped details logs statusBar cli containers setTable setContainers table a0] in Heq, Ht.
  injection Heq as -> -> -> -> -> ->. fold t in Ht. subst t2.
  unfold setStatus, tick, issue. cbn [containers table issued readings].
  replace (len (map (summaryOf pf) sorted)) with (len cs)
    by (unfold len; by rewrite length_map, Hlen).
  fold status. fold w1.
  destruct sorted as [|top rest] eqn:Hs.
  - assert ((0 <? len cs) = false) as ->.
    { apply Z.ltb_ge. unfold len. destruct cs; [done|simpl in Hlen; lia]. }
    reflexivity.
  - assert ((0 <? len cs) = true) as ->.
    { apply Z.ltb_lt. unfold len. destruct cs; [simpl in Hlen; lia|simpl; lia]. }
    cbn [setTable stopped details logs statusBar cli containers table].
    rewrite (showForRow_selected pf 1 _ w1 (summaryOf pf top)); [|done|done].
    cbn [cli issued w1 readings ContainerSummary.ID summaryOf].
    rewrite length_app. cbn [length]. rewrite Nat.add_1_r.
    by destruct (inspected _).
Qed.

(** The cells of the rows written by the loop of [refresh]. *)
Lemma rowsFrom_cells pf (cs : list Container.t) (k : nat) (t : tview.Table) :
  (forall (i : nat) ctn col,
      cs !! i = Some ctn -> 0 <= col < 5 ->
      tview.cells (rowsFrom pf k cs t) !! (Z.of_nat (k + i) + 1, col)
      = Some (cell (column (summaryOf pf ctn) col)))
  /\ (forall row col,
        row <= Z.of_nat k \/ Z.of_nat (k + length cs) < row \/ col < 0 \/ 5 <= col ->
        tview.cells (rowsFrom pf k cs t) !! (row, col) = tview.cells t !! (row, col))
  /\ tview.selectedRow (rowsFrom pf k cs t) = tview.selectedRow t
  /\ tview.selectedColumn (rowsFrom pf k cs t) = tview.selectedColumn t.
Proof.
  unfold rowsFrom. revert k t. induction cs as [|ctn cs IH]; intros k t.
  - split; [intros i c col H; by rewrite lookup_nil in H|done].
  - rewrite imap_cons. cbn [foldl fst snd].
    rewrite (imap_ext _ (fun r ctn => ((S k + r)%nat, ctn)))
      by (intros i x _; simpl; f_equal; lia).
    destruct (IH (S k) (rowCells pf (k + 0) ctn t)) as (Hin & Hout & Hr & Hc).
    replace (k + 0)%nat with k in * by lia.
    assert (forall row col,
               tview.cells (rowCells pf k ctn t) !! (row, col) =
                 if (row =? Z.of_nat k + 1) && (0 <=? col) && (col <? 5)
                 then Some (cell (column (summaryOf pf ctn) col))
                 else tview.cells t !! (row, col)) as Hrow.
    { intros row col. unfold rowCells. cbn [tview.cells tview.SetCell].
      destruct (Z.eqb_spec row (Z.of_nat k + 1)) as [->|Hne]; cbn [andb].
      - destruct (Z.leb_spec 0 col), (Z.ltb_spec col 5); cbn [andb];
          try (rewrite !lookup_insert_ne by (intros [= ?]; lia); done).
        assert (col = 0 \/ col = 1 \/ col = 2 \/ col = 3 \/ col = 4) as Hcol by lia.
        destruct Hcol as [->|[->|[->|[->| ->]]]]; cbn [column Z.eqb];
          repeat (rewrite lookup_insert_ne by (intros [= ?]; lia));
          by rewrite lookup_insert_eq.
      - rewrite !lookup_insert_ne by (intros [= ?]; lia). done. }
    split; [|split; [|split]].
    + intros [|i] c col Hc' Hcol.
      * injection Hc' as <-. rewrite Hout by lia. rewrite Hrow.
        replace (k + 0)%nat with k by lia. rewrite Z.eqb_refl.
        destruct (Z.leb_spec 0 col), (Z.ltb_spec col 5); try lia. done.
      * cbn in Hc'. replace (k + S i)%nat with (S k + i)%nat by lia. by apply Hin.
    + intros row col Hcase. rewrite Hout by (cbn [length] in Hcase; lia).
      rewrite Hrow.
      destruct (Z.eqb_spec row (Z.of_nat k + 1)), (Z.leb_spec 0 col), (Z.ltb_spec col 5);
        cbn [andb]; try done. cbn [length] in Hcase. lia.
    + rewrite Hr. done.
    + rewrite Hc. done.
Qed.

(** The rows are written the same way whatever the selection is. *)
Lemma rowsFrom_Select pf (cs : list Container.t) (k : nat) (t : tview.Table) (r c : Z) :
  rowsFrom pf k cs (tview.Select r c t) = tview.Select r c (rowsFrom pf k cs t).
Proof.
  unfold rowsFrom. revert k t. induction cs as [|ctn cs IH]; intros k t; [done|].
  rewrite imap_cons. cbn [foldl fst snd].
  rewrite (imap_ext _ (fun r ctn => ((S k + r)%nat, ctn)))
    by (intros i x _; simpl; f_equal; lia).
  rewrite <- IH. done.
Qed.

(** The list and the cells after a refresh that returned no error. *)
Lemma refresh_cells pf (a a' : App) (w w' : World) :
  refresh pf (a, w) = Some ((a', w'), None) ->
  exists l : list Container.t,
    containers a' = map (summaryOf pf) l
    /\ tview.cells (table a')
       = tview.cells (rowsFrom pf 0 l (setHeaders (tview.Clear (table a)))).
Proof.
  intros Href.
  destruct (client.ContainerList (cli a) (length (issued w)) (ListOptions.mk true))
    as [cs|err] eqn:Hlist; [|unfold refresh in Href; by rewrite Hlist in Href].
  pose proof (refresh_ok pf a w cs Hlist) as Hok. cbv zeta in Hok.
  exists (sort.SliceStable lessContainer cs).
  rewrite Hok in Href.
  destruct (sort.SliceStable lessContainer cs) as [|top rest];
    [by injection Href as <- _|].
  destruct (inspected _); [|done]. by injection Href as <- _.
Qed.

(** C2. When the inspection answers with a state whose start timestamp
    does not parse, [parseTime] gives the zero time and [showForRow]
    returns: the detail text is the five lines of name, identifier, image,
    state and status, with nothing about the start time -- neither a line
    nor a placeholder is written for it --, the clock is not read, and the
    log request is issued as usual.  A refresh whose first row gets such an
    answer returns without an error, with that detail text. *)
Theorem showForRow_unparsed pf (row : Z) (a : App) (w : World)
        (c : ContainerSummary.t) (ins : ContainerJSON.t) (state : ContainerState.t)
        (err : error) :
  1 <= row <= float64.maxInt64 ->
  containers a !! Z.to_nat (row - 1) = Some c ->
  client.ContainerInspect (cli a) (length (issued w)) (ContainerSummary.ID c) = Ok ins ->
  ContainerJSON.State ins = Some state ->
  Parse_RFC3339Nano pf (ContainerState.StartedAt state) = Err err ->
  let id := ContainerSummary.ID c in
  parseTime pf (ContainerState.StartedAt state) = time.zero
  /\ (exists a' w',
        showForRow pf row (a, w) = Some (a', w')
        /\ details a' = detailHead c (ContainerState.Status state)
        /\ readings w' = readings w
        /\ issued w' =
             (issued w ++ [CallContainerInspect id; CallContainerLogs id tail5])%list)
  /\ (forall a0 w0 cs top ins0 state0 err0,
        client.ContainerList (cli a0) (length (issued w0)) (ListOptions.mk true) = Ok cs ->
        head (sort.SliceStable lessContainer cs) = Some top ->
        client.ContainerInspect (cli a0) (S (length (issued w0))) (Container.ID top)
          = Ok ins0 ->
        ContainerJSON.State ins0 = Some state0 ->
        Parse_RFC3339Nano pf (ContainerState.StartedAt state0) = Err err0 ->
        exists a' w',
          refresh pf (a0, w0) = Some ((a', w'), None)
          /\ details a' = detailHead (summaryOf pf top) (ContainerState.Status state0)).
Proof.
  intros Hrow Hc Hins Hstate Hparse id.
  assert (forall s e, Parse_RFC3339Nano pf (ContainerState.StartedAt s) = Err e ->
            parseTime pf (ContainerState.StartedAt s) = time.zero) as Hzero.
  { intros s e H. unfold parseTime. by rewrite H. }
  split; [by apply (Hzero state err)|]. split.
  - eexists _, _. split.
    { apply (showForRow_answered pf row a w c (Ok state)); [done|done|].
      rewrite Hins. unfold inspected. by rewrite Hstate. }
    cbn [details setLogs setDetails worldAfterShow readings issued].
    unfold detailsPane, rendersStarted. rewrite (Hzero state err Hparse). done.
  - intros a0 w0 cs top ins0 state0 err0 Hlist Htop Hins0 Hstate0 Hparse0.
    pose proof (refresh_ok pf a0 w0 cs Hlist) as Hok. cbv zeta in Hok.
    destruct (sort.SliceStable lessContainer cs) as [|top' rest]; [done|].
    injection Htop as ->. rewrite Hins0 in Hok. unfold inspected in Hok.
    rewrite Hstate0 in Hok. eexists _, _. split; [exact Hok|].
    cbn [details setLogs setDetails].
    unfold detailsPane, rendersStarted. rewrite (Hzero state0 err0 Hparse0). done.
Qed.

Lemma showForRow_unparsed_witness :
  exists a' w',
    showForRow samplePlatform 1
      (sampleApp (sampleClient (Err "down") (sampleInspect "yesterday") (Err "down")),
       sampleWorld) = Some (a', w')
    /\ details a' = detailHead sampleSummary "running"
    /\ readings w' = 0%nat.
Proof.
  assert (1 <= 1 <= float64.maxInt64) as Hrow by done.
  destruct (showForRow_unparsed samplePlatform 1
              (sampleApp (sampleClient (Err "down") (sampleInspect "yesterday") (Err "down")))
              sampleWorld sampleSummary (sampleJSON "yesterday") (sampleState "yesterday")
              "cannot parse" Hrow eq_refl eq_refl eq_refl eq_refl)
    as (_ & (a' & w' & H & Hd & Hr & _) & _).
  exists a', w'. split; [exact H|]. split; [exact Hd|exact Hr].
Defined.

(** C2 as the specification words it, at the timestamp "yesterday", which
    does not parse: the detail text is resolved to no "not available"
    text.  It is the five lines below; nothing in it stands for the start
    time. *)
Lemma showForRow_unparsed_no_line :
  exists a' w',
    showForRow samplePlatform 1
      (sampleApp (sampleClient (Err "down") (sampleInspect "yesterday") (Err "down")),
       sampleWorld) = Some (a', w')
    /\ details a' =
         "[::b]Name:[-] b" ++ nl ++ "[::b]ID:[-] id-b" ++ nl
           ++ "[::b]Image:[-] nginx" ++ nl ++ "[::b]State:[-] running" ++ nl
           ++ "[::b]Status:[-] Up 2 hours" ++ nl
    /\ String.index 0 "Started" (details a') = None
    /\ String.index 0 "not available" (details a') = None
    /\ String.index 0 "yesterday" (details a') = None.
Proof.
  eexists _, _. split; [reflexivity|]. repeat split.
Qed.

(** C5. After a successful refresh of a non-empty list the first data row
    is selected and [showForRow(1)] runs on the rebuilt state: the
    inspection and the log fetch of the first summary are issued and fill
    the panes, whenever the inspection answers with an error or with a
    state; the refresh panics with [showForRow] when the answer carries no
    state.  For an empty list the details pane says "No containers found.",
    the logs pane is empty, the table holds the header row only, and no
    call but the list call is issued. *)
Theorem refresh_success pf (a : App) (w : World) (cs : list Container.t) :
  client.ContainerList (cli a) (length (issued w)) (ListOptions.mk true) = Ok cs ->
  let sorted := sort.SliceStable lessContainer cs in
  let status :=
    Format_clock pf (Now pf (readings w)) ++ "[green]Refreshed. "
      ++ fmt.d (len cs) ++ " containers." in
  let w1 := mkWorld (issued w ++ [CallContainerList (ListOptions.mk true)])
                    (S (readings w)) in
  (cs = [] ->
     refresh pf (a, w) =
       Some ((mkApp (stopped a) (setHeaders (tview.Clear (table a)))
                    "No containers found." "" status (cli a) [], w1), None))
  /\ (cs <> [] ->
      exists (top : Container.t) (t : tview.Table),
        sorted !! 0%nat = Some top
        /\ tview.selectedRow t = 1 /\ tview.selectedColumn t = 0
        /\ let a1 := mkApp (stopped a) t (details a) (logs a) status (cli a)
                           (map (summaryOf pf) sorted) in
           let id := Container.ID top in
           let ins := client.ContainerInspect (cli a) (S (length (issued w))) id in
           let fetched :=
             client.ContainerLogs (cli a) (S (S (length (issued w)))) id tail5 in
           refresh pf (a, w) = (aw' ← showForRow pf 1 (a1, w1); Some (aw', None))
           /\ (forall r, inspected ins = Some r ->
               refresh pf (a, w) =
                 Some ((setLogs (logsPane fetched)
                          (setDetails
                             (detailsPane pf (summaryOf pf top) r
                                (Now pf (S (readings w)))) a1),
                        worldAfterShow pf id r w1), None))
           /\ (inspected ins = None -> refresh pf (a, w) = None)).
Proof.
  intros Hlist sorted status w1.
  assert (length sorted = length cs) as Hlen by apply SliceStable_length.
  unfold refresh. rewrite Hlist. fold sorted.
  rewrite (imap_plain (fun r ctn => (r, ctn))).
  pose proof (addRows_spec pf sorted 0
                (setTable (setHeaders (table (setTable (tview.Clear (table (setContainers [] a)))
                                                (setContainers [] a))))
                   (setTable (tview.Clear (table (setContainers [] a))) (setContainers [] a))))
    as (Heq & _ & _).
  cbv zeta in Heq.
  remember (foldl _ _ _) as a2 eqn:Ha2.
  destruct a2 as [st2 t2 d2 l2 sb2 cl2 cs2].
  cbn [stopped details logs statusBar cli containers setTable setContainers table app] in Heq.
  injection Heq as -> -> -> -> -> ->.
  unfold setStatus, tick, issue. cbn [containers table issued readings].
  replace (len (map (summaryOf pf) sorted)) with (len cs)
    by (unfold len; by rewrite length_map, Hlen).
  fold status. fold w1.
  split.
  - intros ->. subst sorted. cbn in Ha2. injection Ha2 as ->.
    reflexivity.
  - intros Hne.
    assert ((0 <? len cs) = true) as ->.
    { apply Z.ltb_lt. unfold len. destruct cs; [done|simpl; lia]. }
    destruct sorted as [|top rest] eqn:Hs; [destruct cs; [done|simpl in Hlen; lia]|].
    exists top, (tview.Select 1 0 t2).
    split; [done|]. split; [done|]. split; [done|].
    cbv zeta. cbn [setTable stopped details logs statusBar cli containers table].
    split; [done|].
    rewrite (showForRow_selected pf 1 _ w1 (summaryOf pf top)); [|done|done].
    cbn [cli issued w1 readings ContainerSummary.ID summaryOf].
    rewrite length_app. cbn [length]. rewrite Nat.add_1_r.
    split; [intros r Hr|intros Hr]; cbn [cli setTable]; rewrite Hr; done.
Qed.

Lemma refresh_success_witness :
  let listed :=
    [Container.mk "id-a" ["/a"] "redis" "exited" "Exited (0) 3 hours ago" [];
     Container.mk "id-b" ["/b"] "nginx" "running" "Up 2 hours"
                  [Port.mk "" 80 8080 "tcp"]] in
  exists a' w',
    refresh samplePlatform
      (sampleApp (sampleClient (Ok listed) (sampleInspect "past")
                               (Ok (Ok (list_ascii_of_string "ready")))),
       sampleWorld) = Some ((a', w'), None)
    /\ map ContainerSummary.Name (containers a') = ["b"; "a"]
    /\ issued w' = [CallContainerList (ListOptions.mk true);
                    CallContainerInspect "id-b";
                    CallContainerLogs "id-b" tail5]
    /\ logs a' = "ready".
Proof.
  intros listed.
  destruct (refresh_success samplePlatform
              (sampleApp (sampleClient (Ok listed) (sampleInspect "past")
                                       (Ok (Ok (list_ascii_of_string "ready")))))
              sampleWorld listed eq_refl) as [_ H].
  destruct (H ltac:(done)) as (top & t & Htop & _ & _ & _ & Href & _).
  vm_compute in Htop. injection Htop as <-.
  eexists _, _. split; [exact (Href (Ok (sampleState "past")) eq_refl)|].
  split; [vm_compute; reflexivity|]. split; vm_compute; reflexivity.
Defined.

(** C3. When the list call fails, [refresh] returns the error and leaves
    the controller as it was: the summary list, the table and both panes
    keep their contents.  The key handler, and [main] on the first load,
    then write the failure to the status line and to nothing else. *)
Theorem refresh_list_error pf (a : App) (w : World) (err : error) :
  client.ContainerList (cli a) (length (issued w)) (ListOptions.mk true) = Err err ->
  let called := (issued w ++ [CallContainerList (ListOptions.mk true)])%list in
  let failed (t : tview.Table) (msg : string) :=
    (mkApp (stopped a) t (details a) (logs a)
           (Format_clock pf (Now pf (readings w)) ++ msg) (cli a) (containers a),
     mkWorld called (S (readings w))) in
  refresh pf (a, w) = Some ((a, mkWorld called (readings w)), Some err)
  /\ (forall rune, rune = 114 \/ rune = 82 ->
        inputCapture pf rune (a, w) =
          Some (failed (table a) ("[red]Refresh error: " ++ err), false))
  /\ startup pf (a, w) =
       Some (failed (setHeaders (table a)) ("[red]Error loading containers: " ++ err)).
Proof.
  intros Hlist called failed.
  assert (forall t, refresh pf (setTable t a, w)
                    = Some ((setTable t a, mkWorld called (readings w)), Some err)) as Href.
  { intros t. unfold refresh. cbn [cli setTable]. by rewrite Hlist. }
  split; [|split].
  - specialize (Href (table a)). by destruct a.
  - specialize (Href (table a)).
    replace (setTable (table a) a) with a in Href by (by destruct a).
    intros rune [-> | ->]; unfold inputCapture; cbn [Z.eqb Pos.eqb orb];
      rewrite Href; reflexivity.
  - unfold startup, setupUI. rewrite Href. reflexivity.
Qed.

Lemma refresh_list_error_witness :
  let a := sampleApp (sampleClient (Err "daemon unreachable") (Err "down") (Err "down")) in
  refresh samplePlatform (a, sampleWorld) =
    Some ((a, mkWorld [CallContainerList (ListOptions.mk true)] 0),
          Some "daemon unreachable").
Proof.
  intros a.
  destruct (refresh_list_error samplePlatform a sampleWorld "daemon unreachable" eq_refl)
    as [H _].
  exact H.
Defined.

(** ** The comparison of [refresh] *)

Lemma ascii_compare_trans (a b c : ascii) :
  Ascii.compare a b = Lt -> Ascii.compare b c = Lt -> Ascii.compare a c = Lt.
Proof.
  unfold Ascii.compare. rewrite !N.compare_lt_iff. lia.
Qed.

Lemma string_compare_refl (s : string) : String.compare s s = Eq.
Proof.
  induction s as [|c s IH]; [done|]. cbn [String.compare].
  unfold Ascii.compare. by rewrite N.compare_refl.
Qed.

Lemma string_compare_trans (s1 s2 s3 : string) :
  String.compare s1 s2 = Lt -> String.compare s2 s3 = Lt -> String.compare s1 s3 = Lt.
Proof.
  revert s2 s3. induction s1 as [|a s1 IH]; intros [|b s2] [|c s3]; cbn [String.compare];
    try done.
  destruct (Ascii.compare a b) eqn:Hab; [|intros _|done].
  - apply Ascii.compare_eq_iff in Hab as ->.
    destruct (Ascii.compare b c); [apply IH|done|done].
  - destruct (Ascii.compare b c) eqn:Hbc; [|intros _|done].
    + apply Ascii.compare_eq_iff in Hbc as <-. by rewrite Hab.
    + by rewrite (ascii_compare_trans a b c).
Qed.

Lemma string_ltb_irrefl (s : string) : String.ltb s s = false.
Proof. unfold String.ltb. by rewrite string_compare_refl. Qed.

Lemma string_ltb_trans (s1 s2 s3 : string) :
  String.ltb s1 s2 = true -> String.ltb s2 s3 = true -> String.ltb s1 s3 = true.
Proof.
  unfold String.ltb.
  destruct (String.compare s1 s2) eqn:H12; try done.
  destruct (String.compare s2 s3) eqn:H23; try done.
  by rewrite (string_compare_trans s1 s2 s3).
Qed.

(** The comparison is irreflexive and transitive. *)
Lemma lessContainer_irrefl (c : Container.t) : lessContainer c c = false.
Proof.
  unfold lessContainer. rewrite String.eqb_refl. simpl. apply string_ltb_irrefl.
Qed.

Lemma lessContainer_trans (x y z : Container.t) :
  lessContainer x y = true -> lessContainer y z = true -> lessContainer x z = true.
Proof.
  unfold lessContainer. intros Hxy Hyz.
  destruct (String.eqb_spec (Container.State x) (Container.State y)) as [Exy|Nxy];
    destruct (String.eqb_spec (Container.State y) (Container.State z)) as [Eyz|Nyz];
    cbn [negb] in *.
  - rewrite Exy, Eyz, String.eqb_refl. cbn [negb].
    by apply (string_ltb_trans _ _ _ Hxy Hyz).
  - apply String.eqb_eq in Hyz.
    destruct (String.eqb_spec (Container.State x) (Container.State z)) as [Exz|Nxz];
      [congruence|]. cbn [negb]. apply String.eqb_eq. congruence.
  - destruct (String.eqb_spec (Container.State x) (Container.State z)) as [Exz|Nxz];
      [congruence|]. done.
  - apply String.eqb_eq in Hxy, Hyz. congruence.
Qed.

(** Being incomparable is not transitive once two states other than
    "running" occur, which [sort.SliceStable] requires of its comparison:
    "z" (exited) and "m" (paused) are incomparable, so are "m" and "a"
    (exited), yet "a" sorts before "z". *)
Lemma lessContainer_incomparable :
  let z := Container.mk "id-z" ["/z"] "redis" "exited" "" [] in
  let m := Container.mk "id-m" ["/m"] "nginx" "paused" "" [] in
  let a := Container.mk "id-a" ["/a"] "redis" "exited" "" [] in
  lessContainer z m = false /\ lessContainer m z = false
  /\ lessContainer m a = false /\ lessContainer a m = false
  /\ lessContainer a z = true.
Proof. repeat split. Qed.

(** The summary list of a refresh that returned holds the summaries of
    the records of the daemon, rearranged: the count is preserved. *)
Lemma refresh_returned pf (a a' : App) (w w' : World) (cs : list Container.t)
      (e : option error) :
  client.ContainerList (cli a) (length (issued w)) (ListOptions.mk true) = Ok cs ->
  refresh pf (a, w) = Some ((a', w'), e) ->
  e = None
  /\ containers a' = map (summaryOf pf) (sort.SliceStable lessContainer cs)
  /\ containers a' ≡ₚ map (summaryOf pf) cs
  /\ length (containers a') = length cs.
Proof.
  intros Hlist Href.
  pose proof (refresh_ok pf a w cs Hlist) as Hok. cbv zeta in Hok.
  rewrite Hok in Href. clear Hok.
  pose proof (SliceStable_perm lessContainer cs) as Hperm.
  pose proof (SliceStable_length lessContainer cs) as Hlen.
  destruct (sort.SliceStable lessContainer cs) as [|top rest].
  - injection Href as <- <- <-. cbn [containers].
    split; [done|]. split; [done|]. split; [by rewrite <- Hperm|by rewrite <- Hlen].
  - destruct (inspected _); [|done]. injection Href as <- <- <-.
    cbn [containers setLogs setDetails].
    split; [done|]. split; [done|]. split.
    + change (map (summaryOf pf) (top :: rest) ≡ₚ map (summaryOf pf) cs).
      by rewrite Hperm.
    + change (length (map (summaryOf pf) (top :: rest)) = length cs).
      by rewrite length_map, Hlen.
Qed.

(** A refresh returns without an error when the list call succeeds and the
    inspection for the first row answers with an error or with a state. *)
Lemma refresh_summaries pf (a : App) (w : World) (cs : list Container.t) :
  client.ContainerList (cli a) (length (issued w)) (ListOptions.mk true) = Ok cs ->
  firstRowAnswered a w cs ->
  exists a' w',
    refresh pf (a, w) = Some ((a', w'), None)
    /\ containers a' = map (summaryOf pf) (sort.SliceStable lessContainer cs)
    /\ containers a' ≡ₚ map (summaryOf pf) cs
    /\ length (containers a') = length cs.
Proof.
  intros Hlist Hans.
  assert (exists a' w', refresh pf (a, w) = Some ((a', w'), None)) as (a' & w' & Href).
  { pose proof (refresh_ok pf a w cs Hlist) as Hok. cbv zeta in Hok.
    unfold firstRowAnswered in Hans.
    destruct (sort.SliceStable lessContainer cs) as [|top rest]; [by eexists _, _|].
    destruct (Hans top eq_refl) as [r Hr]. rewrite Hr in Hok. by eexists _, _. }
  exists a', w'. split; [done|].
  by destruct (refresh_returned pf a a' w w' cs None Hlist Href) as (_ & ?).
Qed.

(** C1, on a list with two states that are not running.  The daemon lists
    "z" (exited), "m" (paused), "a" (exited).  The comparison of [refresh]
    answers false for "m" against "z" and for "a" against "m", the states
    differing and neither being running, so the insertion pass of
    [sort.SliceStable] moves nothing: the summaries stay in the order z, m, a,
    and the two exited records are not in ascending order of name. *)
Theorem refresh_mixed_states :
  let listed :=
    [Container.mk "id-z" ["/z"] "redis" "exited" "Exited (0) 2 hours ago" [];
     Container.mk "id-m" ["/m"] "nginx" "paused" "Up 3 hours (Paused)" [];
     Container.mk "id-a" ["/a"] "redis" "exited" "Exited (0) 5 hours ago" []] in
  sort.SliceStable lessContainer listed = listed
  /\ exists a' w',
       refresh samplePlatform
         (sampleApp (sampleClient (Ok listed) (Err "down") (Err "down")), sampleWorld)
         = Some ((a', w'), None)
       /\ map (fun c => (ContainerSummary.Name c, ContainerSummary.State c))
              (containers a')
            = [("z", "exited"); ("m", "paused"); ("a", "exited")]
       /\ length (containers a') = length listed
       /\ runningFirst (containers a')
       /\ ~ nameAscending (containers a').
Proof.
  intros listed. split; [vm_compute; reflexivity|].
  destruct (refresh_summaries samplePlatform
              (sampleApp (sampleClient (Ok listed) (Err "down") (Err "down")))
              sampleWorld listed eq_refl ltac:(intros top _; by eexists))
    as (a' & w' & Href & Hcs & _ & Hlen).
  exists a', w'. split; [done|].
  assert (containers a' =
            [ContainerSummary.mk "id-z" "z" "redis" "exited" "Exited (0) 2 hours ago" "-";
             ContainerSummary.mk "id-m" "m" "nginx" "paused" "Up 3 hours (Paused)" "-";
             ContainerSummary.mk "id-a" "a" "redis" "exited" "Exited (0) 5 hours ago" "-"])
    as Hout by (rewrite Hcs; vm_compute; reflexivity).
  rewrite Hout. split; [reflexivity|]. split; [reflexivity|]. split.
  - intros i j x y Hij Hx Hy Hrun.
    destruct j as [|[|[|j]]]; simpl in Hy; try done;
      injection Hy as <-; discriminate Hrun.
  - intros Hasc.
    specialize (Hasc 0%nat 2%nat _ _ ltac:(lia) eq_refl eq_refl eq_refl).
    discriminate Hasc.
Qed.

(** * Further properties of the program *)

(** ** The selection handler *)

(** X1. [showForRow] writes the details pane and the logs pane and nothing
    else: the stop flag, the table, the status line, the client and the
    summary list are as before.  It issues either no call, or one
    inspection followed by one log request with the options of
    [fetchLogs(id, 5)], both for the same container of the list, and it
    reads the clock at most once. *)
Theorem showForRow_frame pf (row : Z) (a a' : App) (w w' : World) :
  showForRow pf row (a, w) = Some (a', w') ->
  stopped a' = stopped a /\ table a' = table a /\ statusBar a' = statusBar a
  /\ cli a' = cli a /\ containers a' = containers a
  /\ ((a' = a /\ w' = w)
      \/ exists c, c ∈ containers a
           /\ issued w' =
                (issued w ++ [CallContainerInspect (ContainerSummary.ID c);
                              CallContainerLogs (ContainerSummary.ID c) tail5])%list
           /\ (readings w <= readings w' <= S (readings w))%nat).
Proof.
  unfold showForRow.
  destruct ((wrap64 (row - 1) <? 0) || (len (containers a) <=? wrap64 (row - 1))).
  { intros [= <- <-]. repeat split; try done. by left. }
  destruct (containers a !! Z.to_nat (wrap64 (row - 1))) as [c|] eqn:Hc; [|done].
  cbn [mbind option_bind].
  assert (c ∈ containers a) as Hin by (by eapply list_elem_of_lookup_2).
  destruct (client.ContainerInspect _ _ _) as [ins|err];
    [destruct (ContainerJSON.State ins) as [state|]; [|done];
     cbn [mbind option_bind]; destruct (negb (time.IsZero _))|];
    cbn [mbind option_bind]; cbv beta iota zeta; rewrite fetchLogs_spec;
    destruct (client.ContainerLogs _ _ _ _) as [[raw|e]|e];
    cbv beta iota zeta; intros [= <- <-];
    (repeat split; try done; right; exists c; split; [done|];
     unfold issue, tick; cbn [issued readings]; rewrite <- app_assoc;
     split; [done|lia]).
Qed.

Lemma showForRow_frame_witness :
  exists a' w',
    showForRow samplePlatform 1
      (sampleApp (sampleClient (Err "down") (sampleInspect "past") (Err "down")),
       sampleWorld) = Some (a', w')
    /\ containers a' = [sampleSummary].
Proof.
  assert (1 <= 1 <= float64.maxInt64) as Hrow by done.
  pose proof (showForRow_answered samplePlatform 1
                (sampleApp (sampleClient (Err "down") (sampleInspect "past") (Err "down")))
                sampleWorld sampleSummary (Ok (sampleState "past")) Hrow eq_refl eq_refl)
    as H.
  eexists _, _. split; [exact H|].
  destruct (showForRow_frame samplePlatform 1 _ _ _ _ H) as (_ & _ & _ & _ & Hcs & _).
  exact Hcs.
Defined.

(** X2. When the inspection has answered with an error or with a state
    and the log request then fails, or reading its stream fails, the logs
    pane shows "[red]Logs error: " followed by the error, and the details
    pane is what the answer of the inspection alone determines. *)
Theorem showForRow_logs_error pf (row : Z) (a : App) (w : World)
        (c : ContainerSummary.t) (r : result ContainerState.t) (err : error) :
  let id := ContainerSummary.ID c in
  let fetched := client.ContainerLogs (cli a) (S (length (issued w))) id tail5 in
  1 <= row <= float64.maxInt64 ->
  containers a !! Z.to_nat (row - 1) = Some c ->
  inspected (client.ContainerInspect (cli a) (length (issued w)) id) = Some r ->
  fetched = Err err \/ fetched = Ok (Err err) ->
  exists a' w',
    showForRow pf row (a, w) = Some (a', w')
    /\ logs a' = "[red]Logs error: " ++ err
    /\ details a' = detailsPane pf c r (Now pf (readings w))
    /\ issued w' = (issued w ++ [CallContainerInspect id; CallContainerLogs id tail5])%list.
Proof.
  intros id fetched Hrow Hc Hr Hf.
  eexists _, _. split; [by apply (showForRow_answered pf row a w c r)|].
  fold id. fold fetched. cbn [logs details setLogs setDetails worldAfterShow issued].
  split; [|done]. by destruct Hf as [-> | ->].
Qed.

Lemma showForRow_logs_error_witness :
  exists a' w',
    showForRow samplePlatform 1
      (sampleApp (sampleClient (Err "down") (sampleInspect "bad") (Ok (Err "stream closed"))),
       sampleWorld) = Some (a', w')
    /\ logs a' = "[red]Logs error: stream closed"
    /\ details a' = detailHead sampleSummary "running".
Proof.
  assert (1 <= 1 <= float64.maxInt64) as Hrow by done.
  destruct (showForRow_logs_error samplePlatform 1
              (sampleApp (sampleClient (Err "down") (sampleInspect "bad")
                                       (Ok (Err "stream closed"))))
              sampleWorld sampleSummary (Ok (sampleState "bad")) "stream closed"
              Hrow eq_refl eq_refl (or_intror eq_refl))
    as (a' & w' & H & Hl & Hd & _).
  exists a', w'. split; [exact H|]. split; [exact Hl|exact Hd].
Defined.

(** X3. After a successful inspection the [Started] line is rendered
    exactly when the timestamp parses to an instant other than the zero
    time: a timestamp that parses to the zero time gives the five opening
    lines only and the clock is not read; any other parsed instant adds the
    line with its local RFC 1123 form and [since] at one clock reading. *)
Theorem showForRow_started pf (row : Z) (a : App) (w : World)
        (c : ContainerSummary.t) (ins : ContainerJSON.t) (state : ContainerState.t)
        (started : time.Time) :
  let head := detailHead c (ContainerState.Status state) in
  1 <= row <= float64.maxInt64 ->
  containers a !! Z.to_nat (row - 1) = Some c ->
  client.ContainerInspect (cli a) (length (issued w)) (ContainerSummary.ID c) = Ok ins ->
  ContainerJSON.State ins = Some state ->
  Parse_RFC3339Nano pf (ContainerState.StartedAt state) = Ok started ->
  exists a' w',
    showForRow pf row (a, w) = Some (a', w')
    /\ (started = time.zero -> details a' = head /\ readings w' = readings w)
    /\ (started <> time.zero ->
        details a' =
          head ++ "[::b]Started:[-] " ++ Format_Local_RFC1123 pf started
               ++ " (" ++ since (Now pf (readings w)) started ++ " ago)" ++ nl
        /\ readings w' = S (readings w)).
Proof.
  intros head Hrow Hc Hins Hstate Hparse.
  eexists _, _. split.
  { apply (showForRow_answered pf row a w c (Ok state)); [done|done|].
    rewrite Hins. unfold inspected. by rewrite Hstate. }
  cbn [details setLogs setDetails worldAfterShow readings].
  unfold detailsPane, rendersStarted, parseTime. rewrite Hparse. fold head.
  split.
  - intros ->. done.
  - intros Hne.
    assert (time.IsZero started = false) as ->.
    { unfold time.IsZero. destruct started as [s n]. cbn [time.sec time.nsec].
      destruct (Z.eqb_spec s 0) as [->|]; [|done].
      destruct (Z.eqb_spec n 0) as [->|]; [|done]. done. }
    done.
Qed.

Lemma showForRow_started_witness :
  exists a' w',
    showForRow samplePlatform 1
      (sampleApp (sampleClient (Err "down") (sampleInspect "past") (Err "down")),
       sampleWorld) = Some (a', w')
    /\ details a' =
         detailHead sampleSummary "running"
           ++ "[::b]Started:[-] T62999999000 (16 minutes ago)" ++ nl
    /\ readings w' = 1%nat.
Proof.
  assert (1 <= 1 <= float64.maxInt64) as Hrow by done.
  destruct (showForRow_started samplePlatform 1
              (sampleApp (sampleClient (Err "down") (sampleInspect "past") (Err "down")))
              sampleWorld sampleSummary (sampleJSON "past") (sampleState "past")
              (time.mkTime 62999999000 0) Hrow eq_refl eq_refl eq_refl eq_refl)
    as (a' & w' & H & _ & Hs).
  exists a', w'. split; [exact H|]. apply Hs. discriminate.
Defined.

(** ** The key handlers *)

(** A refresh that returns has kept the stop flag and the client, and the
    list request is the first call it issued. *)
Lemma refresh_frame pf (a a' : App) (w w' : World) (e : option error) :
  refresh pf (a, w) = Some ((a', w'), e) ->
  stopped a' = stopped a /\ cli a' = cli a
  /\ exists calls,
       issued w' = (issued w ++ CallContainerList (ListOptions.mk true) :: calls)%list.
Proof.
  intros Href.
  destruct (client.ContainerList (cli a) (length (issued w)) (ListOptions.mk true))
    as [cs|err] eqn:Hlist.
  - pose proof (refresh_ok pf a w cs Hlist) as Hok. cbv zeta in Hok.
    rewrite Hok in Href. clear Hok.
    destruct (sort.SliceStable lessContainer cs) as [|top rest].
    + injection Href as <- <- <-. split; [done|]. split; [done|]. by exists [].
    + destruct (inspected _) as [r|]; [|done]. injection Href as <- <- <-.
      cbn [stopped cli setLogs setDetails worldAfterShow issued].
      split; [done|]. split; [done|]. eexists. rewrite <- app_assoc. reflexivity.
  - unfold refresh in Href. rewrite Hlist in Href. injection Href as <- <- <-.
    split; [done|]. split; [done|]. by exists [].
Qed.

(** A refresh panics in one case only: the listing is not empty and the
    inspection for its first row answers without a state. *)
Lemma refresh_panics pf (a : App) (w : World) :
  refresh pf (a, w) = None <->
  exists cs top ins,
    client.ContainerList (cli a) (length (issued w)) (ListOptions.mk true) = Ok cs
    /\ head (sort.SliceStable lessContainer cs) = Some top
    /\ client.ContainerInspect (cli a) (S (length (issued w))) (Container.ID top) = Ok ins
    /\ ContainerJSON.State ins = None.
Proof.
  split.
  - intros Hnone.
    destruct (client.ContainerList (cli a) (length (issued w)) (ListOptions.mk true))
      as [cs|err] eqn:Hlist; [|unfold refresh in Hnone; by rewrite Hlist in Hnone].
    pose proof (refresh_ok pf a w cs Hlist) as Hok. cbv zeta in Hok.
    rewrite Hok in Hnone. clear Hok.
    destruct (sort.SliceStable lessContainer cs) as [|top rest] eqn:Hs; [done|].
    destruct (client.ContainerInspect _ _ _) as [ins|e] eqn:Hins; [|done].
    unfold inspected in Hnone.
    destruct (ContainerJSON.State ins) eqn:Hst; [done|].
    exists cs, top, ins. by rewrite Hs.
  - intros (cs & top & ins & Hlist & Htop & Hins & Hst).
    pose proof (refresh_ok pf a w cs Hlist) as Hok. cbv zeta in Hok.
    rewrite Hok. clear Hok.
    destruct (sort.SliceStable lessContainer cs) as [|top' rest]; [done|].
    injection Htop as ->. rewrite Hins. unfold inspected. by rewrite Hst.
Qed.

(** X4. The key handler of the table consumes exactly the runes q, Q, r
    and R; every other event is passed on with the state untouched and no
    call issued.  q and Q set the stop flag, as Escape does through the done
    handler, and issue no call.  On r and R the handler returns exactly
    when [refresh] does, with the stop flag and the client as they were and
    the list request as the first call issued; [refresh] panics in one case
    only, a non-empty listing whose first row gets an inspection answer
    without a state.  The stop flag is set by q, Q and Escape only, and is
    never cleared. *)
Theorem inputCapture_keys pf (rune : Z) (a : App) (w : World) :
  (handledRune rune = false -> inputCapture pf rune (a, w) = Some ((a, w), true))
  /\ (rune = 113 \/ rune = 81 ->
      inputCapture pf rune (a, w) = Some ((doneFunc 27 a, w), false))
  /\ (rune = 114 \/ rune = 82 ->
      (inputCapture pf rune (a, w) = None <-> refresh pf (a, w) = None)
      /\ forall a' w' passed,
           inputCapture pf rune (a, w) = Some ((a', w'), passed) ->
           cli a' = cli a
           /\ exists calls,
                issued w' =
                  (issued w ++ CallContainerList (ListOptions.mk true) :: calls)%list)
  /\ (forall a' w' passed,
        inputCapture pf rune (a, w) = Some ((a', w'), passed) ->
        passed = negb (handledRune rune)
        /\ stopped a' = stopped a || (rune =? 113) || (rune =? 81))
  /\ (refresh pf (a, w) = None <->
      exists cs top ins,
        client.ContainerList (cli a) (length (issued w)) (ListOptions.mk true) = Ok cs
        /\ head (sort.SliceStable lessContainer cs) = Some top
        /\ client.ContainerInspect (cli a) (S (length (issued w))) (Container.ID top)
           = Ok ins
        /\ ContainerJSON.State ins = None)
  /\ (forall key, stopped (doneFunc key a) = stopped a || (key =? 27)).
Proof.
  assert (forall key, stopped (doneFunc key a) = stopped a || (key =? 27)) as Hdone.
  { intros key. unfold doneFunc.
    destruct (key =? 27); cbn [stopped]; by rewrite ?orb_true_r, ?orb_false_r. }
  assert (rune = 114 \/ rune = 82 ->
          inputCapture pf rune (a, w) =
            match refresh pf (a, w) with
            | Some (aw, Some err) =>
                Some (setStatus pf ("[red]Refresh error: " ++ err) aw, false)
            | Some (aw, None) => Some (aw, false)
            | None => None
            end) as Hr.
  { intros [-> | ->]; unfold inputCapture; cbn [Z.eqb Pos.eqb orb];
      (destruct (refresh pf (a, w)) as [[aw [err|]]|]; done). }
  split; [|split; [|split; [|split; [|split; [apply refresh_panics|done]]]]].
  - unfold inputCapture, handledRune. intros H.
    apply orb_false_iff in H as [H H4]. apply orb_false_iff in H as [H H3].
    apply orb_false_iff in H as [H1 H2]. by rewrite H1, H2, H3, H4.
  - intros [-> | ->]; reflexivity.
  - intros H. rewrite (Hr H). split.
    + destruct (refresh pf (a, w)) as [[aw [err|]]|]; done.
    + intros a' w' passed.
      destruct (refresh pf (a, w)) as [[[a1 w1] e]|] eqn:Href; [|done].
      destruct (refresh_frame pf a a1 w w1 e Href) as (_ & Hcli & calls & Hiss).
      destruct e as [err|]; intros [= <- <- <-].
      * unfold setStatus. cbn [cli issued tick]. split; [done|]. by exists calls.
      * split; [done|]. by exists calls.
  - intros a' w' passed. unfold handledRune.
    destruct (Z.eqb_spec rune 113) as [->|H1].
    { intros [= <- <- <-]. cbn [stopped orb negb]. by rewrite orb_true_r. }
    destruct (Z.eqb_spec rune 81) as [->|H2].
    { intros [= <- <- <-]. cbn [stopped orb negb]. by rewrite orb_true_r. }
    cbn [orb]. rewrite !orb_false_r.
    destruct ((rune =? 114) || (rune =? 82)) eqn:Hrr.
    + assert (rune = 114 \/ rune = 82) as H.
      { apply orb_true_iff in Hrr as [E|E]; apply Z.eqb_eq in E; auto. }
      rewrite (Hr H).
      destruct (refresh pf (a, w)) as [[[a1 w1] e]|] eqn:Href; [|done].
      destruct (refresh_frame pf a a1 w w1 e Href) as (Hst & _).
      destruct e as [err|]; intros [= <- <- <-]; cbn [negb stopped setStatus]; done.
    + unfold inputCapture.
      replace ((rune =? 113) || (rune =? 81)) with false
        by (symmetry; apply orb_false_iff; split; by apply Z.eqb_neq).
      rewrite Hrr. intros [= <- <- <-]. done.
Qed.

(** ** The table and the list after a refresh *)

(** X5. After a refresh that returned no error, row [i + 1] of the table
    shows the summary of index [i] of the list: its name, image, state,
    status and ports in columns 0 to 4, in left-aligned, selectable cells
    of maximal width 0 and expansion 1.  Row 0 holds the five bold,
    centred, unselectable headers, and the table has no other cell:
    nothing of an earlier listing is left. *)
Theorem refresh_table pf (a a' : App) (w w' : World) :
  refresh pf (a, w) = Some ((a', w'), None) ->
  (forall (i : nat) c col,
      containers a' !! i = Some c -> 0 <= col < 5 ->
      tview.cells (table a') !! (Z.of_nat i + 1, col)
      = Some (tview.mkCell (column c col) tview.AlignLeft 0 1 false))
  /\ (forall (col : nat) h,
        ["Name"; "Image"; "State"; "Status"; "Ports"] !! col = Some h ->
        tview.cells (table a') !! (0, Z.of_nat col)
        = Some (tview.mkCell ("[::b]" ++ h) tview.AlignCenter 0 0 true))
  /\ (forall row col x,
        tview.cells (table a') !! (row, col) = Some x ->
        0 <= row <= len (containers a') /\ 0 <= col < 5).
Proof.
  intros Href.
  destruct (refresh_cells pf a a' w w' Href) as (sorted & Hcs & Hcells).
  set (t0 := setHeaders (tview.Clear (table a))) in *.
  assert (t0 = setHeaders (tview.Clear (table a))) as Ht0 by done.
  destruct (rowsFrom_cells pf sorted 0 t0) as (Hin & Hout & _).
  rewrite Hcells, Hcs. clear Href Hcells Hcs. clearbody t0.
  split; [|split].
  - intros i c col Hc Hcol.
    rewrite list_lookup_fmap in Hc.
    destruct (sorted !! i) as [ctn|] eqn:Hi; [|done]. injection Hc as <-.
    by apply (Hin i ctn col).
  - intros col h Hh. rewrite Hout by lia.
    rewrite Ht0, setHeaders_cells.
    destruct col as [|[|[|[|[|col]]]]]; cbn in Hh; try done; injection Hh as <-;
      repeat (first [by rewrite lookup_insert_eq
                    |rewrite lookup_insert_ne by done]).
  - intros row col x Hx. unfold len. rewrite length_map.
    destruct (Z_le_gt_dec row 0) as [Hle|Hgt].
    + rewrite Hout, Ht0 in Hx by lia. apply setHeaders_row0 in Hx. lia.
    + destruct (Z_le_gt_dec row (Z.of_nat (length sorted))) as [Hle'|Hgt'].
      * destruct (Z_lt_ge_dec col 0) as [Hc0|Hc0].
        { rewrite Hout, Ht0 in Hx by lia. apply setHeaders_row0 in Hx. lia. }
        destruct (Z_lt_ge_dec col 5) as [Hc5|Hc5]; [lia|].
        rewrite Hout, Ht0 in Hx by lia. apply setHeaders_row0 in Hx. lia.
      * rewrite Hout, Ht0 in Hx by lia. apply setHeaders_row0 in Hx. lia.
Qed.

Lemma refresh_table_witness :
  let listed :=
    [Container.mk "id-a" ["/a"] "redis" "exited" "Exited (0) 3 hours ago" [];
     Container.mk "id-b" ["/b"] "nginx" "running" "Up 2 hours"
                  [Port.mk "" 80 8080 "tcp"]] in
  exists a' w',
    refresh samplePlatform
      (sampleApp (sampleClient (Ok listed) (sampleInspect "past") (Err "down")),
       sampleWorld) = Some ((a', w'), None)
    /\ tview.cells (table a') !! (1, 4)
       = Some (tview.mkCell "0.0.0.0:8080->80/tcp" tview.AlignLeft 0 1 false).
Proof.
  intros listed.
  destruct (refresh_summaries samplePlatform
              (sampleApp (sampleClient (Ok listed) (sampleInspect "past") (Err "down")))
              sampleWorld listed eq_refl ltac:(intros top _; by eexists))
    as (a' & w' & Href & Hcs & _).
  exists a', w'. split; [exact Href|].
  destruct (refresh_table samplePlatform _ a' _ w' Href) as (Hrows & _).
  apply (Hrows 0%nat
           (ContainerSummary.mk "id-b" "b" "nginx" "running" "Up 2 hours"
                                "0.0.0.0:8080->80/tcp") 4).
  - rewrite Hcs. vm_compute. reflexivity.
  - lia.
Defined.

(** X6. A refresh that returned no error replaces the summary list by one
    summary per record of the daemon's answer: the list is a rearrangement
    of those summaries, none lost and none repeated, whatever the states
    and names are and whatever the list held before. *)
Theorem refresh_permutation pf (a a' : App) (w w' : World) (cs : list Container.t) :
  client.ContainerList (cli a) (length (issued w)) (ListOptions.mk true) = Ok cs ->
  refresh pf (a, w) = Some ((a', w'), None) ->
  containers a' ≡ₚ map (summaryOf pf) cs.
Proof.
  intros Hlist Href.
  by destruct (refresh_returned pf a a' w w' cs None Hlist Href) as (_ & _ & Hperm & _).
Qed.

Lemma refresh_permutation_witness :
  let listed :=
    [Container.mk "id-a" ["/a"] "redis" "exited" "Exited (0) 3 hours ago" [];
     Container.mk "id-b" ["/b"] "nginx" "running" "Up 2 hours" []] in
  exists a' w',
    refresh samplePlatform
      (sampleApp (sampleClient (Ok listed) (sampleInspect "past") (Err "down")),
       sampleWorld) = Some ((a', w'), None)
    /\ containers a' ≡ₚ map (summaryOf samplePlatform) listed.
Proof.
  intros listed.
  destruct (refresh_summaries samplePlatform
              (sampleApp (sampleClient (Ok listed) (sampleInspect "past") (Err "down")))
              sampleWorld listed eq_refl ltac:(intros top _; by eexists))
    as (a' & w' & Href & _).
  exists a', w'. split; [exact Href|].
  exact (refresh_permutation samplePlatform
           (sampleApp (sampleClient (Ok listed) (sampleInspect "past") (Err "down")))
           a' sampleWorld w' listed eq_refl Href).
Defined.

(** X7. [firstName] uses the first name only and removes one leading
    slash from it, not more; without names it is the empty string. *)
Theorem firstName_spec (s : string) (c : ascii) (rest : list string) :
  firstName [] = ""
  /\ firstName ("" :: rest) = ""
  /\ firstName (String "/" s :: rest) = s
  /\ (c <> "/"%char -> firstName (String c s :: rest) = String c s).
Proof.
  split; [done|]. split; [done|]. split.
  - unfold firstName, strings.TrimPrefix1. cbn. done.
  - intros Hc. unfold firstName, strings.TrimPrefix1. cbn.
    destruct (Ascii.eqb_spec c "/"); [done|]. done.
Qed.

Lemma firstName_spec_witness : firstName ["web"; "/alias"] = "web".
Proof.
  destruct (firstName_spec "eb" "w" ["/alias"]) as (_ & _ & _ & H).
  apply H. discriminate.
Defined.

(** X8. On the first load, when the list request succeeds and the
    inspection for the first row answers with an error or with a state,
    [main] leaves the state that [refresh] alone gives: the header row that
    [setupUI] writes is cleared and written again by [refresh], and no
    status line other than the one of [refresh] is written. *)
Theorem startup_ok pf (a : App) (w : World) (cs : list Container.t) :
  client.ContainerList (cli a) (length (issued w)) (ListOptions.mk true) = Ok cs ->
  firstRowAnswered a w cs ->
  exists aw', refresh pf (a, w) = Some (aw', None) /\ startup pf (a, w) = Some aw'.
Proof.
  intros Hlist Hans.
  pose proof (refresh_ok pf a w cs Hlist) as H1.
  pose proof (refresh_ok pf (setupUI a) w cs Hlist) as H2.
  cbv zeta in H1, H2. unfold startup. rewrite H2.
  change (tview.Clear (table (setupUI a))) with (tview.Clear (table a)).
  cbn [stopped details logs cli setupUI setTable].
  unfold firstRowAnswered in Hans.
  destruct (sort.SliceStable lessContainer cs) as [|top rest].
  - eexists. split; [exact H1|]. reflexivity.
  - destruct (Hans top eq_refl) as [r Hr]. rewrite Hr in H1. rewrite Hr.
    eexists. split; [exact H1|]. reflexivity.
Qed.

Lemma startup_ok_witness :
  let listed :=
    [Container.mk "id-a" ["/a"] "redis" "exited" "Exited (0) 3 hours ago" [];
     Container.mk "id-b" ["/b"] "nginx" "running" "Up 2 hours" []] in
  exists aw',
    startup samplePlatform
      (sampleApp (sampleClient (Ok listed) (sampleInspect "past")
                               (Ok (Ok (list_ascii_of_string "ready")))),
       sampleWorld)
    = Some aw'
    /\ map ContainerSummary.Name (containers aw'.1) = ["b"; "a"]
    /\ logs aw'.1 = "ready".
Proof.
  intros listed.
  destruct (startup_ok samplePlatform
              (sampleApp (sampleClient (Ok listed) (sampleInspect "past")
                                       (Ok (Ok (list_ascii_of_string "ready")))))
              sampleWorld listed eq_refl ltac:(intros top _; by eexists))
    as ([a' w'] & Href & Hst).
  exists (a', w'). split; [exact Hst|].
  vm_compute in Href. injection Href as <- _. split; reflexivity.
Defined.

(** X9. Refreshing again while the daemon gives the same answers changes
    neither the summary list, nor the table and its selection, nor the logs
    pane. *)
Theorem refresh_twice pf (a a1 a2 : App) (w w1 w2 : World) (cs : list Container.t) :
  (forall n, client.ContainerList (cli a) n (ListOptions.mk true) = Ok cs) ->
  (forall n m id,
      client.ContainerLogs (cli a) n id tail5 = client.ContainerLogs (cli a) m id tail5) ->
  refresh pf (a, w) = Some ((a1, w1), None) ->
  refresh pf (a1, w1) = Some ((a2, w2), None) ->
  containers a2 = containers a1 /\ table a2 = table a1 /\ logs a2 = logs a1.
Proof.
  intros Hlist Hlogs Href1 Href2.
  pose proof (refresh_ok pf a w cs (Hlist _)) as H1. cbv zeta in H1.
  rewrite H1 in Href1.
  destruct (refresh_frame pf a a1 w w1 None) as (_ & Hcli & _);
    [by rewrite H1|].
  pose proof (refresh_ok pf a1 w1 cs) as H2. rewrite Hcli in H2.
  specialize (H2 (Hlist _)). cbv zeta in H2. rewrite H2 in Href2.
  destruct (rowsFrom_cells pf (sort.SliceStable lessContainer cs) 0
              (setHeaders (tview.Clear (table a)))) as (_ & _ & Hr & Hc).
  destruct (sort.SliceStable lessContainer cs) as [|top rest].
  - injection Href1 as <- <-. injection Href2 as <- <-.
    cbn [containers table logs]. done.
  - destruct (inspected _) as [r1|]; [|done].
    destruct (inspected _) as [r2|]; [|done].
    injection Href1 as <- <-. injection Href2 as <- <-.
    cbn [containers table logs setLogs setDetails].
    split; [done|]. split; [|f_equal; apply Hlogs].
    change (setHeaders (tview.Clear (tview.Select 1 0 ?t)))
      with (tview.Select 1 0 (setHeaders (tview.Clear (table a)))).
    by rewrite rowsFrom_Select.
Qed.

Lemma refresh_twice_witness :
  let listed :=
    [Container.mk "id-a" ["/a"] "redis" "exited" "Exited (0) 3 hours ago" [];
     Container.mk "id-b" ["/b"] "nginx" "running" "Up 2 hours" []] in
  let cl := sampleClient (Ok listed) (sampleInspect "past")
                         (Ok (Ok (list_ascii_of_string "ready"))) in
  exists a1 w1 a2 w2,
    refresh samplePlatform (sampleApp cl, sampleWorld) = Some ((a1, w1), None)
    /\ refresh samplePlatform (a1, w1) = Some ((a2, w2), None)
    /\ map ContainerSummary.Name (containers a1) = ["b"; "a"]
    /\ containers a2 = containers a1 /\ table a2 = table a1 /\ logs a2 = logs a1.
Proof.
  intros listed cl.
  destruct (refresh_summaries samplePlatform (sampleApp cl) sampleWorld listed eq_refl
              ltac:(intros top _; by eexists))
    as (a1 & w1 & Href1 & Hcs & _).
  destruct (refresh_frame samplePlatform _ a1 _ w1 None Href1) as (_ & Hcli & _).
  change (cli (sampleApp cl)) with cl in Hcli.
  destruct (refresh_summaries samplePlatform a1 w1 listed) as (a2 & w2 & Href2 & _).
  { by rewrite Hcli. }
  { intros top _. rewrite Hcli. by eexists. }
  exists a1, w1, a2, w2. split; [exact Href1|]. split; [exact Href2|].
  split; [rewrite Hcs; vm_compute; reflexivity|].
  exact (refresh_twice samplePlatform (sampleApp cl) a1 a2 sampleWorld w1 w2 listed
           (fun _ => eq_refl) (fun _ _ _ => eq_refl) Href1 Href2).
Defined.

(** X10. After a refresh that returned no error, selecting a data row
    shows the container that the row displays: the text in column 0 of the
    row is the name of the summary whose identifier the inspection and the
    log request are issued for, and, when the inspection answers with an
    error or with a state, the panes are filled from these two answers. *)
Theorem select_shows_row pf (a a' : App) (w w' : World) (row : Z)
        (c : ContainerSummary.t) (r : result ContainerState.t) :
  refresh pf (a, w) = Some ((a', w'), None) ->
  1 <= row <= float64.maxInt64 ->
  containers a' !! Z.to_nat (row - 1) = Some c ->
  let id := ContainerSummary.ID c in
  inspected (client.ContainerInspect (cli a') (length (issued w')) id) = Some r ->
  tview.cells (table a') !! (row, 0)
  = Some (tview.mkCell (ContainerSummary.Name c) tview.AlignLeft 0 1 false)
  /\ exists a2 w2,
       selectedFunc pf row 0 (a', w') = Some (a2, w2)
       /\ issued w2 =
            (issued w' ++ [CallContainerInspect id; CallContainerLogs id tail5])%list
       /\ details a2 = detailsPane pf c r (Now pf (readings w'))
       /\ logs a2 =
            logsPane (client.ContainerLogs (cli a') (S (length (issued w'))) id tail5).
Proof.
  intros Href Hrow Hc id Hr. split.
  - destruct (refresh_cells pf a a' w w' Href) as (l & Hcs & Hcells).
    destruct (rowsFrom_cells pf l 0 (setHeaders (tview.Clear (table a)))) as (Hin & _).
    rewrite Hcs, list_lookup_fmap in Hc.
    destruct (l !! Z.to_nat (row - 1)) as [ctn|] eqn:Hl; [|done]. injection Hc as <-.
    rewrite Hcells.
    replace row with (Z.of_nat (0 + Z.to_nat (row - 1)) + 1) at 1 by lia.
    by rewrite (Hin _ ctn 0 Hl ltac:(lia)).
  - eexists _, _. unfold selectedFunc.
    split; [by apply (showForRow_answered pf row a' w' c r)|]. done.
Qed.

Lemma select_shows_row_witness :
  let listed :=
    [Container.mk "id-a" ["/a"] "redis" "exited" "Exited (0) 3 hours ago" [];
     Container.mk "id-b" ["/b"] "nginx" "running" "Up 2 hours" []] in
  exists a' w' a2 w2,
    refresh samplePlatform
      (sampleApp (sampleClient (Ok listed) (sampleInspect "past") (Err "down")),
       sampleWorld) = Some ((a', w'), None)
    /\ tview.cells (table a') !! (2, 0)
       = Some (tview.mkCell "a" tview.AlignLeft 0 1 false)
    /\ selectedFunc samplePlatform 2 0 (a', w') = Some (a2, w2)
    /\ issued w2 =
         (issued w' ++ [CallContainerInspect "id-a"; CallContainerLogs "id-a" tail5])%list.
Proof.
  intros listed.
  destruct (refresh_summaries samplePlatform
              (sampleApp (sampleClient (Ok listed) (sampleInspect "past") (Err "down")))
              sampleWorld listed eq_refl ltac:(intros top _; by eexists))
    as (a' & w' & Href & Hcs & _).
  destruct (refresh_frame samplePlatform _ a' _ w' None Href) as (_ & Hcli & _).
  assert (1 <= 2 <= float64.maxInt64) as Hrow by done.
  destruct (select_shows_row samplePlatform
              (sampleApp (sampleClient (Ok listed) (sampleInspect "past") (Err "down")))
              a' sampleWorld w' 2
              (ContainerSummary.mk "id-a" "a" "redis" "exited" "Exited (0) 3 hours ago" "-")
              (Ok (sampleState "past")) Href Hrow)
    as (Hcell & a2 & w2 & Hsel & Hiss & _).
  { rewrite Hcs. vm_compute. reflexivity. }
  { by rewrite Hcli. }
  exists a', w', a2, w2. split; [exact Href|]. split; [exact Hcell|].
  split; [exact Hsel|exact Hiss].
Defined.

(** ** The order of the list *)

Section InsertionSort.
Context {A : Type}.
Variable less : A -> A -> bool.

Lemma Less_middle (pre : list A) (y x : A) (post : list A) :
  sort.Less less (pre ++ y :: x :: post) (S (length pre)) (length pre) = less x y.
Proof.
  unfold sort.Less.
  rewrite (lookup_app_r pre) by lia.
  replace (S (length pre) - length pre)%nat with 1%nat by lia.
  rewrite list_lookup_middle by done. done.
Qed.

Lemma Swap_middle (pre : list A) (y x : A) (post : list A) :
  sort.Swap (S (length pre)) (length pre) (pre ++ y :: x :: post)
  = (pre ++ x :: y :: post)%list.
Proof.
  unfold sort.Swap.
  rewrite (lookup_app_r pre) by lia.
  replace (S (length pre) - length pre)%nat with 1%nat by lia.
  rewrite list_lookup_middle by done. cbn [lookup list_lookup].
  rewrite (insert_app_r_alt pre) by lia.
  replace (S (length pre) - length pre)%nat with 1%nat by lia.
  rewrite (insert_app_r_alt pre) by lia.
  rewrite Nat.sub_diag. done.
Qed.

Lemma placeRev_length (x : A) (r : list A) :
  length (placeRev less x r) = S (length r).
Proof.
  induction r as [|y r IH]; [done|]. simpl.
  destruct (less x y); simpl; by rewrite ?IH.
Qed.

(** The inner loop moves the element at position [j] into the sorted
    prefix before it. *)
Lemma insertDown_spec (j : nat) (pre : list A) (x : A) (post : list A) :
  length pre = j ->
  sort.insertDown less 0 j (pre ++ x :: post)
  = (rev (placeRev less x (rev pre)) ++ post)%list.
Proof.
  revert pre post. induction j as [|j IH]; intros pre post Hlen.
  - destruct pre; [done|done].
  - destruct (rev pre) as [|y rp] eqn:Hrev.
    { apply (f_equal (@length A)) in Hrev. rewrite length_rev in Hrev. simpl in Hrev. lia. }
    assert (pre = rev rp ++ [y])%list as ->.
    { rewrite <- (rev_involutive pre), Hrev. done. }
    rewrite length_app, length_rev in Hlen. simpl in Hlen.
    assert (length (rev rp) = j) as Hj by (rewrite length_rev; lia).
    cbn [placeRev].
    rewrite <- app_assoc. cbn [app sort.insertDown].
    replace (0 <? S j)%nat with true by done. cbn [andb].
    rewrite <- Hj, Less_middle.
    destruct (less x y).
    + rewrite Swap_middle, Hj, IH by done.
      rewrite rev_involutive. cbn [rev]. by rewrite <- app_assoc.
    + cbn [rev]. rewrite <- !app_assoc. done.
Qed.

Lemma isortRev_length (r data : list A) :
  length (isortRev less r data) = (length r + length data)%nat.
Proof.
  unfold isortRev. revert r. induction data as [|x data IH]; intros r; simpl; [lia|].
  rewrite IH, placeRev_length. lia.
Qed.

Lemma insertionSort_from (done_ rest : list A) :
  foldl (fun d i => sort.insertDown less 0 i d) (done_ ++ rest)%list
        (seq (length done_) (length rest))
  = rev (isortRev less (rev done_) rest).
Proof.
  unfold isortRev. revert done_. induction rest as [|x rest IH]; intros done_.
  - simpl. by rewrite app_nil_r, rev_involutive.
  - cbn [length seq foldl]. rewrite insertDown_spec by done.
    pose proof (IH (rev (placeRev less x (rev done_)))) as H.
    rewrite length_rev, placeRev_length, length_rev, rev_involutive in H.
    exact H.
Qed.

(** Up to 20 elements [sort.SliceStable] is the insertion sort. *)
Lemma SliceStable_small (x : list A) :
  (length x <= 20)%nat -> sort.SliceStable less x = rev (isortRev less [] x).
Proof.
  intros Hlen. unfold sort.SliceStable, sort.stable.
  assert (sort.insertionSort less 0 (length x) x = rev (isortRev less [] x)) as Hins.
  { unfold sort.insertionSort. destruct x as [|x0 rest]; [done|].
    cbn [length]. replace (S (length rest) - (0 + 1))%nat with (length rest) by lia.
    exact (insertionSort_from [x0] rest). }
  assert (sort.sortBlocks less (S (length x)) 20 0 (length x) x
          = rev (isortRev less [] x)) as ->.
  { cbn [sort.sortBlocks]. destruct (Nat.leb_spec (0 + 20) (length x)) as [Hge|Hlt].
    - assert (length x = 20%nat) as H20 by lia.
      rewrite H20 in *. cbn [sort.sortBlocks Nat.add Nat.leb].
      rewrite Hins. reflexivity.
    - exact Hins. }
  cbn [sort.mergeBlocks].
  assert ((20 <? length x)%nat = false) as -> by (apply Nat.ltb_ge; lia).
  done.
Qed.

Lemma placeRev_Forall (Q : A -> Prop) (x : A) (r : list A) :
  Q x -> Forall Q r -> Forall Q (placeRev less x r).
Proof.
  intros Hx Hr. induction Hr as [|y r Hy Hr IH]; simpl; [by constructor|].
  destruct (less x y); repeat constructor; done.
Qed.

(** A relation between an element and the elements placed after it
    survives an insertion when the comparison agrees with it. *)
Lemma placeRev_sorted (P : A -> Prop) (R : A -> A -> Prop) (x : A) (r : list A) :
  (forall a b c, P a -> P b -> P c -> R a b -> R b c -> R a c) ->
  (forall a b, P a -> P b -> less a b = true -> R b a) ->
  (forall a b, P a -> P b -> less a b = false -> R a b) ->
  P x -> Forall P r ->
  StronglySorted R r -> StronglySorted R (placeRev less x r).
Proof.
  intros Htr Hlt Hge Hx HP Hs. induction Hs as [|y r Hs IH Hy]; simpl.
  - repeat constructor.
  - apply Forall_cons in HP as [HPy HPr].
    destruct (less x y) eqn:E.
    + constructor; [by apply IH|].
      apply placeRev_Forall; [by apply Hlt|done].
    + constructor; [by constructor|]. constructor; [by apply Hge|].
      apply Forall_forall. intros b Hb.
      rewrite Forall_forall in Hy, HPr.
      apply (Htr x y b); auto.
Qed.

Lemma isortRev_Forall (Q : A -> Prop) (r data : list A) :
  Forall Q r -> Forall Q data -> Forall Q (isortRev less r data).
Proof.
  unfold isortRev. revert r. induction data as [|x data IH]; intros r Hr Hd; [done|].
  apply Forall_cons in Hd as [Hx Hd]. simpl. apply IH; [|done].
  by apply placeRev_Forall.
Qed.

Lemma isortRev_sorted (P : A -> Prop) (R : A -> A -> Prop) (data : list A) :
  (forall a b c, P a -> P b -> P c -> R a b -> R b c -> R a c) ->
  (forall a b, P a -> P b -> less a b = true -> R b a) ->
  (forall a b, P a -> P b -> less a b = false -> R a b) ->
  Forall P data ->
  StronglySorted R (isortRev less [] data).
Proof.
  intros Htr Hlt Hge.
  assert (forall r, Forall P r -> StronglySorted R r -> Forall P data ->
                    StronglySorted R (isortRev less r data)) as Hgen.
  { unfold isortRev. induction data as [|x data IH]; intros r HPr Hs Hd; [done|].
    apply Forall_cons in Hd as [Hx Hd]. simpl. apply IH; [| |done].
    - by apply placeRev_Forall.
    - by apply (placeRev_sorted P R). }
  intros Hd. apply Hgen; [constructor|constructor|done].
Qed.

(** In the output, an element and any later one are related the other way
    round. *)
Lemma sorted_rev_lookup (R : A -> A -> Prop) (r : list A) (i j : nat) (a b : A) :
  StronglySorted R r -> (i < j)%nat ->
  rev r !! i = Some a -> rev r !! j = Some b -> R b a.
Proof.
  intros Hs. revert i j a b. induction Hs as [|y r Hs IH Hy]; intros i j a b Hij Ha Hb.
  - done.
  - cbn [rev] in Ha, Hb.
    pose proof (lookup_lt_Some _ _ _ Hb) as Hj.
    rewrite length_app, length_rev in Hj. cbn [length] in Hj.
    rewrite lookup_app_l in Ha by (rewrite length_rev; lia).
    destruct (decide (j < length r)%nat) as [Hlt|Hge].
    + rewrite lookup_app_l in Hb by (rewrite length_rev; lia).
      by apply (IH i j).
    + rewrite lookup_app_r in Hb by (rewrite length_rev; lia).
      rewrite length_rev in Hb.
      replace (j - length r)%nat with 0%nat in Hb by lia. injection Hb as <-.
      rewrite Forall_forall in Hy. apply Hy.
      apply list_elem_of_lookup_2 in Ha. apply list_elem_of_In, in_rev. by apply list_elem_of_In.
Qed.

(** Elements of a class within which the comparison never answers true
    keep their order. *)
Lemma placeRev_filter (E : A -> bool) (x : A) (r : list A) :
  (forall a b, E a = true -> E b = true -> less a b = false) ->
  List.filter E (placeRev less x r) = List.filter E (x :: r).
Proof.
  intros HE. induction r as [|y r IH]; [done|].
  cbn [placeRev]. destruct (less x y) eqn:Hxy; [|done].
  cbn [List.filter] in *. rewrite IH.
  destruct (E x) eqn:Ex; [|done].
  destruct (E y) eqn:Ey; [|done].
  by rewrite HE in Hxy.
Qed.

Lemma isortRev_filter (E : A -> bool) (r data : list A) :
  (forall a b, E a = true -> E b = true -> less a b = false) ->
  List.filter E (isortRev less r data)
  = (rev (List.filter E data) ++ List.filter E r)%list.
Proof.
  intros HE. unfold isortRev. revert r.
  induction data as [|x data IH]; intros r; [done|].
  cbn [foldl]. rewrite IH, placeRev_filter by done.
  cbn [List.filter]. destruct (E x); [|done].
  cbn [rev]. by rewrite <- app_assoc.
Qed.
End InsertionSort.

Lemma string_ltb_neg_trans (s1 s2 s3 : string) :
  String.ltb s1 s2 = false -> String.ltb s2 s3 = false -> String.ltb s1 s3 = false.
Proof.
  intros H12 H23.
  destruct (String.ltb s1 s3) eqn:H13; [exfalso|done].
  unfold String.ltb in H12.
  destruct (String.compare s1 s2) eqn:C12; [|done|].
  - apply String.compare_eq_iff in C12 as ->. congruence.
  - rewrite String.compare_antisym in C12.
    assert (String.ltb s2 s1 = true) as H21
      by (unfold String.ltb; destruct (String.compare s2 s1); done).
    pose proof (string_ltb_trans _ _ _ H21 H13). congruence.
Qed.

Lemma filter_fmap {A B} (f : B -> bool) (g : A -> B) (l : list A) :
  List.filter f (map g l) = map g (List.filter (fun x => f (g x)) l).
Proof.
  induction l as [|x l IH]; [done|]. cbn [map List.filter].
  destruct (f (g x)); cbn [map]; by rewrite IH.
Qed.

(** With no state other than "running" and one more, the comparison of
    [refresh] orders the records by state and name: not being less is
    transitive. *)
Lemma lessContainer_neg_trans (s0 : string) (x y z : Container.t) :
  (Container.State x = "running" \/ Container.State x = s0) ->
  (Container.State y = "running" \/ Container.State y = s0) ->
  (Container.State z = "running" \/ Container.State z = s0) ->
  lessContainer x y = false -> lessContainer y z = false -> lessContainer x z = false.
Proof.
  unfold lessContainer. intros Hx Hy Hz Hxy Hyz.
  destruct (String.eqb_spec (Container.State x) (Container.State y)) as [Exy|Nxy];
    destruct (String.eqb_spec (Container.State y) (Container.State z)) as [Eyz|Nyz];
    cbn [negb] in *.
  - rewrite Exy, Eyz, String.eqb_refl. cbn [negb].
    by apply (string_ltb_neg_trans _ _ _ Hxy Hyz).
  - rewrite Exy.
    destruct (String.eqb_spec (Container.State y) (Container.State z)); [done|].
    done.
  - rewrite <- Eyz.
    destruct (String.eqb_spec (Container.State x) (Container.State y)); [done|].
    done.
  - apply String.eqb_neq in Hxy, Hyz.
    destruct Hx as [Hx|Hx], Hy as [Hy|Hy], Hz as [Hz|Hz]; congruence.
Qed.

Lemma lessContainer_asym (x y : Container.t) :
  lessContainer x y = true -> lessContainer y x = false.
Proof.
  intros Hxy. destruct (lessContainer y x) eqn:Hyx; [|done].
  pose proof (lessContainer_trans _ _ _ Hxy Hyx) as H.
  by rewrite lessContainer_irrefl in H.
Qed.

(** The summary list after a refresh of at most 20 records. *)
Lemma refresh_small pf (a a' : App) (w w' : World) (cs : list Container.t) :
  client.ContainerList (cli a) (length (issued w)) (ListOptions.mk true) = Ok cs ->
  (length cs <= 20)%nat ->
  refresh pf (a, w) = Some ((a', w'), None) ->
  containers a' = map (summaryOf pf) (rev (isortRev lessContainer [] cs)).
Proof.
  intros Hlist Hlen Href.
  destruct (refresh_returned pf a a' w w' cs None Hlist Href) as (_ & Hcs & _).
  by rewrite Hcs, SliceStable_small.
Qed.

(** X11. For a listing of at most 20 records, whatever their states are,
    a refresh that returned no error puts every running record before
    every record that is not running, and the records that have the same
    state and the same primary name stay in the order of the listing. *)
Theorem refresh_running_first pf (a a' : App) (w w' : World) (cs : list Container.t) :
  client.ContainerList (cli a) (length (issued w)) (ListOptions.mk true) = Ok cs ->
  (length cs <= 20)%nat ->
  refresh pf (a, w) = Some ((a', w'), None) ->
  runningFirst (containers a')
  /\ forall s n,
       List.filter (sameKey s n) (containers a')
       = List.filter (sameKey s n) (map (summaryOf pf) cs).
Proof.
  intros Hlist Hlen Href.
  rewrite (refresh_small pf a a' w w' cs Hlist Hlen Href). split.
  - intros i j x y Hij Hx Hy Hrun.
    rewrite list_lookup_fmap in Hx, Hy.
    destruct (rev _ !! i) as [cx|] eqn:Hi; [|done].
    destruct (rev _ !! j) as [cy|] eqn:Hj; [|done].
    injection Hx as <-. injection Hy as <-. cbn [summaryOf ContainerSummary.State] in *.
    revert Hrun.
    apply (sorted_rev_lookup
             (fun p q => Container.State p = "running" -> Container.State q = "running")
             (isortRev lessContainer [] cs) i j cx cy); [|done|done|done].
    apply (isortRev_sorted lessContainer (fun _ => True)).
    + auto.
    + intros p q _ _ Hpq Hq. unfold lessContainer in Hpq.
      destruct (String.eqb_spec (Container.State p) (Container.State q)) as [E|N];
        cbn [negb] in Hpq; [congruence|by apply String.eqb_eq].
    + intros p q _ _ Hpq Hp. unfold lessContainer in Hpq.
      destruct (String.eqb_spec (Container.State p) (Container.State q)) as [E|N];
        cbn [negb] in Hpq; [congruence|]. apply String.eqb_neq in Hpq. done.
    + by apply Forall_forall.
  - intros s n. rewrite !filter_fmap. f_equal.
    rewrite List.filter_rev, isortRev_filter.
    + cbn [List.filter]. by rewrite app_nil_r, rev_involutive.
    + intros p q Hp Hq. unfold sameKey in Hp, Hq.
      cbn [summaryOf ContainerSummary.State ContainerSummary.Name] in Hp, Hq.
      apply andb_true_iff in Hp as [Hp1 Hp2]. apply andb_true_iff in Hq as [Hq1 Hq2].
      apply String.eqb_eq in Hp1, Hp2, Hq1, Hq2.
      unfold lessContainer. rewrite Hp1, Hq1, String.eqb_refl. cbn [negb].
      rewrite Hp2, Hq2. apply string_ltb_irrefl.
Qed.

Lemma refresh_running_first_witness :
  let listed :=
    [Container.mk "id-z" ["/z"] "redis" "exited" "Exited (0) 2 hours ago" [];
     Container.mk "id-m" ["/m"] "nginx" "paused" "Up 3 hours (Paused)" [];
     Container.mk "id-b" ["/b"] "nginx" "running" "Up 2 hours" []] in
  exists a' w',
    refresh samplePlatform
      (sampleApp (sampleClient (Ok listed) (Err "down") (Err "down")), sampleWorld)
      = Some ((a', w'), None)
    /\ runningFirst (containers a').
Proof.
  intros listed.
  destruct (refresh_summaries samplePlatform
              (sampleApp (sampleClient (Ok listed) (Err "down") (Err "down")))
              sampleWorld listed eq_refl ltac:(intros top _; by eexists))
    as (a' & w' & Href & _).
  exists a', w'. split; [exact Href|].
  destruct (refresh_running_first samplePlatform
              (sampleApp (sampleClient (Ok listed) (Err "down") (Err "down")))
              a' sampleWorld w' listed eq_refl ltac:(cbn; lia) Href) as [H _].
  exact H.
Defined.

(** X12. For a listing of at most 20 records in which every record that
    is not running has one and the same state, a refresh that returned no
    error lists the records of equal state in ascending order of their
    primary names. *)
Theorem refresh_name_order pf (a a' : App) (w w' : World) (cs : list Container.t)
        (s0 : string) :
  client.ContainerList (cli a) (length (issued w)) (ListOptions.mk true) = Ok cs ->
  (length cs <= 20)%nat ->
  Forall (fun c => Container.State c = "running" \/ Container.State c = s0) cs ->
  refresh pf (a, w) = Some ((a', w'), None) ->
  nameAscending (containers a').
Proof.
  intros Hlist Hlen Hstates Href.
  rewrite (refresh_small pf a a' w w' cs Hlist Hlen Href).
  intros i j x y Hij Hx Hy Hst.
  rewrite list_lookup_fmap in Hx, Hy.
  destruct (rev _ !! i) as [cx|] eqn:Hi; [|done].
  destruct (rev _ !! j) as [cy|] eqn:Hj; [|done].
  injection Hx as <-. injection Hy as <-.
  cbn [summaryOf ContainerSummary.State ContainerSummary.Name] in *.
  assert (lessContainer cy cx = false) as Hless.
  { apply (sorted_rev_lookup (fun p q => lessContainer p q = false)
             (isortRev lessContainer [] cs) i j cx cy); [|done|done|done].
    apply (isortRev_sorted lessContainer
             (fun c => Container.State c = "running" \/ Container.State c = s0)).
    - intros p q r Hp Hq Hr. by apply (lessContainer_neg_trans s0).
    - intros p q _ _. apply lessContainer_asym.
    - auto.
    - done. }
  unfold lessContainer in Hless. rewrite Hst, String.eqb_refl in Hless. done.
Qed.

Lemma refresh_name_order_witness :
  let listed :=
    [Container.mk "id-z" ["/z"] "redis" "exited" "Exited (0) 2 hours ago" [];
     Container.mk "id-b" ["/b"] "nginx" "running" "Up 2 hours" [];
     Container.mk "id-a" ["/a"] "redis" "exited" "Exited (0) 5 hours ago" []] in
  exists a' w',
    refresh samplePlatform
      (sampleApp (sampleClient (Ok listed) (Err "down") (Err "down")), sampleWorld)
      = Some ((a', w'), None)
    /\ map ContainerSummary.Name (containers a') = ["b"; "a"; "z"]
    /\ nameAscending (containers a').
Proof.
  intros listed.
  destruct (refresh_summaries samplePlatform
              (sampleApp (sampleClient (Ok listed) (Err "down") (Err "down")))
              sampleWorld listed eq_refl ltac:(intros top _; by eexists))
    as (a' & w' & Href & Hcs & _).
  exists a', w'. split; [exact Href|]. split; [rewrite Hcs; vm_compute; reflexivity|].
  apply (refresh_name_order samplePlatform
           (sampleApp (sampleClient (Ok listed) (Err "down") (Err "down")))
           a' sampleWorld w' listed "exited" eq_refl ltac:(cbn; lia)); [|exact Href].
  constructor; [by right|]. constructor; [by left|]. constructor; [by right|].
  constructor.
Defined.

(** ** Merging: what the comparison has to satisfy

    [le] is an order that the comparison agrees with: an element that is
    less comes first in it, and one that is not less does not come first.
    [P] holds of the elements that are compared. *)

Section MergeOrder.
Context {A : Type}.
Variable less : A -> A -> bool.
Variable P : A -> Prop.
Variable le : A -> A -> Prop.
Hypothesis le_refl : forall x, P x -> le x x.
Hypothesis le_trans : forall x y z, P x -> P y -> P z -> le x y -> le y z -> le x z.
Hypothesis less_le : forall x y, P x -> P y -> less x y = true -> le x y.
Hypothesis nless_le : forall x y, P x -> P y -> less x y = false -> le y x.

Lemma sorted_app (R : A -> A -> Prop) (l1 l2 : list A) :
  StronglySorted R (l1 ++ l2) <->
  StronglySorted R l1 /\ StronglySorted R l2
  /\ forall x y, x ∈ l1 -> y ∈ l2 -> R x y.
Proof.
  induction l1 as [|a l1 IH]; cbn [app].
  - split.
    + intros H. split; [constructor|]. split; [done|]. intros x y Hx. by apply elem_of_nil in Hx.
    + by intros (_ & H & _).
  - split.
    + intros H. apply StronglySorted_inv in H as [Hs Hall].
      apply IH in Hs as (H1 & H2 & H12).
      apply Forall_app in Hall as [Ha1 Ha2].
      split; [by constructor|]. split; [done|].
      intros x y Hx Hy. apply elem_of_cons in Hx as [->|Hx]; [|by apply H12].
      rewrite Forall_forall in Ha2. by apply Ha2.
    + intros (H1 & H2 & H12). apply StronglySorted_inv in H1 as [Hs Hall].
      constructor.
      * apply IH. split; [done|]. split; [done|].
        intros x y Hx Hy. apply H12; [by apply elem_of_cons; right|done].
      * apply Forall_app. split; [done|]. apply Forall_forall. intros y Hy.
        apply H12; [by apply elem_of_cons; left|done].
Qed.

Lemma sorted_head (r : A) (l : list A) (y : A) :
  Forall P l -> StronglySorted le l -> head l = Some r -> y ∈ l -> le r y.
Proof using le_refl.
  intros HP Hs Hh Hy. destruct l as [|a l]; [done|]. injection Hh as ->.
  apply StronglySorted_inv in Hs as [_ Hall].
  apply elem_of_cons in Hy as [->|Hy].
  - apply le_refl. by apply Forall_cons in HP as [? _].
  - rewrite Forall_forall in Hall. by apply Hall.
Qed.

Lemma sorted_last (x : A) (l : list A) (y : A) :
  Forall P l -> StronglySorted le l -> last l = Some x -> y ∈ l -> le y x.
Proof using le_refl.
  intros HP Hs Hl Hy. apply last_Some in Hl as [l' ->].
  apply sorted_app in Hs as (_ & _ & H12).
  apply elem_of_app in Hy as [Hy|Hy].
  - apply H12; [done|]. by apply list_elem_of_singleton.
  - apply list_elem_of_singleton in Hy as ->. apply le_refl.
    apply Forall_app in HP as [_ HP]. by apply Forall_cons in HP as [? _].
Qed.

Lemma Merged_perm (L R S : list A) : Merged less L R S -> S ≡ₚ L ++ R.
Proof.
  induction 1 as [L R _|L1 L2 R1 R2 S1 S2 _ _ _ IH1 _ IH2]; [done|].
  rewrite IH1, IH2. rewrite <- !app_assoc. f_equiv. rewrite !app_assoc. f_equiv.
  apply Permutation_app_comm.
Qed.

(** Two sorted runs put together by [symMerge] give a sorted run. *)
Lemma Merged_sorted (L R S : list A) :
  Merged less L R S ->
  Forall P L -> Forall P R ->
  StronglySorted le L -> StronglySorted le R -> StronglySorted le S.
Proof using le_refl le_trans less_le nless_le.
  induction 1 as [L R Hcat|L1 L2 R1 R2 S1 S2 Hcross Hcat HM1 IH1 HM2 IH2];
    intros HPL HPR HL HR.
  - apply sorted_app. split; [done|]. split; [done|].
    intros x y Hx Hy.
    destruct Hcat as [->|[->|(l & r & Hl & Hr & Hless)]];
      [by apply elem_of_nil in Hx|by apply elem_of_nil in Hy|].
    rewrite Forall_forall in HPL, HPR.
    assert (P l) as HPl.
    { apply HPL. apply last_Some in Hl as [l' ->]. apply elem_of_app. right.
      by apply list_elem_of_singleton. }
    assert (P r) as HPr.
    { apply HPR. destruct R; [done|]. injection Hr as ->. by apply elem_of_cons; left. }
    apply (le_trans x l y); auto.
    + apply (sorted_last l L); [by apply Forall_forall|done|done|done].
    + apply (le_trans l r y); auto.
      apply (sorted_head r R); [by apply Forall_forall|done|done|done].
  - apply Forall_app in HPL as [HP1 HP2]. apply Forall_app in HPR as [HQ1 HQ2].
    apply sorted_app in HL as (HL1 & HL2 & HL12).
    apply sorted_app in HR as (HR1 & HR2 & HR12).
    apply sorted_app. split; [by apply IH1|]. split; [by apply IH2|].
    intros x y Hx Hy.
    rewrite (Merged_perm _ _ _ HM1) in Hx. rewrite (Merged_perm _ _ _ HM2) in Hy.
    apply elem_of_app in Hx as [Hx|Hx]; apply elem_of_app in Hy as [Hy|Hy].
    + by apply HL12.
    + destruct Hcat as [->|[->|(l & r & Hl & Hr & Hless)]];
        [by apply elem_of_nil in Hx|by apply elem_of_nil in Hy|].
      pose proof HP1 as HP1'. pose proof HQ2 as HQ2'.
      rewrite Forall_forall in HP1', HQ2'.
      assert (P l) as HPl.
      { apply HP1'. apply last_Some in Hl as [l' ->]. apply elem_of_app. right.
        by apply list_elem_of_singleton. }
      assert (P r) as HPr.
      { apply HQ2'. destruct R2; [done|]. injection Hr as ->. by apply elem_of_cons; left. }
      apply (le_trans x l y); auto.
      * by apply (sorted_last l L1).
      * apply (le_trans l r y); auto. by apply (sorted_head r R2).
    + destruct Hcross as [->|[->|(l & r & Hl & Hr & Hless)]];
        [by apply elem_of_nil in Hy|by apply elem_of_nil in Hx|].
      pose proof HP2 as HP2'. pose proof HQ1 as HQ1'.
      rewrite Forall_forall in HP2', HQ1'.
      assert (P r) as HPr.
      { apply HQ1'. apply last_Some in Hr as [l' ->]. apply elem_of_app. right.
        by apply list_elem_of_singleton. }
      assert (P l) as HPl.
      { apply HP2'. destruct L2; [done|]. injection Hl as ->. by apply elem_of_cons; left. }
      apply (le_trans x r y); auto.
      * by apply (sorted_last r R1).
      * apply (le_trans r l y); auto. by apply (sorted_head l L2).
    + by apply HR12.
Qed.

(** Elements that the comparison does not tell apart keep their order,
    when an element that is less is strictly before in [le]. *)
Lemma Merged_stable (E : A -> bool) (L R S : list A) :
  (forall x y, P x -> P y -> E x = true -> E y = true -> less x y = false) ->
  (forall x y z u, P x -> P y -> P z -> P u ->
     le x y -> less y z = true -> le z u -> less x u = true) ->
  Merged less L R S ->
  Forall P L -> Forall P R ->
  StronglySorted le L -> StronglySorted le R ->
  List.filter E S = List.filter E (L ++ R).
Proof using le_refl.
  intros HE HT.
  induction 1 as [L R Hcat|L1 L2 R1 R2 S1 S2 Hcross Hcat HM1 IH1 HM2 IH2];
    intros HPL HPR HL HR; [done|].
  apply Forall_app in HPL as [HP1 HP2]. apply Forall_app in HPR as [HQ1 HQ2].
  apply sorted_app in HL as (HL1 & HL2 & HL12).
  apply sorted_app in HR as (HR1 & HR2 & HR12).
  rewrite !List.filter_app, IH1, IH2, !List.filter_app by done.
  rewrite <- !app_assoc. f_equal. rewrite !app_assoc. f_equal.
  destruct (List.filter E R1) as [|r0 fr] eqn:HfR; [by rewrite app_nil_r|].
  destruct (List.filter E L2) as [|l0 fl] eqn:HfL; [by rewrite app_nil_r|].
  exfalso.
  assert (In r0 (List.filter E R1)) as Hr0 by (rewrite HfR; by left).
  assert (In l0 (List.filter E L2)) as Hl0 by (rewrite HfL; by left).
  apply List.filter_In in Hr0 as [Hr0 Er0]. apply List.filter_In in Hl0 as [Hl0 El0].
  apply list_elem_of_In in Hr0, Hl0.
  destruct Hcross as [->|[->|(l & r & Hl & Hr & Hless)]];
    [by apply elem_of_nil in Hl0|by apply elem_of_nil in Hr0|].
  pose proof HP2 as HP2'. pose proof HQ1 as HQ1'.
  rewrite Forall_forall in HP2', HQ1'.
  assert (P r) as HPr.
  { apply HQ1'. apply last_Some in Hr as [l' ->]. apply elem_of_app. right.
    by apply list_elem_of_singleton. }
  assert (P l) as HPl.
  { apply HP2'. destruct L2; [done|]. injection Hl as ->. by apply elem_of_cons; left. }
  assert (less r0 l0 = true) as Hlt.
  { apply (HT r0 r l l0); auto.
    - by apply (sorted_last r R1).
    - by apply (sorted_head l L2). }
  rewrite HE in Hlt; auto. done.
Qed.
End MergeOrder.

(** ** The loops of [symMerge] on the runs they move *)

Section SwapLoops.
Context {A : Type}.
Local Open Scope list_scope.

Lemma Swap_apart (l1 : list A) (x : A) (l2 : list A) (y : A) (l3 : list A) :
  sort.Swap (length l1) (length l1 + S (length l2)) (l1 ++ x :: l2 ++ y :: l3)
  = (l1 ++ y :: l2 ++ x :: l3)%list.
Proof.
  unfold sort.Swap.
  rewrite list_lookup_middle by done.
  rewrite (lookup_app_r l1) by lia.
  replace (length l1 + S (length l2) - length l1)%nat with (S (length l2)) by lia.
  change ((x :: l2 ++ y :: l3) !! S (length l2)) with ((l2 ++ y :: l3) !! length l2).
  rewrite list_lookup_middle by done.
  rewrite (insert_app_r_alt l1) by lia. rewrite Nat.sub_diag.
  change (<[0%nat:=y]> (x :: l2 ++ y :: l3)) with (y :: l2 ++ y :: l3).
  rewrite (insert_app_r_alt l1) by lia.
  replace (length l1 + S (length l2) - length l1)%nat with (S (length l2)) by lia.
  change (<[S (length l2):=x]> (y :: l2 ++ y :: l3))
    with (y :: <[length l2:=x]> (l2 ++ y :: l3)).
  rewrite (insert_app_r_alt l2) by lia.
  rewrite Nat.sub_diag. done.
Qed.

Lemma Swap_comm (i j : nat) (data : list A) : sort.Swap i j data = sort.Swap j i data.
Proof.
  unfold sort.Swap.
  destruct (data !! i) as [x|] eqn:Hi, (data !! j) as [y|] eqn:Hj; try done.
  destruct (decide (i = j)) as [->|Hne].
  - rewrite Hi in Hj. by injection Hj as ->.
  - by rewrite list_insert_insert_ne.
Qed.

Lemma Swap_next (pre : list A) (x r : A) (post : list A) :
  sort.Swap (length pre) (length pre + 1) (pre ++ x :: r :: post)
  = (pre ++ r :: x :: post)%list.
Proof. exact (Swap_apart pre x [] r post). Qed.

Lemma foldl_ext {B C} (f g : B -> C -> B) (d : B) (l : list C) :
  (forall d x, f d x = g d x) -> foldl f d l = foldl g d l.
Proof.
  intros H. revert d. induction l as [|x l IH]; intros d; [done|].
  cbn [foldl]. by rewrite H, IH.
Qed.

Lemma foldl_seq_shift {B} (f : B -> nat -> B) (d : B) (k n : nat) :
  foldl f d (seq (S k) n) = foldl (fun d x => f d (S x)) d (seq k n).
Proof.
  revert d k. induction n as [|n IH]; intros d k; [done|].
  cbn [seq foldl]. apply IH.
Qed.

(** [for k := a; k < i-1; k++ { data.Swap(k, k+1) }]: the element at [a]
    goes behind the next [k] elements. *)
Lemma moveRight_spec (pre : list A) (x : A) (R1 post : list A) :
  foldl (fun d k => sort.Swap k (k + 1) d) (pre ++ x :: R1 ++ post)%list
        (seq (length pre) (length R1))
  = (pre ++ R1 ++ x :: post)%list.
Proof.
  revert pre. induction R1 as [|r R1 IH]; intros pre; [done|].
  cbn [length seq foldl app]. rewrite Swap_next.
  pose proof (IH (pre ++ [r])%list) as H.
  rewrite length_app in H. cbn [length] in H. rewrite Nat.add_1_r in H.
  rewrite <- !app_assoc in H. exact H.
Qed.

(** [for k := m; k > i; k-- { data.Swap(k, k-1) }]: the element at [m]
    goes before the [k] elements in front of it. *)
Lemma moveLeft_spec (pre L2 : list A) (y : A) (post : list A) (m : nat) :
  m = length (pre ++ L2) ->
  foldl (fun d x => sort.Swap (m - x) (m - x - 1) d) (pre ++ L2 ++ y :: post)%list
        (seq 0 (length L2))
  = (pre ++ y :: L2 ++ post)%list.
Proof.
  revert m post. induction L2 as [|l L2 IH] using rev_ind; intros m post Hm; [done|].
  rewrite length_app. cbn [length]. rewrite Nat.add_1_r. cbn [seq foldl].
  rewrite foldl_seq_shift.
  rewrite !length_app in Hm. cbn [length] in Hm.
  rewrite Nat.sub_0_r, Swap_comm.
  assert (m - 1 = length (pre ++ L2))%nat as Hm1 by (rewrite length_app; lia).
  replace (pre ++ (L2 ++ [l]) ++ y :: post)%list
    with ((pre ++ L2) ++ l :: y :: post)%list by (by rewrite <- !app_assoc).
  rewrite Hm1. replace m with (length (pre ++ L2) + 1)%nat by lia.
  rewrite Swap_next.
  rewrite (foldl_ext _ (fun d x => sort.Swap (length (pre ++ L2) - x)
                                  (length (pre ++ L2) - x - 1) d))
    by (intros d x; f_equal; lia).
  rewrite <- app_assoc.
  rewrite (IH (length (pre ++ L2)) (l :: post)) by done.
  by rewrite <- !app_assoc.
Qed.

(** [swapRange(data, a, b, n)] exchanges two runs of [n] elements. *)
Lemma swapRange_spec (pre X mid Y post : list A) :
  length X = length Y ->
  sort.swapRange (length pre) (length pre + length X + length mid) (length X)
                 (pre ++ X ++ mid ++ Y ++ post)
  = (pre ++ Y ++ mid ++ X ++ post)%list.
Proof.
  unfold sort.swapRange.
  revert pre mid Y. induction X as [|x X IH]; intros pre mid Y Hlen.
  - destruct Y; [done|done].
  - destruct Y as [|y Y]; [done|]. cbn [length] in *.
    cbn [seq foldl]. rewrite !Nat.add_0_r.
    replace (pre ++ (x :: X) ++ mid ++ (y :: Y) ++ post)%list
      with (pre ++ x :: (X ++ mid) ++ y :: Y ++ post)%list
      by (cbn [app]; by rewrite <- !app_assoc).
    replace (length pre + S (length X) + length mid)%nat
      with (length pre + S (length (X ++ mid)))%nat by (rewrite length_app; lia).
    rewrite Swap_apart. rewrite foldl_seq_shift.
    pose proof (IH (pre ++ [y])%list (mid ++ [x])%list Y ltac:(lia)) as H.
    rewrite !length_app in H. cbn [length] in H.
    rewrite (foldl_ext _ (fun d i => sort.Swap (length pre + 1 + i)
                        (length pre + 1 + length X + (length mid + 1) + i) d)).
    + replace (pre ++ y :: (X ++ mid) ++ x :: Y ++ post)%list
        with ((pre ++ [y]) ++ X ++ (mid ++ [x]) ++ Y ++ post)%list
        by (by rewrite <- !app_assoc).
      rewrite H. cbn [app]. by rewrite <- !app_assoc.
    + intros d i. rewrite length_app. f_equal; lia.
Qed.

(** The loop of [rotate] exchanges two neighbouring runs. *)
Lemma rotateLoop_spec (fuel m : nat) (pre X Y post : list A) :
  X <> [] -> Y <> [] -> (length X + length Y <= fuel)%nat ->
  m = length (pre ++ X) ->
  sort.rotateLoop fuel m (length X) (length Y) (pre ++ X ++ Y ++ post)
  = (pre ++ Y ++ X ++ post)%list.
Proof.
  revert pre X Y post.
  induction fuel as [|fuel IH]; intros pre X Y post HX HY Hfuel Hm.
  { destruct X; [done|]. cbn [length] in Hfuel. lia. }
  rewrite length_app in Hm.
  assert (0 < length X)%nat as HXp by (destruct X; [done|cbn [length]; lia]).
  assert (0 < length Y)%nat as HYp by (destruct Y; [done|cbn [length]; lia]).
  cbn [sort.rotateLoop].
  destruct (Nat.eqb_spec (length X) (length Y)) as [Heq|Hne].
  - replace (m - length X)%nat with (length pre) by lia.
    replace m with (length pre + length X + length (@nil A))%nat by (cbn [length]; lia).
    exact (swapRange_spec pre X [] Y post Heq).
  - destruct (Nat.ltb_spec (length Y) (length X)) as [Hlt|Hge].
    + (* the left run is longer *)
      assert (exists Xa Xb, X = Xa ++ Xb /\ length Xa = length Y /\ Xb <> [])
        as (Xa & Xb & -> & HXa & HXb).
      { exists (take (length Y) X), (drop (length Y) X). split; [by rewrite take_drop|].
        split; [rewrite length_take; lia|].
        intros E. apply (f_equal length) in E. rewrite length_drop in E.
        cbn [length] in E. lia. }
      rewrite length_app in *.
      assert (sort.swapRange (m - (length Xa + length Xb)) m (length Y)
                (pre ++ (Xa ++ Xb) ++ Y ++ post)
              = ((pre ++ Y) ++ Xb ++ Xa ++ post)) as ->.
      { replace (m - (length Xa + length Xb))%nat with (length pre) by lia.
        replace m with (length pre + length Xa + length Xb)%nat by lia.
        rewrite <- HXa, <- !app_assoc.
        by apply (swapRange_spec pre Xa Xb Y post). }
      replace (length Xa + length Xb - length Y)%nat with (length Xb) by lia.
      rewrite <- HXa.
      rewrite IH.
      * by rewrite <- !app_assoc.
      * done.
      * intros ->. cbn [length] in HXa. destruct Y; [done|]. done.
      * lia.
      * rewrite !length_app. lia.
    + (* the right run is longer *)
      assert (exists Yb Yc, Y = Yb ++ Yc /\ length Yc = length X /\ Yb <> [])
        as (Yb & Yc & -> & HYc & HYb).
      { exists (take (length Y - length X) Y), (drop (length Y - length X) Y).
        split; [by rewrite take_drop|].
        split; [rewrite length_drop; lia|].
        intros E. apply (f_equal length) in E. rewrite length_take in E.
        cbn [length] in E. lia. }
      rewrite length_app in *.
      assert (sort.swapRange (m - length X) (m + (length Yb + length Yc) - length X)
                (length X) (pre ++ X ++ (Yb ++ Yc) ++ post)
              = (pre ++ Yc ++ Yb ++ X ++ post)) as ->.
      { replace (m - length X)%nat with (length pre) by lia.
        replace (m + (length Yb + length Yc) - length X)%nat
          with (length pre + length X + length Yb)%nat by lia.
        rewrite <- !app_assoc.
        by apply (swapRange_spec pre X Yb Yc post). }
      replace (length Yb + length Yc - length X)%nat with (length Yb) by lia.
      rewrite <- HYc.
      rewrite IH.
      * by rewrite <- !app_assoc.
      * intros ->. cbn [length] in HYc. destruct X; [done|]. done.
      * done.
      * lia.
      * rewrite !length_app. lia.
Qed.

Lemma rotate_spec (a m b : nat) (pre X Y post : list A) :
  a = length pre -> m = (a + length X)%nat -> b = (m + length Y)%nat ->
  X <> [] -> Y <> [] ->
  sort.rotate a m b (pre ++ X ++ Y ++ post) = (pre ++ Y ++ X ++ post)%list.
Proof.
  intros -> -> -> HX HY. unfold sort.rotate.
  replace (length pre + length X - length pre)%nat with (length X) by lia.
  replace (length pre + length X + length Y - (length pre + length X))%nat
    with (length Y) by lia.
  apply rotateLoop_spec; try done; [lia|by rewrite length_app].
Qed.
End SwapLoops.

(** ** The binary searches of [symMerge] *)

Section MergeSteps.
Context {A : Type}.
Variable less : A -> A -> bool.
Local Open Scope list_scope.

Lemma half_bounds (i j : nat) :
  (i < j)%nat -> (i <= (i + j) / 2 < j)%nat.
Proof.
  intros H. split.
  - apply Nat.div_le_lower_bound; lia.
  - apply Nat.Div0.div_lt_upper_bound; lia.
Qed.

(** Each search returns a position of its range whose left neighbour
    sent the search right and which itself sent it left; this holds
    whether or not the runs are sorted. *)
Lemma searchHigh_bounds (fuel a i j : nat) (data : list A) :
  (i <= j)%nat -> (j - i < fuel)%nat ->
  let k := sort.searchHigh less fuel a i j data in
  (i <= k <= j)%nat
  /\ (k = i \/ sort.Less less data (k - 1) a = true)
  /\ (k = j \/ sort.Less less data k a = false).
Proof.
  revert i j. induction fuel as [|fuel IH]; intros i j Hij Hfuel; [lia|].
  cbn [sort.searchHigh].
  destruct (Nat.ltb_spec i j) as [Hlt|Hge]; [|cbn zeta; split; [lia|split; [by left|left; lia]]].
  pose proof (half_bounds i j Hlt) as Hh.
  destruct (sort.Less less data ((i + j) / 2) a) eqn:Hless; cbn zeta.
  - destruct (IH ((i + j) / 2 + 1)%nat j ltac:(lia) ltac:(lia)) as (Hk & Hlo & Hhi).
    split; [lia|]. split; [|done]. right.
    destruct Hlo as [->|Hlo]; [|done].
    by replace ((i + j) / 2 + 1 - 1)%nat with ((i + j) / 2)%nat by lia.
  - destruct (IH i ((i + j) / 2)%nat ltac:(lia) ltac:(lia)) as (Hk & Hlo & Hhi).
    split; [lia|]. split; [done|]. right.
    destruct Hhi as [->|Hhi]; done.
Qed.

Lemma searchLow_bounds (fuel m i j : nat) (data : list A) :
  (i <= j)%nat -> (j - i < fuel)%nat ->
  let k := sort.searchLow less fuel m i j data in
  (i <= k <= j)%nat
  /\ (k = i \/ sort.Less less data m (k - 1) = false)
  /\ (k = j \/ sort.Less less data m k = true).
Proof.
  revert i j. induction fuel as [|fuel IH]; intros i j Hij Hfuel; [lia|].
  cbn [sort.searchLow].
  destruct (Nat.ltb_spec i j) as [Hlt|Hge]; [|cbn zeta; split; [lia|split; [by left|left; lia]]].
  pose proof (half_bounds i j Hlt) as Hh.
  destruct (sort.Less less data m ((i + j) / 2)) eqn:Hless; cbn zeta; cbn [negb].
  - destruct (IH i ((i + j) / 2)%nat ltac:(lia) ltac:(lia)) as (Hk & Hlo & Hhi).
    split; [lia|]. split; [done|]. right.
    destruct Hhi as [->|Hhi]; done.
  - destruct (IH ((i + j) / 2 + 1)%nat j ltac:(lia) ltac:(lia)) as (Hk & Hlo & Hhi).
    split; [lia|]. split; [|done]. right.
    destruct Hlo as [->|Hlo]; [|done].
    by replace ((i + j) / 2 + 1 - 1)%nat with ((i + j) / 2)%nat by lia.
Qed.

Lemma searchSym_bounds (fuel p i j : nat) (data : list A) :
  (i <= j)%nat -> (j - i < fuel)%nat ->
  let k := sort.searchSym less fuel p i j data in
  (i <= k <= j)%nat
  /\ (k = i \/ sort.Less less data (p - (k - 1)) (k - 1) = false)
  /\ (k = j \/ sort.Less less data (p - k) k = true).
Proof.
  revert i j. induction fuel as [|fuel IH]; intros i j Hij Hfuel; [lia|].
  cbn [sort.searchSym].
  destruct (Nat.ltb_spec i j) as [Hlt|Hge]; [|cbn zeta; split; [lia|split; [by left|left; lia]]].
  pose proof (half_bounds i j Hlt) as Hh.
  destruct (sort.Less less data (p - (i + j) / 2) ((i + j) / 2)) eqn:Hless;
    cbn zeta; cbn [negb].
  - destruct (IH i ((i + j) / 2)%nat ltac:(lia) ltac:(lia)) as (Hk & Hlo & Hhi).
    split; [lia|]. split; [done|]. right.
    destruct Hhi as [->|Hhi]; done.
  - destruct (IH ((i + j) / 2 + 1)%nat j ltac:(lia) ltac:(lia)) as (Hk & Hlo & Hhi).
    split; [lia|]. split; [|done]. right.
    destruct Hlo as [->|Hlo]; [|done].
    by replace ((i + j) / 2 + 1 - 1)%nat with ((i + j) / 2)%nat by lia.
Qed.

(** Comparing two positions of a list cut at both. *)
Lemma Less_apart (l1 : list A) (u : A) (l2 : list A) (v : A) (l3 : list A) (i j : nat) :
  i = length l1 -> j = (length l1 + S (length l2))%nat ->
  sort.Less less (l1 ++ u :: l2 ++ v :: l3) i j = less u v
  /\ sort.Less less (l1 ++ u :: l2 ++ v :: l3) j i = less v u.
Proof.
  intros -> ->. unfold sort.Less.
  rewrite list_lookup_middle by done.
  rewrite (lookup_app_r l1) by lia.
  replace (length l1 + S (length l2) - length l1)%nat with (S (length l2)) by lia.
  change ((u :: l2 ++ v :: l3) !! S (length l2)) with ((l2 ++ v :: l3) !! length l2).
  rewrite list_lookup_middle by done. done.
Qed.

Lemma Merged_length (L R S : list A) :
  Merged less L R S -> length S = (length L + length R)%nat.
Proof.
  induction 1 as [L R _|L1 L2 R1 R2 S1 S2 _ _ _ IH1 _ IH2].
  - by rewrite length_app.
  - rewrite !length_app, IH1, IH2. lia.
Qed.

Lemma split_at (n : nat) (l : list A) :
  (n <= length l)%nat -> exists l1 l2, l = l1 ++ l2 /\ length l1 = n.
Proof.
  intros H. exists (take n l), (drop n l). split; [by rewrite take_drop|].
  rewrite length_take. lia.
Qed.

Lemma nonempty_length (l : list A) : l <> [] <-> (0 < length l)%nat.
Proof. destruct l; cbn [length]; split; (done || lia). Qed.

Lemma last_snoc_inv (l : list A) : l <> [] -> exists l' x, l = l' ++ [x].
Proof.
  destruct l as [|x l] using rev_ind; [done|]. intros _. by exists l, x.
Qed.

(** One element on the left: it goes behind the elements of the right
    run that are less than it. *)
Lemma symMerge_left_one (fuel a m b : nat) (pre : list A) (x : A) (R post : list A) :
  a = length pre -> m = (a + 1)%nat -> b = (m + length R)%nat -> R <> [] ->
  exists M, sort.symMerge less (S fuel) a m b (pre ++ [x] ++ R ++ post) = pre ++ M ++ post
            /\ Merged less [x] R M.
Proof.
  intros Ha Hm Hb HR. cbn [sort.symMerge].
  replace (m - a =? 1)%nat with true by (symmetry; apply Nat.eqb_eq; lia).
  pose proof (searchHigh_bounds (S (b - m)) a m b (pre ++ [x] ++ R ++ post)
                ltac:(lia) ltac:(lia)) as (Hk & Hlo & Hhi).
  cbn zeta in *.
  set (i := sort.searchHigh less (S (b - m)) a m b (pre ++ [x] ++ R ++ post)) in *.
  clearbody i.
  destruct (split_at (i - m) R ltac:(lia)) as (R1 & R2 & -> & HR1).
  rewrite length_app in Hb.
  exists (R1 ++ x :: R2). split.
  - replace (i - 1 - a)%nat with (length R1) by lia. rewrite Ha.
    replace (pre ++ [x] ++ (R1 ++ R2) ++ post) with (pre ++ x :: R1 ++ (R2 ++ post))
      by (cbn [app]; by rewrite <- !app_assoc).
    rewrite moveRight_spec. by rewrite <- !app_assoc.
  - apply (Merged_split less [] [x] R1 R2 R1 ([x] ++ R2)).
    + (* the last element passed is less than x *)
      destruct (decide (R1 = [])) as [->|HR1n]; [right; by left|]. right. right.
      destruct (last_snoc_inv R1 HR1n) as (R1' & r & ->).
      rewrite length_app in HR1. cbn [length] in HR1.
      destruct Hlo as [->|Hlo]; [lia|].
      exists x, r. split; [done|]. split; [by rewrite last_snoc|].
      rewrite <- Hlo.
      replace (pre ++ [x] ++ ((R1' ++ [r]) ++ R2) ++ post)
        with (pre ++ x :: R1' ++ r :: (R2 ++ post))
        by (cbn [app]; by rewrite <- !app_assoc).
      symmetry. apply Less_apart; lia.
    + by left.
    + apply (Merged_cat less [] R1). by left.
    + apply Merged_cat.
      destruct R2 as [|r R2]; [right; by left|]. right. right.
      cbn [length] in Hb.
      destruct Hhi as [->|Hhi]; [lia|].
      exists x, r. split; [done|]. split; [done|].
      rewrite <- Hhi.
      replace (pre ++ [x] ++ (R1 ++ r :: R2) ++ post)
        with (pre ++ x :: R1 ++ r :: (R2 ++ post))
        by (cbn [app]; by rewrite <- !app_assoc).
      symmetry. apply Less_apart; lia.
Qed.

(** One element on the right: it goes before the elements of the left
    run that are greater than it. *)
Lemma symMerge_right_one (fuel a m b : nat) (pre L : list A) (y : A) (post : list A) :
  a = length pre -> m = (a + length L)%nat -> b = (m + 1)%nat ->
  (2 <= length L)%nat ->
  exists M, sort.symMerge less (S fuel) a m b (pre ++ L ++ [y] ++ post) = pre ++ M ++ post
            /\ Merged less L [y] M.
Proof.
  intros Ha Hm Hb HL. cbn [sort.symMerge].
  replace (m - a =? 1)%nat with false by (symmetry; apply Nat.eqb_neq; lia).
  replace (b - m =? 1)%nat with true by (symmetry; apply Nat.eqb_eq; lia).
  pose proof (searchLow_bounds (S (m - a)) m a m (pre ++ L ++ [y] ++ post)
                ltac:(lia) ltac:(lia)) as (Hk & Hlo & Hhi).
  cbn zeta in *.
  set (i := sort.searchLow less (S (m - a)) m a m (pre ++ L ++ [y] ++ post)) in *.
  clearbody i.
  destruct (split_at (i - a) L ltac:(lia)) as (L1 & L2 & -> & HL1).
  rewrite length_app in Hm, HL.
  exists (L1 ++ y :: L2). split.
  - replace (m - i)%nat with (length L2) by lia.
    replace (pre ++ (L1 ++ L2) ++ [y] ++ post) with ((pre ++ L1) ++ L2 ++ y :: post)
      by (cbn [app]; by rewrite <- !app_assoc).
    rewrite moveLeft_spec by (rewrite !length_app; lia). by rewrite <- !app_assoc.
  - replace (L1 ++ y :: L2) with ((L1 ++ [y]) ++ (L2 ++ []))
      by (rewrite app_nil_r, <- app_assoc; done).
    replace [y] with ([y] ++ []) at 1 by done.
    apply Merged_split.
    + (* the element behind y is greater *)
      destruct L2 as [|l L2]; [by left|]. right. right.
      cbn [length] in Hm.
      destruct Hhi as [->|Hhi]; [lia|].
      exists l, y. split; [done|]. split; [done|].
      rewrite <- Hhi.
      replace (pre ++ (L1 ++ l :: L2) ++ [y] ++ post)
        with ((pre ++ L1) ++ l :: L2 ++ y :: post)
        by (cbn [app]; by rewrite <- !app_assoc).
      symmetry. apply Less_apart; rewrite length_app; lia.
    + right. by left.
    + apply Merged_cat.
      destruct (decide (L1 = [])) as [->|HL1n]; [by left|]. right. right.
      destruct (last_snoc_inv L1 HL1n) as (L1' & l & ->).
      rewrite length_app in HL1, Hm. cbn [length] in HL1, Hm.
      destruct Hlo as [->|Hlo]; [lia|].
      exists l, y. split; [by rewrite last_snoc|]. split; [done|].
      rewrite <- Hlo.
      replace (pre ++ ((L1' ++ [l]) ++ L2) ++ [y] ++ post)
        with ((pre ++ L1') ++ l :: L2 ++ y :: post)
        by (cbn [app]; by rewrite <- !app_assoc).
      symmetry. apply Less_apart; rewrite length_app; lia.
    + apply Merged_cat. right. by left.
Qed.

(** The general case of [symMerge_func], one step at a time. *)
Lemma symMerge_general (k a m b : nat) (data : list A)
    (mid start0 r0 st end_ : nat) (data1 data2 : list A) :
  (m - a)%nat <> 1%nat -> (b - m)%nat <> 1%nat ->
  mid = ((a + b) / 2)%nat ->
  (if (mid <? m)%nat then ((mid + m - b)%nat, mid) else (a, m)) = (start0, r0) ->
  st = sort.searchSym less (S (r0 - start0)) (mid + m - 1) start0 r0 data ->
  end_ = (mid + m - st)%nat ->
  data1 = (if (st <? m)%nat && (m <? end_)%nat then sort.rotate st m end_ data else data) ->
  data2 = (if (a <? st)%nat && (st <? mid)%nat
           then sort.symMerge less k a st mid data1 else data1) ->
  sort.symMerge less (S k) a m b data
  = if (mid <? end_)%nat && (end_ <? b)%nat
    then sort.symMerge less k mid end_ b data2 else data2.
Proof.
  intros H1 H2 -> Hp -> -> -> ->. cbn [sort.symMerge].
  apply Nat.eqb_neq in H1, H2. rewrite H1, H2. cbn zeta.
  destruct ((a + b) / 2 <? m)%nat; injection Hp as <- <-; reflexivity.
Qed.

(** [symMerge_func] merges two neighbouring runs and leaves the rest of
    the list alone. *)
Lemma symMerge_Merged (fuel : nat) :
  forall (a m b : nat) (pre L R post : list A),
  a = length pre -> m = (a + length L)%nat -> b = (m + length R)%nat ->
  L <> [] -> R <> [] -> (b - a <= fuel)%nat ->
  exists M, sort.symMerge less fuel a m b (pre ++ L ++ R ++ post) = pre ++ M ++ post
            /\ Merged less L R M.
Proof.
  induction fuel as [|fuel IH]; intros a m b pre L R post Ha Hm Hb HL HR Hfuel;
    apply nonempty_length in HL, HR; [lia|].
  destruct (decide (length L = 1%nat)) as [HL1|HL1].
  { destruct L as [|x [|? ?]]; try done.
    apply symMerge_left_one; try done. by apply nonempty_length. }
  destruct (decide (length R = 1%nat)) as [HR1|HR1].
  { destruct R as [|y [|? ?]]; try done.
    apply symMerge_right_one; try done. lia. }
  assert (2 <= length L)%nat as HL2 by lia.
  assert (2 <= length R)%nat as HR2 by lia.
  assert ((m - a)%nat <> 1%nat) as Hne1 by lia.
  assert ((b - m)%nat <> 1%nat) as Hne2 by lia.
  clear HL HR HL1 HR1.
  remember ((a + b) / 2)%nat as mid eqn:Emid.
  assert (2 * mid <= a + b < 2 * mid + 2)%nat as Hmid.
  { subst mid. pose proof (Nat.div_mod_eq (a + b) 2).
    pose proof (Nat.mod_upper_bound (a + b) 2). lia. }
  assert (exists start0 r0,
    (if (mid <? m)%nat then ((mid + m - b)%nat, mid) else (a, m)) = (start0, r0)
    /\ (a <= start0 <= r0)%nat /\ (r0 <= m)%nat /\ (r0 <= mid)%nat
    /\ (mid + m <= start0 + b)%nat
    /\ (r0 = m \/ r0 = mid)
    /\ (start0 = a \/ (start0 + b)%nat = (mid + m)%nat))
    as (start0 & r0 & Hp & Hs0 & Hr0m & Hr0mid & Hs0b & Hr0 & Hst0).
  { destruct (Nat.ltb_spec mid m); eexists _, _; (split; [reflexivity|lia]). }
  pose proof (searchSym_bounds (S (r0 - start0)) (mid + m - 1) start0 r0
                (pre ++ L ++ R ++ post) ltac:(lia) ltac:(lia)) as (Hk & Hlo & Hhi).
  cbn zeta in Hk, Hlo, Hhi.
  remember (sort.searchSym less (S (r0 - start0)) (mid + m - 1) start0 r0
              (pre ++ L ++ R ++ post)) as st eqn:Hst.
  remember (mid + m - st)%nat as end_ eqn:Hend.
  assert (end_ + st = mid + m)%nat as Hes by lia.
  assert (Hlo' : st = start0 \/
            sort.Less less (pre ++ L ++ R ++ post) end_ (st - 1) = false).
  { destruct Hlo as [E|Hlo]; [by left|].
    destruct (decide (st = 0%nat)) as [E0|E0]; [left; lia|].
    right. by replace end_ with (mid + m - 1 - (st - 1))%nat by (clear - Hes E0; lia). }
  assert (Hhi' : st = r0 \/
            sort.Less less (pre ++ L ++ R ++ post) (end_ - 1) st = true).
  { destruct Hhi as [E|Hhi]; [by left|]. right.
    by replace (end_ - 1)%nat with (mid + m - 1 - st)%nat by (clear - Hes; lia). }
  clear Hlo Hhi.
  destruct (split_at (st - a) L ltac:(clear - Hm Hk Hr0m; lia))
    as (L1 & L2 & EL & HL1len).
  destruct (split_at (end_ - m) R ltac:(clear - Hb Hes Hk Hs0b; lia))
    as (R1 & R2 & ER & HR1len).
  assert (a <= st <= m)%nat as Hast by (clear - Hs0 Hk Hr0m; lia).
  assert (m <= end_ <= b)%nat as Hmeb by (clear - Hes Hk Hr0mid Hs0b; lia).
  assert (a + length L1 = st)%nat as HL1 by (clear - HL1len Hast; lia).
  assert (m + length R1 = end_)%nat as HR1 by (clear - HR1len Hmeb; lia).
  assert (st + length L2 = m)%nat as HL2len
    by (rewrite EL, length_app in Hm; clear - Hm HL1; lia).
  assert (end_ + length R2 = b)%nat as HR2len
    by (rewrite ER, length_app in Hb; clear - Hb HR1; lia).
  assert (a + 2 <= m)%nat as Ham by (clear - Hm HL2; lia).
  assert (m + 2 <= b)%nat as Hmb by (clear - Hb HR2; lia).
  clear HL1len HR1len Hm Hb HL2 HR2.
  assert (crossOK less L2 R1) as Hcross.
  { destruct L2 as [|l L2]; [by left|].
    destruct (decide (R1 = [])) as [->|HR1n]; [right; by left|]. right. right.
    destruct (last_snoc_inv R1 HR1n) as (R1' & r & ->).
    rewrite length_app in HR1. cbn [length] in HR1, HL2len.
    destruct Hhi' as [E|Hhi]; [clear - E Hr0 HR1 HL2len Hes; lia|].
    exists l, r. split; [done|]. split; [by rewrite last_snoc|].
    rewrite <- Hhi, EL, ER.
    replace (pre ++ (L1 ++ l :: L2) ++ ((R1' ++ [r]) ++ R2) ++ post)
      with ((pre ++ L1) ++ l :: (L2 ++ R1') ++ r :: (R2 ++ post))
      by (cbn [app]; by rewrite <- !app_assoc).
    symmetry. apply Less_apart; rewrite !length_app; clear - Ha HL1 HR1 HL2len; lia. }
  assert (catOK less L1 R2) as Hcat.
  { destruct R2 as [|r R2]; [right; by left|].
    destruct (decide (L1 = [])) as [->|HL1n]; [by left|]. right. right.
    destruct (last_snoc_inv L1 HL1n) as (L1' & l & ->).
    rewrite length_app in HL1. cbn [length] in HL1, HR2len.
    destruct Hlo' as [E|Hlo]; [clear - E Hst0 HL1 HR2len Hes; lia|].
    exists l, r. split; [by rewrite last_snoc|]. split; [done|].
    rewrite <- Hlo, EL, ER.
    replace (pre ++ ((L1' ++ [l]) ++ L2) ++ (R1 ++ r :: R2) ++ post)
      with ((pre ++ L1') ++ l :: (L2 ++ R1) ++ r :: (R2 ++ post))
      by (cbn [app]; by rewrite <- !app_assoc).
    symmetry. apply Less_apart; rewrite !length_app; clear - Ha HL1 HR1 HL2len; lia. }
  clear Hlo' Hhi'.
  assert ((if (st <? m)%nat && (m <? end_)%nat
           then sort.rotate st m end_ (pre ++ L ++ R ++ post)
           else pre ++ L ++ R ++ post)
          = pre ++ L1 ++ R1 ++ L2 ++ R2 ++ post) as Hd1.
  { rewrite EL, ER.
    destruct (Nat.ltb_spec st m) as [H1|H1], (Nat.ltb_spec m end_) as [H2|H2];
      cbn [andb].
    - replace (pre ++ (L1 ++ L2) ++ (R1 ++ R2) ++ post)
        with ((pre ++ L1) ++ L2 ++ R1 ++ (R2 ++ post)) by (by rewrite <- !app_assoc).
      rewrite (rotate_spec st m end_ (pre ++ L1) L2 R1 (R2 ++ post)).
      + by rewrite <- !app_assoc.
      + rewrite length_app. clear - Ha HL1. lia.
      + clear - HL2len. lia.
      + clear - HR1. lia.
      + apply nonempty_length. clear - H1 HL2len. lia.
      + apply nonempty_length. clear - H2 HR1. lia.
    - destruct R1; [|cbn [length] in HR1; clear - H2 HR1; lia]. by rewrite <- !app_assoc.
    - destruct L2; [|cbn [length] in HL2len; clear - H1 HL2len; lia].
      by rewrite !app_nil_r, <- !app_assoc.
    - destruct R1; [|cbn [length] in HR1; clear - H2 HR1; lia]. by rewrite <- !app_assoc. }
  assert (exists S1,
    (if (a <? st)%nat && (st <? mid)%nat
     then sort.symMerge less fuel a st mid (pre ++ L1 ++ R1 ++ L2 ++ R2 ++ post)
     else pre ++ L1 ++ R1 ++ L2 ++ R2 ++ post)
    = pre ++ S1 ++ L2 ++ R2 ++ post /\ Merged less L1 R1 S1) as (S1 & Hd2 & HM1).
  { destruct (Nat.ltb_spec a st) as [H1|H1], (Nat.ltb_spec st mid) as [H2|H2];
      cbn [andb].
    - apply IH.
      + done.
      + clear - HL1. lia.
      + clear - HR1 Hes. lia.
      + apply nonempty_length. clear - H1 HL1. lia.
      + apply nonempty_length. clear - H2 HR1 Hes. lia.
      + clear - Hfuel Hmid Ham Hmb. lia.
    - exists (L1 ++ R1). split; [by rewrite <- !app_assoc|].
      apply Merged_cat. right. left.
      destruct R1; [done|cbn [length] in HR1; clear - H2 HR1 Hes; lia].
    - exists (L1 ++ R1). split; [by rewrite <- !app_assoc|].
      apply Merged_cat. left.
      destruct L1; [done|cbn [length] in HL1; clear - H1 HL1; lia].
    - exists (L1 ++ R1). split; [by rewrite <- !app_assoc|].
      apply Merged_cat. left.
      destruct L1; [done|cbn [length] in HL1; clear - H1 HL1; lia]. }
  pose proof (Merged_length _ _ _ HM1) as HS1len.
  assert (exists S2,
    (if (mid <? end_)%nat && (end_ <? b)%nat
     then sort.symMerge less fuel mid end_ b (pre ++ S1 ++ L2 ++ R2 ++ post)
     else pre ++ S1 ++ L2 ++ R2 ++ post)
    = pre ++ S1 ++ S2 ++ post /\ Merged less L2 R2 S2) as (S2 & Hd3 & HM2).
  { destruct (Nat.ltb_spec mid end_) as [H1|H1], (Nat.ltb_spec end_ b) as [H2|H2];
      cbn [andb].
    - destruct (IH mid end_ b (pre ++ S1) L2 R2 post) as (S2 & E & HM).
      + rewrite length_app. clear - Ha HS1len HL1 HR1 Hes. lia.
      + clear - HL2len Hes. lia.
      + clear - HR2len. lia.
      + apply nonempty_length. clear - H1 HL2len Hes. lia.
      + apply nonempty_length. clear - H2 HR2len. lia.
      + clear - Hfuel Hmid Ham Hmb. lia.
      + exists S2. split; [|done]. rewrite <- !app_assoc in E. exact E.
    - exists (L2 ++ R2). split; [by rewrite <- !app_assoc|].
      apply Merged_cat. right. left.
      destruct R2; [done|cbn [length] in HR2len; clear - H2 HR2len; lia].
    - exists (L2 ++ R2). split; [by rewrite <- !app_assoc|].
      apply Merged_cat. left.
      destruct L2; [done|cbn [length] in HL2len; clear - H1 HL2len Hes; lia].
    - exists (L2 ++ R2). split; [by rewrite <- !app_assoc|].
      apply Merged_cat. left.
      destruct L2; [done|cbn [length] in HL2len; clear - H1 HL2len Hes; lia]. }
  exists (S1 ++ S2). split.
  - rewrite (symMerge_general fuel a m b (pre ++ L ++ R ++ post) mid start0 r0 st end_
               (pre ++ L1 ++ R1 ++ L2 ++ R2 ++ post)
               (pre ++ S1 ++ L2 ++ R2 ++ post)).
    + rewrite Hd3. by rewrite <- !app_assoc.
    + exact Hne1.
    + exact Hne2.
    + exact Emid.
    + exact Hp.
    + exact Hst.
    + exact Hend.
    + symmetry. exact Hd1.
    + symmetry. exact Hd2.
  - rewrite EL, ER. by apply Merged_split.
Qed.
End MergeSteps.

(** ** The insertion sort of a block and the passes over the blocks *)

Section InsertionAt.
Context {A : Type}.
Variable less : A -> A -> bool.
Local Open Scope list_scope.

Lemma insertDown_at (a : nat) (front pre : list A) (x : A) (post : list A) :
  a = length front ->
  sort.insertDown less a (a + length pre) (front ++ pre ++ x :: post)
  = front ++ rev (placeRev less x (rev pre)) ++ post.
Proof.
  intros ->. revert post. induction pre as [|y pre IH] using rev_ind; intros post.
  - cbn [length rev placeRev app]. rewrite Nat.add_0_r.
    destruct front as [|f front]; [done|]. cbn [length sort.insertDown].
    by rewrite Nat.ltb_irrefl.
  - rewrite length_app. cbn [length].
    replace (length front + (length pre + 1))%nat with (S (length (front ++ pre)))
      by (rewrite length_app; lia).
    cbn [sort.insertDown].
    replace (length front <? S (length (front ++ pre)))%nat with true
      by (symmetry; apply Nat.ltb_lt; rewrite length_app; lia).
    cbn [andb].
    replace (front ++ (pre ++ [y]) ++ x :: post)
      with ((front ++ pre) ++ y :: x :: post) by (by rewrite <- !app_assoc).
    rewrite Less_middle, rev_app_distr. cbn [rev app placeRev].
    destruct (less x y).
    + rewrite Swap_middle, <- app_assoc, length_app, (IH (y :: post)).
      cbn [rev]. by rewrite <- !app_assoc.
    + cbn [rev]. rewrite rev_involutive. by rewrite <- !app_assoc.
Qed.

Lemma insertionLoop_at (a : nat) (front done_ rest post : list A) :
  a = length front ->
  foldl (fun d i => sort.insertDown less a i d) (front ++ done_ ++ rest ++ post)
        (seq (a + length done_) (length rest))
  = front ++ rev (isortRev less (rev done_) rest) ++ post.
Proof.
  intros Ha. unfold isortRev. revert done_.
  induction rest as [|x rest IH]; intros done_.
  - cbn [length seq foldl app]. by rewrite rev_involutive.
  - cbn [length seq foldl].
    replace (front ++ done_ ++ (x :: rest) ++ post)
      with (front ++ done_ ++ x :: (rest ++ post)) by done.
    rewrite insertDown_at by done.
    pose proof (IH (rev (placeRev less x (rev done_)))) as H.
    rewrite length_rev, placeRev_length, length_rev, rev_involutive in H.
    rewrite Nat.add_succ_r in H. exact H.
Qed.

(** [insertionSort_func(data, a, b)] sorts the block [data[a:b]] by
    insertion and leaves the rest alone. *)
Lemma insertionSort_at (a b : nat) (front blk post : list A) :
  a = length front -> b = (a + length blk)%nat ->
  sort.insertionSort less a b (front ++ blk ++ post)
  = front ++ rev (isortRev less [] blk) ++ post.
Proof.
  intros Ha Hb. unfold sort.insertionSort.
  destruct blk as [|x0 rest].
  - replace (b - (a + 1))%nat with 0%nat by (cbn [length] in Hb; lia). done.
  - cbn [length] in Hb. replace (b - (a + 1))%nat with (length rest) by lia.
    exact (insertionLoop_at a front [x0] rest post Ha).
Qed.
End InsertionAt.

Section StableSort.
Context {A : Type}.
Variable less : A -> A -> bool.
Variable P : A -> Prop.
Variable le : A -> A -> Prop.
Hypothesis le_refl : forall x, P x -> le x x.
Hypothesis le_trans : forall x y z, P x -> P y -> P z -> le x y -> le y z -> le x z.
Hypothesis less_le : forall x y, P x -> P y -> less x y = true -> le x y.
Hypothesis nless_le : forall x y, P x -> P y -> less x y = false -> le y x.
Local Open Scope list_scope.

Lemma sorted_rev (r : list A) :
  StronglySorted (fun a b => le b a) r -> StronglySorted le (rev r).
Proof.
  induction 1 as [|y r Hs IH Hy]; [constructor|].
  cbn [rev]. apply sorted_app. split; [done|]. split; [repeat constructor|].
  intros x z Hx Hz. apply list_elem_of_singleton in Hz as ->.
  rewrite Forall_forall in Hy. apply Hy.
  apply list_elem_of_In. apply in_rev. by apply list_elem_of_In.
Qed.

Lemma isort_sorted (blk : list A) :
  Forall P blk -> StronglySorted le (rev (isortRev less [] blk)).
Proof using le_trans less_le nless_le.
  intros HP. apply sorted_rev.
  apply (isortRev_sorted less P (fun a b => le b a)); [| | |done].
  - intros a b c Ha Hb Hc Hab Hbc. by apply (le_trans c b a).
  - intros a b Ha Hb. by apply less_le.
  - intros a b Ha Hb. by apply nless_le.
Qed.

Lemma isort_stable (blk : list A) :
  stableOn less (rev (isortRev less [] blk)) blk.
Proof.
  intros E HE. rewrite List.filter_rev, isortRev_filter by done.
  cbn [List.filter]. by rewrite app_nil_r, rev_involutive.
Qed.

Lemma isort_Forall (blk : list A) :
  Forall P blk -> Forall P (rev (isortRev less [] blk)).
Proof.
  intros HP. apply Forall_rev. by apply isortRev_Forall.
Qed.

Lemma isort_length (blk : list A) :
  length (rev (isortRev less [] blk)) = length blk.
Proof. by rewrite length_rev, isortRev_length. Qed.

Lemma Blocks_short (bs : nat) (l : list A) :
  Blocks le bs l -> (length l <= bs)%nat -> StronglySorted le l.
Proof.
  intros [l0 _ Hs|b rest Hb Hs Hrest] Hlen; [done|].
  rewrite length_app in Hlen.
  destruct rest; [by rewrite app_nil_r|cbn [length] in Hlen; lia].
Qed.

Lemma Blocks_uncons (bs : nat) (l : list A) :
  Blocks le bs l -> (bs <= length l)%nat ->
  exists b rest, l = b ++ rest /\ length b = bs /\ StronglySorted le b
                 /\ Blocks le bs rest.
Proof.
  intros [l0 Hl Hs|b rest Hb Hs Hrest] Hlen.
  - exists l0, []. rewrite app_nil_r. split; [done|]. split; [lia|]. split; [done|].
    apply Blocks_last; [cbn [length]; lia|constructor].
  - by exists b, rest.
Qed.

(** The first loop of [stable_func] leaves sorted blocks. *)
Lemma sortBlocks_spec (fuel bs : nat) :
  (0 < bs)%nat ->
  forall (a n : nat) (front rest : list A),
  a = length front -> n = (a + length rest)%nat -> (length rest < fuel)%nat ->
  Forall P rest ->
  exists rest',
    sort.sortBlocks less fuel bs a n (front ++ rest) = front ++ rest'
    /\ Blocks le bs rest' /\ Forall P rest' /\ length rest' = length rest
    /\ stableOn less rest' rest.
Proof using le_trans less_le nless_le.
  intros Hbs. induction fuel as [|fuel IH]; intros a n front rest Ha Hn Hfuel HP; [lia|].
  cbn [sort.sortBlocks].
  destruct (Nat.leb_spec (a + bs) n) as [Hle|Hgt].
  - destruct (split_at bs rest ltac:(lia)) as (blk & rest2 & -> & Hblk).
    apply Forall_app in HP as [HP1 HP2]. rewrite length_app in Hn, Hfuel.
    rewrite (insertionSort_at less a (a + bs) front blk rest2) by (done || lia).
    destruct (IH (a + bs)%nat n (front ++ rev (isortRev less [] blk)) rest2)
      as (rest2' & E & HB & HP' & Hlen & Hst).
    + rewrite length_app, isort_length. lia.
    + lia.
    + lia.
    + done.
    + exists (rev (isortRev less [] blk) ++ rest2').
      rewrite <- !app_assoc in E. split; [done|].
      split; [apply Blocks_cons; [by rewrite isort_length|by apply isort_sorted|done]|].
      split; [apply Forall_app; split; [by apply isort_Forall|done]|].
      split; [rewrite !length_app, isort_length; lia|].
      intros F HF. rewrite !List.filter_app. f_equal; [by apply isort_stable|by apply Hst].
  - exists (rev (isortRev less [] rest)).
    pose proof (insertionSort_at less a n front rest [] Ha Hn) as E.
    rewrite !app_nil_r in E. split; [done|].
    split; [apply Blocks_last; [rewrite isort_length; lia|by apply isort_sorted]|].
    split; [by apply isort_Forall|]. split; [apply isort_length|apply isort_stable].
Qed.

(** One pass of the second loop doubles the length of the sorted blocks. *)
Lemma mergePass_spec (fuel bs : nat) :
  (0 < bs)%nat ->
  forall (a n : nat) (front rest : list A),
  a = length front -> n = (a + length rest)%nat -> (length rest < fuel)%nat ->
  Forall P rest -> Blocks le bs rest ->
  exists rest',
    sort.mergePass less fuel bs a n (front ++ rest) = front ++ rest'
    /\ Blocks le (2 * bs) rest' /\ Forall P rest' /\ length rest' = length rest
    /\ (respects less P le -> stableOn less rest' rest).
Proof using le_refl le_trans less_le nless_le.
  intros Hbs. induction fuel as [|fuel IH];
    intros a n front rest Ha Hn Hfuel HP HB; [lia|].
  cbn [sort.mergePass].
  destruct (Nat.leb_spec (a + 2 * bs) n) as [Hle|Hgt].
  - (* two whole blocks *)
    destruct (Blocks_uncons bs rest HB ltac:(lia)) as (B1 & rest1 & -> & HB1 & Hs1 & HBr).
    rewrite length_app in Hn, Hfuel.
    destruct (Blocks_uncons bs rest1 HBr ltac:(lia))
      as (B2 & rest2 & -> & HB2 & Hs2 & HBr2).
    rewrite length_app in Hn, Hfuel.
    apply Forall_app in HP as [HP1 HP]. apply Forall_app in HP as [HP2 HP3].
    destruct (symMerge_Merged less (2 * bs) a (a + bs) (a + 2 * bs) front B1 B2 rest2)
      as (M & EM & HM); [done|lia|lia|apply nonempty_length; lia
                        |apply nonempty_length; lia|lia|].
    rewrite EM.
    pose proof (Merged_length less _ _ _ HM) as HMlen.
    assert (Forall P M) as HPM.
    { rewrite (Merged_perm less _ _ _ HM). by apply Forall_app. }
    destruct (IH (a + 2 * bs)%nat n (front ++ M) rest2)
      as (rest2' & E & HB' & HP' & Hlen & Hst).
    + rewrite length_app. lia.
    + lia.
    + lia.
    + done.
    + done.
    + exists (M ++ rest2'). rewrite <- !app_assoc in E. split; [done|].
      split.
      { apply Blocks_cons; [lia| |done].
        by apply (Merged_sorted less P le le_refl le_trans less_le nless_le B1 B2 M). }
      split; [by apply Forall_app|].
      split; [rewrite !length_app; lia|].
      intros HT F HF. rewrite app_assoc, !List.filter_app. f_equal; [|by apply Hst].
      rewrite <- List.filter_app.
      apply (Merged_stable less P le le_refl F B1 B2 M); try done.
      intros x y _ _. apply HF.
  - destruct (Nat.ltb_spec (a + bs) n) as [Hlt|Hge].
    + (* a whole block and a shorter one *)
      destruct (Blocks_uncons bs rest HB ltac:(lia)) as (B1 & B2 & -> & HB1 & Hs1 & HBr).
      rewrite length_app in Hn, Hfuel.
      apply Forall_app in HP as [HP1 HP2].
      pose proof (Blocks_short bs B2 HBr ltac:(lia)) as Hs2.
      destruct (symMerge_Merged less (n - a) a (a + bs) n front B1 B2 [])
        as (M & EM & HM); [done|lia|lia|apply nonempty_length; lia
                          |apply nonempty_length; lia|lia|].
      rewrite !app_nil_r in EM. rewrite EM.
      pose proof (Merged_length less _ _ _ HM) as HMlen.
      exists M. split; [done|].
      split.
      { apply Blocks_last; [lia|].
        by apply (Merged_sorted less P le le_refl le_trans less_le nless_le B1 B2 M). }
      split; [rewrite (Merged_perm less _ _ _ HM); by apply Forall_app|].
      split; [rewrite length_app; lia|].
      intros HT F HF.
      apply (Merged_stable less P le le_refl F B1 B2 M); try done.
      intros x y _ _. apply HF.
    + exists rest. split; [done|].
      split; [apply Blocks_last; [lia|apply (Blocks_short bs); [done|lia]]|].
      split; [done|]. split; [done|]. by intros _ F HF.
Qed.

(** The second loop ends with one sorted block. *)
Lemma mergeBlocks_spec (fuel : nat) :
  forall (bs : nat) (data : list A),
  (0 < bs)%nat -> (length data - bs < fuel)%nat ->
  Forall P data -> Blocks le bs data ->
  exists data',
    sort.mergeBlocks less fuel bs (length data) data = data'
    /\ StronglySorted le data' /\ (respects less P le -> stableOn less data' data).
Proof using le_refl le_trans less_le nless_le.
  induction fuel as [|fuel IH]; intros bs data Hbs Hfuel HP HB; [lia|].
  cbn [sort.mergeBlocks].
  destruct (Nat.ltb_spec bs (length data)) as [Hlt|Hge].
  - destruct (mergePass_spec (S (length data)) bs Hbs 0 (length data) [] data)
      as (data1 & E & HB1 & HP1 & Hlen & Hst1); [done|done|lia|done|done|].
    cbn [app] in E. rewrite E, <- Hlen.
    destruct (IH (2 * bs)%nat data1) as (data2 & E2 & Hs2 & Hst2); [lia|lia|done|done|].
    exists data2. split; [done|]. split; [done|].
    intros HT F HF. rewrite (Hst2 HT F HF). by apply Hst1.
  - exists data. split; [done|]. split; [by apply (Blocks_short bs)|].
    by intros _ F HF.
Qed.

(** [sort.SliceStable] returns a sorted list, for any order [le] that
    the comparison decides; the elements that are not less than each
    other keep their order when [less] is also compatible with [le] on
    both sides. *)
Lemma SliceStable_sorted (x : list A) :
  Forall P x ->
  StronglySorted le (sort.SliceStable less x)
  /\ (respects less P le -> stableOn less (sort.SliceStable less x) x).
Proof using le_refl le_trans less_le nless_le.
  intros HP. unfold sort.SliceStable, sort.stable.
  destruct (sortBlocks_spec (S (length x)) 20 ltac:(lia) 0 (length x) [] x)
    as (x1 & E & HB & HP1 & Hlen & Hst1); [done|done|lia|done|].
  cbn [app] in E. rewrite E, <- Hlen.
  destruct (mergeBlocks_spec (S (length x1)) 20 x1) as (x2 & E2 & Hs2 & Hst2);
    [lia|lia|done|done|].
  rewrite E2. split; [done|].
  intros HT F HF. rewrite (Hst2 HT F HF). by apply Hst1.
Qed.

Lemma sorted_lookup (l : list A) (i j : nat) (x y : A) :
  StronglySorted le l -> (i < j)%nat -> l !! i = Some x -> l !! j = Some y -> le x y.
Proof.
  intros Hs. revert i j. induction Hs as [|z l Hs IH Hz]; intros i j Hij Hx Hy; [done|].
  destruct j as [|j]; [lia|]. cbn in Hy.
  destruct i as [|i].
  - injection Hx as ->. rewrite Forall_forall in Hz. apply Hz.
    by apply list_elem_of_lookup_2 in Hy.
  - cbn in Hx. apply (IH i j); [lia|done|done].
Qed.
End StableSort.

(** ** The order of the list after a refresh *)

(** The comparison of [refresh] decides the order "running before the
    rest". *)
Lemma lessContainer_running (x y : Container.t) :
  (lessContainer x y = true ->
   Container.State y = "running" -> Container.State x = "running")
  /\ (lessContainer x y = false ->
      Container.State x = "running" -> Container.State y = "running").
Proof.
  unfold lessContainer.
  destruct (String.eqb_spec (Container.State x) (Container.State y)) as [E|N];
    cbn [negb].
  - split; intros _ H; congruence.
  - split; intros H Hr.
    + by apply String.eqb_eq.
    + apply String.eqb_neq in H. done.
Qed.

(** With no state other than "running" and one more, a record that is
    less than another stays so when the two are replaced by records
    beyond them. *)
Lemma lessContainer_respects (s0 : string) :
  respects lessContainer
    (fun c => Container.State c = "running" \/ Container.State c = s0)
    (fun x y => lessContainer y x = false).
Proof.
  intros x y z u Hx Hy Hz Hu Hxy Hyz Hzu.
  destruct (lessContainer x u) eqn:Hxu; [done|exfalso].
  pose proof (lessContainer_neg_trans s0 x u z Hx Hu Hz Hxu Hzu) as Hxz.
  pose proof (lessContainer_neg_trans s0 y x z Hy Hx Hz Hxy Hxz) as H.
  congruence.
Qed.

(** Records with the same state and the same primary name are not less
    than each other. *)
Lemma sameKey_not_less pf (s n : string) (p q : Container.t) :
  sameKey s n (summaryOf pf p) = true -> sameKey s n (summaryOf pf q) = true ->
  lessContainer p q = false.
Proof.
  intros Hp Hq. unfold sameKey in Hp, Hq.
  cbn [summaryOf ContainerSummary.State ContainerSummary.Name] in Hp, Hq.
  apply andb_true_iff in Hp as [Hp1 Hp2]. apply andb_true_iff in Hq as [Hq1 Hq2].
  apply String.eqb_eq in Hp1, Hp2, Hq1, Hq2.
  unfold lessContainer. rewrite Hp1, Hq1, String.eqb_refl. cbn [negb].
  rewrite Hp2, Hq2. apply string_ltb_irrefl.
Qed.

(** X17. Whatever the number of records and their states, a refresh that
    returned no error puts every running record before every record that
    is not running. *)
Theorem refresh_running_first_all pf (a a' : App) (w w' : World) (cs : list Container.t) :
  client.ContainerList (cli a) (length (issued w)) (ListOptions.mk true) = Ok cs ->
  refresh pf (a, w) = Some ((a', w'), None) ->
  runningFirst (containers a').
Proof.
  intros Hlist Href.
  destruct (refresh_returned pf a a' w w' cs None Hlist Href) as (_ & Hcs & _). rewrite Hcs.
  intros i j x y Hij Hx Hy Hrun.
  rewrite list_lookup_fmap in Hx, Hy.
  destruct (sort.SliceStable lessContainer cs !! i) as [cx|] eqn:Hi; [|done].
  destruct (sort.SliceStable lessContainer cs !! j) as [cy|] eqn:Hj; [|done].
  injection Hx as <-. injection Hy as <-. cbn [summaryOf ContainerSummary.State] in *.
  revert Hrun.
  apply (sorted_lookup
           (fun p q => Container.State q = "running" -> Container.State p = "running")
           (sort.SliceStable lessContainer cs) i j cx cy); [|done|done|done].
  apply (SliceStable_sorted lessContainer (fun _ => True)).
  - auto.
  - auto.
  - intros p q _ _. apply lessContainer_running.
  - intros p q _ _. apply lessContainer_running.
  - by apply Forall_forall.
Qed.

Lemma refresh_running_first_all_witness :
  let listed :=
    [Container.mk "id-z" ["/z"] "redis" "exited" "Exited (0) 2 hours ago" [];
     Container.mk "id-m" ["/m"] "nginx" "paused" "Up 3 hours (Paused)" [];
     Container.mk "id-b" ["/b"] "nginx" "running" "Up 2 hours" []] in
  exists a' w',
    refresh samplePlatform
      (sampleApp (sampleClient (Ok listed) (Err "down") (Err "down")), sampleWorld)
      = Some ((a', w'), None)
    /\ runningFirst (containers a').
Proof.
  intros listed.
  destruct (refresh_summaries samplePlatform
              (sampleApp (sampleClient (Ok listed) (Err "down") (Err "down")))
              sampleWorld listed eq_refl ltac:(intros top _; by eexists))
    as (a' & w' & Href & _).
  exists a', w'. split; [exact Href|].
  exact (refresh_running_first_all samplePlatform
           (sampleApp (sampleClient (Ok listed) (Err "down") (Err "down")))
           a' sampleWorld w' listed eq_refl Href).
Defined.

(** X18. Whatever the number of records, when every record that is not
    running has one and the same state, a refresh that returned no error
    lists the records of equal state in ascending order of their primary
    names, and the records that have the same state and the same primary
    name stay in the order of the listing. *)
Theorem refresh_name_order_all pf (a a' : App) (w w' : World) (cs : list Container.t)
        (s0 : string) :
  client.ContainerList (cli a) (length (issued w)) (ListOptions.mk true) = Ok cs ->
  Forall (fun c => Container.State c = "running" \/ Container.State c = s0) cs ->
  refresh pf (a, w) = Some ((a', w'), None) ->
  nameAscending (containers a')
  /\ forall s n,
       List.filter (sameKey s n) (containers a')
       = List.filter (sameKey s n) (map (summaryOf pf) cs).
Proof.
  intros Hlist Hstates Href.
  destruct (refresh_returned pf a a' w w' cs None Hlist Href) as (_ & Hcs & _). rewrite Hcs.
  destruct (SliceStable_sorted lessContainer
              (fun c => Container.State c = "running" \/ Container.State c = s0)
              (fun x y => lessContainer y x = false)) with (x := cs)
    as [Hsorted Hstable].
  - intros x _. apply lessContainer_irrefl.
  - intros x y z Hx Hy Hz Hxy Hyz. by apply (lessContainer_neg_trans s0 z y x).
  - intros x y _ _. apply lessContainer_asym.
  - auto.
  - done.
  - split.
    + intros i j x y Hij Hx Hy Hst.
      rewrite list_lookup_fmap in Hx, Hy.
      destruct (sort.SliceStable lessContainer cs !! i) as [cx|] eqn:Hi; [|done].
      destruct (sort.SliceStable lessContainer cs !! j) as [cy|] eqn:Hj; [|done].
      injection Hx as <-. injection Hy as <-.
      cbn [summaryOf ContainerSummary.State ContainerSummary.Name] in *.
      pose proof (sorted_lookup (fun x y => lessContainer y x = false)
                    _ i j cx cy Hsorted Hij Hi Hj) as Hless.
      unfold lessContainer in Hless. rewrite Hst, String.eqb_refl in Hless. done.
    + intros s n. rewrite !filter_fmap. f_equal.
      apply (Hstable (lessContainer_respects s0)).
      intros p q. apply sameKey_not_less.
Qed.

Lemma refresh_name_order_all_witness :
  let listed :=
    [Container.mk "id-z" ["/z"] "redis" "exited" "Exited (0) 2 hours ago" [];
     Container.mk "id-b" ["/b"] "nginx" "running" "Up 2 hours" [];
     Container.mk "id-a" ["/a"] "redis" "exited" "Exited (0) 5 hours ago" []] in
  exists a' w',
    refresh samplePlatform
      (sampleApp (sampleClient (Ok listed) (Err "down") (Err "down")), sampleWorld)
      = Some ((a', w'), None)
    /\ map ContainerSummary.Name (containers a') = ["b"; "a"; "z"]
    /\ nameAscending (containers a').
Proof.
  intros listed.
  destruct (refresh_summaries samplePlatform
              (sampleApp (sampleClient (Ok listed) (Err "down") (Err "down")))
              sampleWorld listed eq_refl ltac:(intros top _; by eexists))
    as (a' & w' & Href & Hcs & _).
  exists a', w'. split; [exact Href|]. split; [rewrite Hcs; vm_compute; reflexivity|].
  apply (refresh_name_order_all samplePlatform
           (sampleApp (sampleClient (Ok listed) (Err "down") (Err "down")))
           a' sampleWorld w' listed "exited" eq_refl); [|exact Href].
  constructor; [by right|]. constructor; [by left|]. constructor; [by right|].
  constructor.
Defined.

(** ** The float64 arithmetic of [since]

    [d.Seconds()], [d.Minutes()] and [d.Hours()] add the integer quotient
    and the float64 quotient of the remainder; the lemmas below follow the
    rounding of [binary_round_aux] through these operations. *)

Lemma digits2_pos_spec (p : positive) :
  2 ^ (Z.pos (digits2_pos p) - 1) <= Z.pos p < 2 ^ Z.pos (digits2_pos p).
Proof.
  induction p as [p IH|p IH|]; cbn [digits2_pos].
  - rewrite Pos2Z.inj_succ.
    replace (Z.succ (Z.pos (digits2_pos p)) - 1) with (Z.succ (Z.pos (digits2_pos p) - 1)) by lia.
    rewrite !Z.pow_succ_r by lia. lia.
  - rewrite Pos2Z.inj_succ.
    replace (Z.succ (Z.pos (digits2_pos p)) - 1) with (Z.succ (Z.pos (digits2_pos p) - 1)) by lia.
    rewrite !Z.pow_succ_r by lia. lia.
  - simpl. lia.
Qed.

Lemma Zdigits2_spec (m : Z) :
  0 < m -> 0 < Zdigits2 m /\ 2 ^ (Zdigits2 m - 1) <= m < 2 ^ Zdigits2 m.
Proof.
  destruct m as [|p|p]; [lia| |lia]. intros _. cbn [Zdigits2].
  split; [lia|]. apply digits2_pos_spec.
Qed.

Lemma Zdigits2_unique (m k : Z) :
  0 < m -> 2 ^ (k - 1) <= m < 2 ^ k -> Zdigits2 m = k.
Proof.
  intros Hm [Hlo Hhi].
  destruct (Zdigits2_spec m Hm) as (Hd & Hdlo & Hdhi).
  assert (0 < k).
  { destruct (Z_lt_le_dec 0 k) as [|Hk]; [done|].
    assert (2 ^ k <= 1); [|lia].
    destruct (Z.eq_dec k 0) as [->|]; [simpl; lia|].
    rewrite Z.pow_neg_r by lia. lia. }
  destruct (Z_lt_le_dec (Zdigits2 m) k) as [Hlt|Hge].
  - assert (2 ^ Zdigits2 m <= 2 ^ (k - 1)) by (apply Z.pow_le_mono_r; lia). lia.
  - destruct (Z_lt_le_dec k (Zdigits2 m)) as [Hlt|Hge']; [|lia].
    assert (2 ^ k <= 2 ^ (Zdigits2 m - 1)) by (apply Z.pow_le_mono_r; lia). lia.
Qed.

Lemma Zdigits2_le (m k : Z) : 0 < m -> 0 <= k -> m < 2 ^ k -> Zdigits2 m <= k.
Proof.
  intros Hm Hk Hlt. destruct (Zdigits2_spec m Hm) as (Hd & Hdlo & _).
  destruct (Z_lt_le_dec k (Zdigits2 m)) as [H|H]; [|done].
  assert (2 ^ k <= 2 ^ (Zdigits2 m - 1)) by (apply Z.pow_le_mono_r; lia). lia.
Qed.

Lemma Zdigits2_ge (m k : Z) : 0 < m -> 2 ^ (k - 1) <= m -> k <= Zdigits2 m.
Proof.
  intros Hm Hle. destruct (Zdigits2_spec m Hm) as (Hd & _ & Hdhi).
  destruct (Z_lt_le_dec (Zdigits2 m) k) as [H|H]; [|done].
  assert (2 ^ Zdigits2 m <= 2 ^ (k - 1)) by (apply Z.pow_le_mono_r; lia). lia.
Qed.

Lemma shr_1_m (mrs : shr_record) :
  0 <= shr_m mrs -> shr_m (shr_1 mrs) = shr_m mrs / 2.
Proof.
  destruct mrs as [m r s]. cbn [shr_m]. intros Hm. unfold shr_1.
  destruct m as [|[p|p|]|p]; cbn [shr_m]; try reflexivity; try lia.
  - change (Z.pos p~1) with (2 * Z.pos p + 1). Z.div_mod_to_equations. lia.
  - change (Z.pos p~0) with (2 * Z.pos p). Z.div_mod_to_equations. lia.
Qed.

Lemma pow2_xI (p : positive) : 2 ^ Z.pos p~1 = 2 * (2 ^ Z.pos p * 2 ^ Z.pos p).
Proof.
  replace (Z.pos p~1) with (Z.pos p + Z.pos p + 1) by lia.
  rewrite !Z.pow_add_r by lia. rewrite Z.pow_1_r. lia.
Qed.

Lemma pow2_xO (p : positive) : 2 ^ Z.pos p~0 = 2 ^ Z.pos p * 2 ^ Z.pos p.
Proof.
  replace (Z.pos p~0) with (Z.pos p + Z.pos p) by lia.
  rewrite !Z.pow_add_r by lia. lia.
Qed.

Lemma iter_shr_m (p : positive) (mrs : shr_record) :
  0 <= shr_m mrs ->
  shr_m (SpecFloat.iter_pos shr_1 p mrs) = shr_m mrs / 2 ^ Z.pos p.
Proof.
  assert (forall k, 0 < 2 ^ Z.pos k) as Hpow by (intros k; apply Z.pow_pos_nonneg; lia).
  revert mrs. induction p as [p IH|p IH|]; intros mrs Hm; cbn [SpecFloat.iter_pos].
  - assert (0 <= shr_m (shr_1 mrs)) as H1
      by (rewrite shr_1_m by done; apply Z.div_pos; lia).
    assert (0 <= shr_m (SpecFloat.iter_pos shr_1 p (shr_1 mrs))) as H2
      by (rewrite IH by done; apply Z.div_pos; [done|apply Hpow]).
    rewrite IH, IH, shr_1_m by done.
    pose proof (Hpow p).
    rewrite !Z.div_div by lia.
    f_equal. rewrite pow2_xI. lia.
  - assert (0 <= shr_m (SpecFloat.iter_pos shr_1 p mrs)) as H2
      by (rewrite IH by done; apply Z.div_pos; [done|apply Hpow]).
    rewrite IH, IH by done.
    pose proof (Hpow p).
    rewrite !Z.div_div by lia.
    f_equal. rewrite pow2_xO. lia.
  - rewrite shr_1_m by done. by rewrite Z.pow_1_r.
Qed.

Lemma shr_record_of_loc_m (m : Z) (l : location) : shr_m (shr_record_of_loc m l) = m.
Proof. by destruct l as [|[]]. Qed.

Lemma shr_spec (m : Z) (l : location) (e n : Z) :
  0 <= m ->
  shr_m (fst (shr (shr_record_of_loc m l) e n)) = m / 2 ^ Z.max 0 n
  /\ snd (shr (shr_record_of_loc m l) e n) = e + Z.max 0 n.
Proof.
  intros Hm. destruct n as [|p|p]; cbn [shr fst snd].
  - rewrite shr_record_of_loc_m. simpl. rewrite Z.div_1_r. lia.
  - rewrite iter_shr_m by (by rewrite shr_record_of_loc_m).
    rewrite shr_record_of_loc_m. split; [f_equal; f_equal; lia|lia].
  - rewrite shr_record_of_loc_m. simpl. rewrite Z.div_1_r. lia.
Qed.

Lemma round_nearest_even_bounds (m : Z) (l : location) :
  m <= round_nearest_even m l <= m + 1.
Proof. destruct l as [|[]]; simpl; [lia|destruct (Z.even m); lia|lia|lia]. Qed.

Lemma shr_1_r (mrs : shr_record) :
  0 <= shr_m mrs -> shr_r (shr_1 mrs) = Z.odd (shr_m mrs).
Proof.
  destruct mrs as [m r s]. cbn [shr_m]. intros Hm. unfold shr_1.
  destruct m as [|[p|p|]|p]; cbn [shr_r]; try reflexivity; lia.
Qed.

(** After [p] shifts the round bit is the last bit shifted out. *)
Lemma iter_shr_r (p : positive) (mrs : shr_record) :
  0 <= shr_m mrs ->
  shr_r (SpecFloat.iter_pos shr_1 p mrs) = Z.odd (shr_m mrs / 2 ^ (Z.pos p - 1)).
Proof.
  assert (forall k, 0 < 2 ^ Z.pos k) as Hpow by (intros k; apply Z.pow_pos_nonneg; lia).
  assert (forall k, 0 < 2 ^ (Z.pos k - 1)) as Hpow' by (intros k; apply Z.pow_pos_nonneg; lia).
  revert mrs. induction p as [p IH|p IH|]; intros mrs Hm; cbn [SpecFloat.iter_pos].
  - assert (0 <= shr_m (shr_1 mrs)) as H1
      by (rewrite shr_1_m by done; apply Z.div_pos; lia).
    assert (0 <= shr_m (SpecFloat.iter_pos shr_1 p (shr_1 mrs))) as H2
      by (rewrite iter_shr_m by done; apply Z.div_pos; [done|apply Hpow]).
    rewrite IH, iter_shr_m, shr_1_m by done.
    pose proof (Hpow p). pose proof (Hpow' p).
    rewrite !Z.div_div by lia. f_equal. f_equal.
    replace (Z.pos p~1 - 1) with (1 + Z.pos p + (Z.pos p - 1)) by lia.
    rewrite !Z.pow_add_r by lia. rewrite Z.pow_1_r. lia.
  - assert (0 <= shr_m (SpecFloat.iter_pos shr_1 p mrs)) as H2
      by (rewrite iter_shr_m by done; apply Z.div_pos; [done|apply Hpow]).
    rewrite IH, iter_shr_m by done.
    pose proof (Hpow p). pose proof (Hpow' p).
    rewrite !Z.div_div by lia. f_equal. f_equal.
    replace (Z.pos p~0 - 1) with (Z.pos p + (Z.pos p - 1)) by lia.
    rewrite !Z.pow_add_r by lia. lia.
  - rewrite shr_1_r by done. by rewrite Z.div_1_r.
Qed.

Lemma loc_of_record_of_loc (m : Z) (l : location) :
  loc_of_shr_record (shr_record_of_loc m l) = l.
Proof. by destruct l as [|[]]. Qed.

Lemma round_up_r (mrs : shr_record) :
  shr_r mrs = false ->
  round_nearest_even (shr_m mrs) (loc_of_shr_record mrs) = shr_m mrs.
Proof. destruct mrs as [m [] []]; cbn; done. Qed.

(** An odd number of half units: one unit more is within half a unit. *)
Lemma odd_half_up (m n : Z) :
  0 <= m -> 1 <= n -> Z.odd (m / 2 ^ (n - 1)) = true ->
  2 * ((m / 2 ^ n + 1) * 2 ^ n) <= 2 * m + 2 ^ n.
Proof.
  intros Hm Hn Hodd.
  assert (0 < 2 ^ (n - 1)) as Hp by (apply Z.pow_pos_nonneg; lia).
  assert (2 ^ n = 2 * 2 ^ (n - 1)) as Hn2.
  { replace n with (1 + (n - 1)) at 1 by lia. rewrite Z.pow_add_r by lia. done. }
  set (t := m / 2 ^ (n - 1)) in *.
  assert (m / 2 ^ n = t / 2) as Hq.
  { rewrite Hn2, Z.mul_comm, <- Z.div_div by lia. done. }
  assert (t = 2 * (t / 2) + 1) as Ht.
  { rewrite (Z.div_mod t 2) at 1 by lia. rewrite Zmod_odd, Hodd. done. }
  assert (t * 2 ^ (n - 1) <= m) as Hle.
  { unfold t. rewrite Z.mul_comm. apply Z.mul_div_le. done. }
  rewrite Hq, Hn2. clearbody t. nia.
Qed.

(** The shift of [shr] followed by the rounding step: the result is the
    quotient or one more, and is within half a unit of the shifted
    position above the value that the mantissa, the location and the
    witness [(D, R)] of the position stand for. *)
Lemma shr_round_tight (m : Z) (l : location) (e n D R : Z) :
  0 <= m -> 0 < D -> 0 <= R ->
  (l = loc_Inexact Eq \/ l = loc_Inexact Gt -> D <= 2 * R) ->
  let mrs := fst (shr (shr_record_of_loc m l) e n) in
  let m1 := round_nearest_even (shr_m mrs) (loc_of_shr_record mrs) in
  2 * D * (m1 * 2 ^ Z.max 0 n) <= 2 * (D * m + R) + D * 2 ^ Z.max 0 n.
Proof.
  intros Hm HD HR Hl mrs m1.
  destruct n as [|p|p].
  - subst m1 mrs. cbn [shr fst Z.max]. rewrite loc_of_record_of_loc, shr_record_of_loc_m.
    change (2 ^ Z.max 0 0) with 1.
    destruct l as [|[]]; cbn [round_nearest_even]; try nia.
    + specialize (Hl ltac:(by left)). destruct (Z.even m); nia.
    + specialize (Hl ltac:(by right)). nia.
  - replace (Z.max 0 (Z.pos p)) with (Z.pos p) by lia.
    assert (0 < 2 ^ Z.pos p) as Hp by (apply Z.pow_pos_nonneg; lia).
    assert (shr_m mrs = m / 2 ^ Z.pos p) as Hmm.
    { subst mrs. cbn [shr fst]. rewrite iter_shr_m by (by rewrite shr_record_of_loc_m).
      by rewrite shr_record_of_loc_m. }
    assert (shr_r mrs = Z.odd (m / 2 ^ (Z.pos p - 1))) as Hrr.
    { subst mrs. cbn [shr fst]. rewrite iter_shr_r by (by rewrite shr_record_of_loc_m).
      by rewrite shr_record_of_loc_m. }
    pose proof (round_nearest_even_bounds (shr_m mrs) (loc_of_shr_record mrs)) as Hb.
    fold m1 in Hb. rewrite Hmm in Hb.
    pose proof (Z.mul_div_le m (2 ^ Z.pos p) Hp) as Hfl.
    destruct (Z.odd (m / 2 ^ (Z.pos p - 1))) eqn:Hodd.
    + pose proof (odd_half_up m (Z.pos p) Hm ltac:(lia) Hodd) as Hup.
      assert (m1 * 2 ^ Z.pos p <= (m / 2 ^ Z.pos p + 1) * 2 ^ Z.pos p) as H1
        by (apply Z.mul_le_mono_nonneg_r; lia).
      clearbody m1 mrs. nia.
    + assert (m1 = m / 2 ^ Z.pos p) as ->
        by (subst m1; rewrite round_up_r by done; done).
      clearbody mrs. nia.
  - subst m1 mrs. cbn [shr fst]. rewrite loc_of_record_of_loc, shr_record_of_loc_m.
    replace (Z.max 0 (Z.neg p)) with 0 by lia. rewrite Z.pow_0_r.
    destruct l as [|[]]; cbn [round_nearest_even]; try nia.
    + specialize (Hl ltac:(by left)). destruct (Z.even m); nia.
    + specialize (Hl ltac:(by right)). nia.
Qed.

(** The result of [binary_round_aux] on a mantissa that is not negative:
    a shift to the right by [n1] places, a rounding step that adds one or
    nothing, and a second shift by [n2] places. *)
Lemma round_aux_shape (s : bool) (mx ex : Z) (lx : location) :
  0 <= mx ->
  let n1 := Z.max 0 (fexp float64.prec float64.emax (Zdigits2 mx + ex) - ex) in
  let e1 := ex + n1 in
  exists m1 : Z,
    mx / 2 ^ n1 <= m1 <= mx / 2 ^ n1 + 1
    /\ (n1 = 0 -> lx = loc_Exact -> m1 = mx)
    /\ (forall D R, 0 < D -> 0 <= R ->
          (lx = loc_Inexact Eq \/ lx = loc_Inexact Gt -> D <= 2 * R) ->
          2 * D * (m1 * 2 ^ n1) <= 2 * (D * mx + R) + D * 2 ^ n1)
    /\ let n2 := Z.max 0 (fexp float64.prec float64.emax (Zdigits2 m1 + e1) - e1) in
       binary_round_aux float64.prec float64.emax s mx ex lx =
         match m1 / 2 ^ n2 with
         | Z0 => S754_zero s
         | Z.pos m => if e1 + n2 <=? float64.emax - float64.prec
                      then S754_finite s m (e1 + n2) else S754_infinity s
         | Z.neg _ => S754_nan
         end.
Proof.
  intros Hmx n1 e1. unfold binary_round_aux, shr_fexp.
  set (n := fexp float64.prec float64.emax (Zdigits2 mx + ex) - ex) in *.
  destruct (shr_spec mx lx ex n Hmx) as [Hm1 He1].
  assert (forall D R, 0 < D -> 0 <= R ->
            (lx = loc_Inexact Eq \/ lx = loc_Inexact Gt -> D <= 2 * R) ->
            2 * D * (round_nearest_even
                       (shr_m (fst (shr (shr_record_of_loc mx lx) ex n)))
                       (loc_of_shr_record (fst (shr (shr_record_of_loc mx lx) ex n)))
                     * 2 ^ n1)
            <= 2 * (D * mx + R) + D * 2 ^ n1) as Htight.
  { intros D R HD HR Hl. by apply (shr_round_tight mx lx ex n D R). }
  destruct (shr _ ex _) as [mrs' e'] eqn:Hshr. cbn [fst snd] in Hm1, He1, Htight.
  fold n1 in Hm1, He1. fold e1 in He1. subst e'.
  set (m1 := round_nearest_even (shr_m mrs') (loc_of_shr_record mrs')) in *.
  exists m1.
  pose proof (round_nearest_even_bounds (shr_m mrs') (loc_of_shr_record mrs')) as Hb.
  fold m1 in Hb. rewrite Hm1 in Hb.
  split; [done|]. split; [|split; [exact Htight|]].
  - intros Hn1 ->. subst m1.
    unfold shr in Hshr.
    destruct n as [|p|p] eqn:Hn;
      [|subst n1; lia|]; injection Hshr as <- _; reflexivity.
  - assert (0 <= m1) as Hm1' by (pose proof (Z.div_pos mx (2 ^ n1) Hmx
                                   ltac:(apply Z.pow_pos_nonneg; lia)); lia).
    destruct (shr_spec m1 loc_Exact e1
                (fexp float64.prec float64.emax (Zdigits2 m1 + e1) - e1) Hm1')
      as [Hm2 He2].
    destruct (shr _ e1 _) as [mrs'' e'']. cbn [fst snd] in Hm2, He2.
    cbv zeta. rewrite Hm2, He2. reflexivity.
Qed.

Lemma fexp_normal (k : Z) :
  -1021 <= k -> fexp float64.prec float64.emax k = k - 53.
Proof. unfold fexp, emin, float64.prec, float64.emax. lia. Qed.

Lemma pow2_pos (k : Z) : 0 <= k -> 0 < 2 ^ k.
Proof. intros. apply Z.pow_pos_nonneg; lia. Qed.

Lemma pow2_succ (k : Z) : 0 <= k -> 2 ^ (k + 1) = 2 * 2 ^ k.
Proof. intros. rewrite Z.pow_add_r by lia. rewrite Z.pow_1_r. lia. Qed.

Lemma div_shift_le (m n1 n2 : Z) :
  0 <= m -> 0 <= n1 -> 0 <= n2 -> m / 2 ^ n2 * 2 ^ (n1 + n2) <= m * 2 ^ n1.
Proof.
  intros Hm H1 H2. rewrite Z.pow_add_r by lia.
  assert (0 < 2 ^ n2) as Hp2 by (apply Z.pow_pos_nonneg; lia).
  assert (0 < 2 ^ n1) as Hp1 by (apply Z.pow_pos_nonneg; lia).
  pose proof (Z.mul_div_le m (2 ^ n2) Hp2). nia.
Qed.

(** Rounding a positive mantissa whose magnitude is in the range of the
    normal numbers: the result is finite, its exponent is known up to one,
    its value is at least the input rounded down to its precision and at
    most half a unit of the first shifted position above the value the
    input stands for. *)
Lemma round_aux_normal (s : bool) (mx ex : Z) (lx : location) :
  0 < mx ->
  let d := Zdigits2 mx in
  let n1 := Z.max 0 (d - 53) in
  -1021 <= d + ex -> ex + n1 <= 970 ->
  exists (m : positive) (e : Z),
    binary_round_aux float64.prec float64.emax s mx ex lx = S754_finite s m e
    /\ ex + n1 <= e <= ex + n1 + 1
    /\ mx / 2 ^ (e - ex) <= Z.pos m
    /\ (forall D R, 0 < D -> 0 <= R ->
          (lx = loc_Inexact Eq \/ lx = loc_Inexact Gt -> D <= 2 * R) ->
          2 * D * (Z.pos m * 2 ^ (e - ex)) <= 2 * (D * mx + R) + D * 2 ^ n1)
    /\ (d <= 53 -> lx = loc_Exact -> Z.pos m = mx /\ e = ex)
    /\ (53 <= d -> 2 ^ 52 <= Z.pos m < 2 ^ 53).
Proof.
  intros Hmx d n1 Hlo Hhi.
  destruct (Zdigits2_spec mx Hmx) as (Hd & Hdlo & Hdhi). fold d in Hd, Hdlo, Hdhi.
  destruct (round_aux_shape s mx ex lx ltac:(lia)) as (m1 & Hm1 & Hexact & Htight & Hres).
  cbv zeta in Hm1, Hexact, Htight, Hres.
  rewrite (fexp_normal (Zdigits2 mx + ex)) in Hm1, Hexact, Htight, Hres by done.
  fold d in Hm1, Hexact, Htight, Hres.
  replace (Z.max 0 (d + ex - 53 - ex)) with n1 in Hm1, Hexact, Htight, Hres by lia.
  assert (0 <= n1) as Hn1 by lia.
  pose proof (pow2_pos n1 Hn1) as Hp1.
  (* the mantissa after the first shift *)
  assert (2 ^ (Z.min d 53 - 1) <= mx / 2 ^ n1 < 2 ^ Z.min d 53) as Hq.
  { destruct (Z_le_gt_dec d 53) as [Hle|Hgt].
    - replace n1 with 0 by lia. rewrite Z.pow_0_r, Z.div_1_r.
      replace (Z.min d 53) with d by lia. done.
    - replace (Z.min d 53) with 53 by lia.
      replace n1 with (d - 53) in * by lia.
      split.
      + apply Z.div_le_lower_bound; [done|].
        rewrite <- Z.pow_add_r by lia. replace (d - 53 + (53 - 1)) with (d - 1) by lia. done.
      + apply Z.div_lt_upper_bound; [done|].
        rewrite <- Z.pow_add_r by lia. replace (d - 53 + 53) with d by lia. done. }
  assert (0 < mx / 2 ^ n1) as Hqpos.
  { pose proof (pow2_pos (Z.min d 53 - 1) ltac:(lia)). lia. }
  assert (0 < m1) as Hm1pos by lia.
  set (d1 := Zdigits2 m1) in *.
  assert (Z.min d 53 <= d1 <= Z.min d 53 + 1) as Hd1.
  { split.
    - apply Zdigits2_ge; [done|]. lia.
    - apply Zdigits2_le; [done|lia|].
      rewrite pow2_succ by lia. lia. }
  rewrite (fexp_normal (d1 + (ex + n1))) in Hres by lia.
  set (n2 := Z.max 0 (d1 + (ex + n1) - 53 - (ex + n1))) in *.
  assert (n2 = Z.max 0 (d1 - 53)) as Hn2 by lia.
  assert (0 <= n2 <= 1) as Hn2b by lia.
  pose proof (pow2_pos n2 ltac:(lia)) as Hp2.
  destruct (Zdigits2_spec m1 Hm1pos) as (_ & Hd1lo & Hd1hi). fold d1 in Hd1lo, Hd1hi.
  (* the mantissa after the second shift *)
  assert (2 ^ (d1 - n2 - 1) <= m1 / 2 ^ n2 < 2 ^ (d1 - n2)) as Hm2.
  { split.
    - apply Z.div_le_lower_bound; [done|].
      rewrite <- Z.pow_add_r by lia. replace (n2 + (d1 - n2 - 1)) with (d1 - 1) by lia. done.
    - apply Z.div_lt_upper_bound; [done|].
      rewrite <- Z.pow_add_r by lia. replace (n2 + (d1 - n2)) with d1 by lia. done. }
  assert (0 < m1 / 2 ^ n2) as Hm2pos.
  { pose proof (pow2_pos (d1 - n2 - 1) ltac:(lia)). lia. }
  pose proof (div_shift_le m1 n1 n2 ltac:(lia) Hn1 ltac:(lia)) as Hshift.
  destruct (m1 / 2 ^ n2) as [|m2|m2] eqn:Em2; [lia| |lia].
  assert ((ex + n1 + n2 <=? float64.emax - float64.prec) = true) as Hemax
    by (apply Z.leb_le; unfold float64.emax, float64.prec; lia).
  rewrite Hemax in Hres.
  exists m2, (ex + n1 + n2). split; [done|]. split; [lia|].
  replace (ex + n1 + n2 - ex) with (n1 + n2) by lia.
  split; [|split; [|split]].
  - rewrite Z.pow_add_r by lia.
    rewrite <- Z.div_div by lia. rewrite <- Em2.
    apply Z.div_le_mono; [done|lia].
  - intros D R HD HR Hl. specialize (Htight D R HD HR Hl).
    clear - Htight Hshift HD. nia.
  - intros Hle ->. assert (n1 = 0) as Hz by lia.
    specialize (Hexact Hz eq_refl). subst m1.
    assert (d1 = d) as Hdd by reflexivity.
    assert (n2 = 0) as Hz2 by lia.
    rewrite Hz2, Z.pow_0_r, Z.div_1_r in Em2. lia.
  - intros Hge. rewrite <- Em2.
    replace (Z.min d 53) with 53 in * by lia.
    destruct (Z.eq_dec d1 53) as [E|E].
    + replace n2 with 0 in * by lia. rewrite E in Hm2. simpl in Hm2. simpl. lia.
    + replace d1 with 54 in * by lia. replace n2 with 1 in * by lia.
      simpl in Hm2. simpl. lia.
Qed.

Lemma iter_xO (m k : positive) : Z.pos (Pos.iter xO m k) = Z.pos m * 2 ^ Z.pos k.
Proof.
  induction k as [|k IH] using Pos.peano_ind.
  - simpl. rewrite Z.pow_1_r. lia.
  - rewrite Pos.iter_succ, Pos2Z.inj_xO, IH, Pos2Z.inj_succ.
    unfold Z.succ. rewrite pow2_succ by lia. lia.
Qed.

Lemma shl_align_spec (m : positive) (e e' : Z) :
  e' <= e ->
  Z.pos (fst (shl_align m e e')) = Z.pos m * 2 ^ (e - e')
  /\ snd (shl_align m e e') = e'.
Proof.
  intros Hle. unfold shl_align.
  destruct (e' - e) as [|k|k] eqn:Hk; cbn [fst snd]; try lia.
  - replace (e - e') with 0 by lia. rewrite Z.pow_0_r. lia.
  - rewrite iter_xO. replace (e - e') with (Z.pos k) by lia. done.
Qed.

Lemma shl_align_none (m : positive) (e e' : Z) :
  e <= e' -> shl_align m e e' = (m, e).
Proof.
  intros Hle. unfold shl_align. destruct (e' - e) as [|k|k] eqn:Hk; try done. lia.
Qed.

(** The conversion of a positive integer below [2^53] is exact: the
    mantissa is the integer shifted to 53 digits. *)
Lemma ofInt_exact (r : Z) :
  0 < r < 2 ^ 53 ->
  let d := Zdigits2 r in
  exists m : positive,
    float64.ofInt r = S754_finite false m (d - 53)
    /\ Z.pos m = r * 2 ^ (53 - d)
    /\ 2 ^ 52 <= Z.pos m < 2 ^ 53.
Proof.
  intros [Hr Hhi] d.
  destruct (Zdigits2_spec r Hr) as (Hd & Hdlo & Hdhi). fold d in Hd, Hdlo, Hdhi.
  assert (d <= 53) as Hd53 by (apply Zdigits2_le; lia).
  destruct r as [|p|p]; [lia| |lia].
  unfold float64.ofInt, binary_normalize, binary_round.
  change (Z.pos (digits2_pos p)) with d.
  rewrite fexp_normal by lia. rewrite Z.add_0_r.
  destruct (shl_align_spec p 0 (d - 53) ltac:(lia)) as [Hmz Hez].
  destruct (shl_align p 0 (d - 53)) as [mz ez]. cbn [fst snd] in Hmz, Hez. subst ez.
  replace (0 - (d - 53)) with (53 - d) in Hmz by lia.
  pose proof (pow2_pos (53 - d) ltac:(lia)) as Hp.
  assert (2 ^ 52 <= Z.pos mz < 2 ^ 53) as Hnorm.
  { rewrite Hmz. split.
    - replace 52 with ((d - 1) + (53 - d)) by lia. rewrite Z.pow_add_r by lia. nia.
    - replace 53 with (d + (53 - d)) at 2 by lia. rewrite Z.pow_add_r by lia. nia. }
  assert (Zdigits2 (Z.pos mz) = 53) as Hdz by (apply Zdigits2_unique; [lia|done]).
  destruct (round_aux_normal false (Z.pos mz) (d - 53) loc_Exact ltac:(lia))
    as (m & e & Hres & _ & _ & _ & Hexact & _).
  { rewrite Hdz. lia. }
  { rewrite Hdz. lia. }
  rewrite Hdz in Hexact. destruct (Hexact ltac:(lia) eq_refl) as [Hm ->].
  exists m. rewrite Hres. split; [done|]. rewrite Hm. done.
Qed.

(** A location that lets the rounding step go up marks a remainder of at
    least half the divisor. *)
Lemma new_location_up (nb k : Z) :
  new_location nb k = loc_Inexact Eq \/ new_location nb k = loc_Inexact Gt ->
  nb <= 2 * k.
Proof.
  unfold new_location, new_location_even, new_location_odd.
  destruct (Z.even nb), (k =? 0); intros [H|H]; try discriminate H.
  - injection H as H. apply Z.compare_eq in H. lia.
  - injection H as H. apply Z.compare_gt_iff in H. lia.
  - destruct (2 * k + 1 ?= nb); discriminate H.
  - destruct (2 * k + 1 ?= nb) eqn:E; try discriminate H.
    apply Z.compare_gt_iff in E. lia.
Qed.

(** Dividing two normal numbers: the result is normal, not below the
    quotient of the mantissas rounded down, and at most half a unit of the
    first shifted position above the exact quotient. *)
Lemma div_normal (ma mb : positive) (ea eb : Z) :
  2 ^ 52 <= Z.pos ma < 2 ^ 53 -> 2 ^ 52 <= Z.pos mb < 2 ^ 53 ->
  -400 <= ea <= 400 -> -400 <= eb <= 400 ->
  let e' := ea - eb - 53 in
  exists (my : positive) (ey n1 : Z),
    float64.div (S754_finite false ma ea) (S754_finite false mb eb)
      = S754_finite false my ey
    /\ 2 ^ 52 <= Z.pos my < 2 ^ 53
    /\ 0 <= n1 <= 1 /\ e' + n1 <= ey <= e' + n1 + 1
    /\ Z.pos ma * 2 ^ 53 / Z.pos mb / 2 ^ (ey - e') <= Z.pos my
    /\ 2 * Z.pos mb * (Z.pos my * 2 ^ (ey - e'))
       <= 2 * (Z.pos ma * 2 ^ 53) + Z.pos mb * 2 ^ n1.
Proof.
  intros Ha Hb Hea Heb e'.
  assert (Zdigits2 (Z.pos ma) = 53) as Hda by (apply Zdigits2_unique; [lia|done]).
  assert (Zdigits2 (Z.pos mb) = 53) as Hdb by (apply Zdigits2_unique; [lia|done]).
  unfold float64.div, SFdiv, SFdiv_core_binary. rewrite Hda, Hdb.
  rewrite fexp_normal by lia.
  replace (Z.min (53 + ea - (53 + eb) - 53) (ea - eb)) with e' by lia.
  replace (ea - eb - e') with 53 by lia.
  rewrite Z.shiftl_mul_pow2 by lia.
  pose proof (Z_div_mod (Z.pos ma * 2 ^ 53) (Z.pos mb) ltac:(lia)) as Hdm.
  assert (Z.pos ma * 2 ^ 53 / Z.pos mb = fst (Z.div_eucl (Z.pos ma * 2 ^ 53) (Z.pos mb)))
    as Hq by reflexivity.
  destruct (Z.div_eucl (Z.pos ma * 2 ^ 53) (Z.pos mb)) as [q r]. cbn [fst] in Hq.
  destruct Hdm as [Hdm Hr]. cbn [xorb].
  assert (2 ^ 52 <= q < 2 ^ 54) as Hqb.
  { change (2 ^ 52) with 4503599627370496 in *.
    change (2 ^ 53) with 9007199254740992 in *.
    change (2 ^ 54) with 18014398509481984. clear - Ha Hb Hdm Hr. nia. }
  set (dq := Zdigits2 q).
  assert (53 <= dq <= 54) as Hdq.
  { split; [apply Zdigits2_ge; lia|apply Zdigits2_le; lia]. }
  destruct (round_aux_normal false q e' (new_location (Z.pos mb) r) ltac:(lia))
    as (my & ey & Hres & Hey & Hlow & Hup & _ & Hnorm).
  { fold dq. lia. }
  { fold dq. lia. }
  fold dq in Hey, Hup, Hnorm.
  exists my, ey, (Z.max 0 (dq - 53)).
  split; [done|]. split; [apply Hnorm; lia|]. split; [lia|]. split; [lia|].
  rewrite Hq. split; [done|].
  specialize (Hup (Z.pos mb) r ltac:(lia) ltac:(lia) (new_location_up _ _)).
  rewrite Hdm. lia.
Qed.

(** Adding two positive numbers, the first normal and not below the
    second in exponent: the sum of the aligned mantissas goes through the
    rounding step as it is. *)
Lemma add_aligned (mx my : positive) (ex ey : Z) :
  2 ^ 52 <= Z.pos mx -> ey <= ex -> -900 <= ey ->
  float64.add (S754_finite false mx ex) (S754_finite false my ey)
  = binary_round_aux float64.prec float64.emax false
      (Z.pos mx * 2 ^ (ex - ey) + Z.pos my) ey loc_Exact.
Proof.
  intros Hmx Hle Hey. unfold float64.add, SFadd.
  replace (Z.min ex ey) with ey by lia.
  destruct (shl_align_spec mx ex ey Hle) as [Hx _].
  destruct (shl_align_spec my ey ey ltac:(lia)) as [Hy _].
  rewrite Z.sub_diag, Z.pow_0_r, Z.mul_1_r in Hy.
  cbn [cond_Zopp]. rewrite Hx, Hy.
  pose proof (pow2_pos (ex - ey) ltac:(lia)) as Hp.
  set (M := Z.pos mx * 2 ^ (ex - ey) + Z.pos my).
  assert (2 ^ 52 <= M) as HM by (subst M; nia).
  destruct M as [|Mp|Mp] eqn:EM; [lia| |lia].
  unfold binary_normalize, binary_round.
  assert (53 <= Zdigits2 (Z.pos Mp)) as HdM by (apply Zdigits2_ge; lia).
  change (Z.pos (digits2_pos Mp)) with (Zdigits2 (Z.pos Mp)).
  rewrite fexp_normal by lia.
  rewrite shl_align_none by lia. reflexivity.
Qed.

Lemma toInt_floor (m : positive) (e q : Z) :
  e < 0 -> 0 <= q < 2 ^ 62 ->
  q * 2 ^ (- e) <= Z.pos m < (q + 1) * 2 ^ (- e) ->
  float64.toInt (S754_finite false m e) = q.
Proof.
  intros He Hq [Hlo Hhi]. unfold float64.toInt.
  assert ((0 <=? e) = false) as -> by (apply Z.leb_gt; lia).
  pose proof (pow2_pos (- e) ltac:(lia)) as Hp.
  assert (Z.pos m / 2 ^ (- e) = q) as ->.
  { symmetry. apply (Z.div_unique _ _ _ (Z.pos m - q * 2 ^ (- e))); lia. }
  cbv zeta.
  assert ((float64.minInt64 <=? q) && (q <=? float64.maxInt64) = true) as ->.
  { unfold float64.minInt64, float64.maxInt64.
    change (2 ^ 62) with 4611686018427387904 in Hq.
    change (2 ^ 63) with 9223372036854775808.
    apply andb_true_iff; split; apply Z.leb_le; lia. }
  reflexivity.
Qed.

(** The float64 quotient of two integers [0 < r < U < 2^53] is a normal
    number below one, at most half a unit in its last place above the
    exact quotient. *)
Lemma div_ofInt (r U : Z) :
  0 < r < U -> U < 2 ^ 53 ->
  exists (my : positive) (ey : Z),
    float64.div (float64.ofInt r) (float64.ofInt U) = S754_finite false my ey
    /\ 2 ^ 52 <= Z.pos my < 2 ^ 53
    /\ -110 <= ey <= -53
    /\ 2 * U * Z.pos my <= 2 * r * 2 ^ (- ey) + U.
Proof.
  intros Hr HU.
  destruct (ofInt_exact U ltac:(lia)) as (mU & HofU & HmU & HnU).
  destruct (ofInt_exact r ltac:(lia)) as (mr & Hofr & Hmr & Hnr).
  cbv zeta in HofU, HmU, Hofr, Hmr.
  destruct (Zdigits2_spec U ltac:(lia)) as (HdU & _ & _).
  destruct (Zdigits2_spec r ltac:(lia)) as (Hdr & Hdrlo & _).
  assert (Zdigits2 U <= 53) as HdU53
    by (apply Zdigits2_le; lia).
  assert (Zdigits2 r <= Zdigits2 U) as Hdrle.
  { apply Zdigits2_le; [lia|lia|].
    destruct (Zdigits2_spec U ltac:(lia)) as (_ & _ & Hhi). lia. }
  set (dU := Zdigits2 U) in *. set (dr := Zdigits2 r) in *.
  rewrite HofU, Hofr.
  destruct (div_normal mr mU (dr - 53) (dU - 53) Hnr HnU ltac:(lia) ltac:(lia))
    as (my & ey & n1 & Hdiv & Hny & Hn1 & Hey & _ & Hup).
  cbv zeta in Hey, Hup.
  set (e' := dr - 53 - (dU - 53) - 53) in *.
  set (a := 53 - dr) in *. set (b := 53 - dU) in *. set (w := ey - e') in *.
  assert (0 <= a /\ 0 <= b /\ n1 <= w <= 2 /\ - ey = 53 + a - b - w) as (Ha & Hb & Hw & Hney)
    by (subst a b w e'; lia).
  assert (0 <= - ey) as Hney0 by (subst a b w e'; lia).
  pose proof (pow2_pos a Ha) as Hpa. pose proof (pow2_pos b Hb) as Hpb.
  pose proof (pow2_pos w ltac:(lia)) as Hpw.
  pose proof (pow2_pos (- ey) Hney0) as Hpe.
  assert (2 ^ a * 2 ^ 53 = 2 ^ (- ey) * (2 ^ b * 2 ^ w)) as Hsplit.
  { rewrite <- !Z.pow_add_r by lia. f_equal. lia. }
  assert (2 ^ n1 <= 2 ^ w) as Hnw by (apply Z.pow_le_mono_r; lia).
  assert (2 * U * Z.pos my <= 2 * r * 2 ^ (- ey) + U) as Htight.
  { rewrite Hmr, HmU in Hup.
    apply (Z.mul_le_mono_pos_r _ _ (2 ^ b * 2 ^ w)); [lia|].
    assert (r * 2 ^ a * 2 ^ 53 = r * 2 ^ (- ey) * (2 ^ b * 2 ^ w)) as E
      by (rewrite <- !Z.mul_assoc; f_equal; exact Hsplit).
    rewrite E in Hup.
    assert (U * 2 ^ b * 2 ^ n1 <= U * 2 ^ b * 2 ^ w) as E2
      by (apply Z.mul_le_mono_nonneg_l; lia).
    clear - Hup E2. lia. }
  exists my, ey. split; [done|]. split; [done|]. split; [|done].
  split; [subst e'; lia|].
  destruct (Z_le_gt_dec ey (-53)) as [|Hgt]; [done|exfalso].
  assert (2 ^ (- ey) <= 2 ^ 52) as Hp52 by (apply Z.pow_le_mono_r; lia).
  change (2 ^ 52) with 4503599627370496 in *.
  change (2 ^ 53) with 9007199254740992 in *.
  clear - Htight Hp52 Hny Hr HU Hpe. nia.
Qed.

(** The arithmetic of the sum: a fraction within half a unit of [r / U],
    added to [q] and rounded within half a unit of [pn]. *)
Lemma sum_bound (U r q my pe pn X : Z) :
  0 < U ->
  2 * U * my <= 2 * r * pe + U ->
  2 * X <= 2 * (q * pe + my) + pn ->
  2 * U * X <= 2 * (U * q + r) * pe + U * (1 + pn).
Proof.
  intros HU HI HT.
  assert (2 * U * X <= 2 * U * (q * pe + my) + U * pn) as H2.
  { replace (2 * U * X) with (U * (2 * X)) by ring.
    replace (2 * U * (q * pe + my) + U * pn) with (U * (2 * (q * pe + my) + pn)) by ring.
    apply Z.mul_le_mono_nonneg_l; lia. }
  replace (2 * U * (q * pe + my)) with (2 * U * q * pe + 2 * U * my) in H2 by ring.
  replace (2 * (U * q + r) * pe) with (2 * U * q * pe + 2 * r * pe) by ring.
  replace (U * (1 + pn)) with (U + U * pn) by ring.
  lia.
Qed.

(** The float64 value that [Duration.Seconds], [Duration.Minutes] and
    [Duration.Hours] compute, for a unit [U] and a quotient from 1 up to
    [2^j]: a normal number, not below the quotient, and above the exact
    ratio [d / U] by at most [(2^j + 1) / 2^54]. *)
Lemma quotient_float_any (U d j : Z) :
  0 < U < 2 ^ 53 -> 0 <= j <= 51 ->
  U <= d -> d / U < 2 ^ j ->
  exists (mz : positive) (ez : Z),
    float64.add (float64.ofInt (Z.quot d U))
                (float64.div (float64.ofInt (Z.rem d U)) (float64.ofInt U))
    = S754_finite false mz ez
    /\ 2 ^ 52 <= Z.pos mz < 2 ^ 53
    /\ -60 <= ez < 0
    /\ d / U * 2 ^ (- ez) <= Z.pos mz
    /\ 2 ^ 54 * U * Z.pos mz <= (2 ^ 54 * d + U * (2 ^ j + 1)) * 2 ^ (- ez).
Proof.
  intros [HU HU53] Hj Hd Hqj.
  rewrite Z.quot_div_nonneg, Z.rem_mod_nonneg by lia.
  pose proof (Z.div_mod d U ltac:(lia)) as Hdiv0.
  set (q := d / U) in *. set (r := d mod U) in *.
  assert (1 <= q) as Hq1.
  { unfold q. apply Z.div_le_lower_bound; lia. }
  assert (0 <= r < U) as Hr by (apply Z.mod_pos_bound; lia).
  pose proof (pow2_pos j ltac:(lia)) as Hpj.
  assert (2 ^ j <= 2 ^ 51) as Hj51 by (apply Z.pow_le_mono_r; lia).
  destruct (ofInt_exact q ltac:(change (2 ^ 51) with 2251799813685248 in Hj51;
                                 change (2 ^ 53) with 9007199254740992; lia))
    as (mq & Hofq & Hmq & Hnq).
  cbv zeta in Hofq, Hmq.
  destruct (Zdigits2_spec q ltac:(lia)) as (Hdq & _ & _).
  assert (Zdigits2 q <= j) as Hdqj by (apply Zdigits2_le; lia).
  set (dq := Zdigits2 q) in *.
  rewrite Hofq.
  destruct (Z.eq_dec r 0) as [Hr0|Hr0].
  { (* no fraction *)
    rewrite Hr0. change (float64.ofInt 0) with (S754_zero false).
    destruct (ofInt_exact U ltac:(lia)) as (mU & -> & _).
    cbn [float64.div SFdiv xorb float64.add SFadd].
    exists mq, (dq - 53). split; [done|]. split; [done|]. split; [lia|].
    replace (- (dq - 53)) with (53 - dq) by lia. rewrite Hmq.
    pose proof (pow2_pos (53 - dq) ltac:(lia)) as Hp. split; [lia|].
    rewrite Hdiv0, Hr0, Z.add_0_r.
    replace (2 ^ 54 * U * (q * 2 ^ (53 - dq)))
      with (2 ^ 54 * (U * q) * 2 ^ (53 - dq)) by ring.
    apply Z.mul_le_mono_nonneg_r; [lia|].
    assert (0 <= U * (2 ^ j + 1)) by (apply Z.mul_nonneg_nonneg; lia). lia. }
  (* the fraction *)
  destruct (div_ofInt r U ltac:(lia) HU53) as (my & ey & Hdiv & Hny & Hey & HI).
  rewrite Hdiv, add_aligned by lia.
  set (pe := 2 ^ (- ey)) in *.
  assert (0 < pe) as Hpe by (apply pow2_pos; lia).
  set (g := 2 ^ (- ey - 53)).
  assert (1 <= g) as Hg by (pose proof (pow2_pos (- ey - 53) ltac:(lia)); unfold g; lia).
  assert (pe = 2 ^ 53 * g) as Hpeg
    by (unfold pe, g; rewrite <- Z.pow_add_r by lia; f_equal; lia).
  assert (Z.pos mq * 2 ^ (dq - 53 - ey) = q * pe) as HMq.
  { rewrite Hmq, <- Z.mul_assoc, <- Z.pow_add_r by lia. unfold pe. f_equal. f_equal. lia. }
  rewrite HMq.
  assert (Z.pos my < pe) as Hmype.
  { apply (Z.mul_lt_mono_pos_l (2 * U)); [lia|].
    assert (2 * r * pe <= 2 * (U - 1) * pe) as H1
      by (apply Z.mul_le_mono_nonneg_r; lia).
    replace (2 * (U - 1) * pe) with (2 * U * pe - 2 * pe) in H1 by ring.
    change (2 ^ 53) with 9007199254740992 in *. clear - H1 HI Hpeg Hg HU53. lia. }
  set (M := q * pe + Z.pos my).
  assert (pe <= M) as HMlo by (unfold M; clear - Hq1 Hpe; nia).
  assert (M < 2 ^ j * pe) as HMhi.
  { assert ((q + 1) * pe <= 2 ^ j * pe) as H1
      by (apply Z.mul_le_mono_nonneg_r; lia).
    unfold M. clear - H1 Hmype. lia. }
  set (dM := Zdigits2 M).
  assert (- ey + 1 <= dM <= j - ey) as HdM.
  { split.
    - apply Zdigits2_ge; [lia|]. replace (- ey + 1 - 1) with (- ey) by lia. done.
    - apply Zdigits2_le; [lia|lia|].
      replace (j - ey) with (j + - ey) by lia. rewrite Z.pow_add_r by lia. done. }
  destruct (round_aux_normal false M ey loc_Exact ltac:(lia))
    as (mz & ez & Hres & Hez & Hlow & Hup & _ & Hnorm).
  { fold dM. lia. }
  { fold dM. lia. }
  fold dM in Hez, Hup, Hnorm. rewrite Hres.
  replace (Z.max 0 (dM - 53)) with (dM - 53) in Hez, Hup by lia.
  specialize (Hup 1 0 ltac:(lia) ltac:(lia) ltac:(intros [?|?]; done)).
  set (w := ez - ey) in *.
  assert (0 <= w) as Hw by (unfold w; lia).
  pose proof (pow2_pos w Hw) as Hpw.
  pose proof (pow2_pos (- ez) ltac:(lia)) as Hpz.
  assert (pe = 2 ^ (- ez) * 2 ^ w) as Hsplit
    by (unfold pe, w; rewrite <- Z.pow_add_r by lia; f_equal; lia).
  exists mz, ez. split; [done|]. split; [apply Hnorm; lia|]. split; [lia|].
  split.
  - eapply Z.le_trans; [|apply Hlow].
    apply Z.div_le_lower_bound; [lia|].
    assert (q * pe <= M) as H1 by (unfold M; lia).
    rewrite Hsplit in H1. clear - H1. lia.
  - assert (2 ^ (dM - 53) <= 2 ^ j * g) as Hpn.
    { unfold g. rewrite <- Z.pow_add_r by lia. apply Z.pow_le_mono_r; lia. }
    pose proof (sum_bound U r q (Z.pos my) pe (2 ^ (dM - 53)) (Z.pos mz * 2 ^ w)
                  HU HI ltac:(fold M; clear - Hup; lia)) as Hsum.
    rewrite <- Hdiv0 in Hsum.
    assert (U * (1 + 2 ^ (dM - 53)) <= U * ((2 ^ j + 1) * g)) as H1.
    { apply Z.mul_le_mono_nonneg_l; [lia|].
      replace ((2 ^ j + 1) * g) with (2 ^ j * g + g) by ring. lia. }
    apply (Z.mul_le_mono_pos_r _ _ (2 ^ w)); [done|].
    replace ((2 ^ 54 * d + U * (2 ^ j + 1)) * 2 ^ (- ez) * 2 ^ w)
      with ((2 ^ 54 * d + U * (2 ^ j + 1)) * pe) by (rewrite Hsplit; ring).
    replace (2 ^ 54 * U * Z.pos mz * 2 ^ w)
      with (2 ^ 53 * (2 * U * (Z.pos mz * 2 ^ w))) by (change (2 ^ 54) with (2 * 2 ^ 53); ring).
    replace ((2 ^ 54 * d + U * (2 ^ j + 1)) * pe)
      with (2 ^ 53 * (2 * d * pe) + U * (2 ^ j + 1) * pe)
      by (change (2 ^ 54) with (2 * 2 ^ 53); ring).
    rewrite Hpeg at 2.
    replace (U * (2 ^ j + 1) * (2 ^ 53 * g)) with (2 ^ 53 * (U * ((2 ^ j + 1) * g))) by ring.
    rewrite <- Z.mul_add_distr_l.
    apply Z.mul_le_mono_nonneg_l; [lia|].
    clear - Hsum H1. lia.
Qed.

(** When [U * (2^j + 1) < 2^54] that value does not reach the next
    integer. *)
Lemma quotient_float (U d j : Z) :
  0 < U -> 0 <= j <= 51 -> U * (2 ^ j + 1) < 2 ^ 54 ->
  U <= d -> d / U < 2 ^ j ->
  exists (mz : positive) (ez : Z),
    float64.add (float64.ofInt (Z.quot d U))
                (float64.div (float64.ofInt (Z.rem d U)) (float64.ofInt U))
    = S754_finite false mz ez
    /\ 2 ^ 52 <= Z.pos mz < 2 ^ 53
    /\ -60 <= ez < 0
    /\ d / U * 2 ^ (- ez) <= Z.pos mz < (d / U + 1) * 2 ^ (- ez).
Proof.
  intros HU Hj HUj Hd Hqj.
  pose proof (pow2_pos j ltac:(lia)) as Hpj.
  assert (U < 2 ^ 53) as HU53.
  { change (2 ^ 54) with (2 * 2 ^ 53) in HUj. clear - HUj Hpj HU. nia. }
  destruct (quotient_float_any U d j ltac:(lia) Hj Hd Hqj)
    as (mz & ez & Hres & Hn & Hez & Hlo & Hup).
  exists mz, ez. split; [done|]. split; [done|]. split; [done|]. split; [done|].
  pose proof (pow2_pos (- ez) ltac:(lia)) as Hpz.
  assert (d + 1 <= U * (d / U + 1)) as Hd1.
  { pose proof (Z.mul_succ_div_gt d U HU). lia. }
  apply (Z.mul_lt_mono_pos_l (2 ^ 54 * U)); [lia|].
  eapply Z.le_lt_trans; [exact Hup|].
  replace (2 ^ 54 * U * ((d / U + 1) * 2 ^ (- ez)))
    with (2 ^ 54 * (U * (d / U + 1)) * 2 ^ (- ez)) by ring.
  apply Z.mul_lt_mono_pos_r; [done|].
  assert (2 ^ 54 * (d + 1) <= 2 ^ 54 * (U * (d / U + 1))) as H1
    by (apply Z.mul_le_mono_nonneg_l; lia).
  clear - H1 HUj. lia.
Qed.

(** The truncation of that value is the integer quotient. *)
Lemma quotient_exact (U d j : Z) :
  0 < U -> 0 <= j <= 51 -> U * (2 ^ j + 1) < 2 ^ 54 ->
  0 <= d -> d / U < 2 ^ j ->
  float64.toInt
    (float64.add (float64.ofInt (Z.quot d U))
                 (float64.div (float64.ofInt (Z.rem d U)) (float64.ofInt U)))
  = d / U.
Proof.
  intros HU Hj HUj Hd Hqj.
  pose proof (pow2_pos j ltac:(lia)) as Hpj.
  assert (2 ^ j <= 2 ^ 51) as Hj51 by (apply Z.pow_le_mono_r; lia).
  change (2 ^ 51) with 2251799813685248 in Hj51.
  destruct (Z_le_gt_dec U d) as [Hge|Hlt].
  - destruct (quotient_float U d j HU Hj HUj Hge Hqj) as (mz & ez & -> & _ & Hez & Hb).
    apply toInt_floor; [lia| |done].
    change (2 ^ 62) with 4611686018427387904.
    split; [apply Z.div_pos; lia|lia].
  - rewrite Z.quot_div_nonneg, Z.rem_mod_nonneg by lia.
    rewrite Z.div_small, Z.mod_small by lia.
    change (float64.ofInt 0) with (S754_zero false).
    assert (U < 2 ^ 53) as HU53.
    { change (2 ^ 54) with (2 * 2 ^ 53) in HUj. clear - HUj Hpj HU. nia. }
    destruct (Z.eq_dec d 0) as [->|Hd0].
    { change (float64.ofInt 0) with (S754_zero false).
      destruct (ofInt_exact U ltac:(lia)) as (mU & -> & _). reflexivity. }
    destruct (div_ofInt d U ltac:(lia) HU53) as (my & ey & -> & Hny & Hey & HI).
    cbn [float64.add SFadd].
    apply toInt_floor; [lia|done|].
    pose proof (pow2_pos (- ey) ltac:(lia)) as Hpe.
    split; [lia|]. rewrite Z.mul_1_l.
    assert (2 ^ 53 <= 2 ^ (- ey)) as Hp53 by (apply Z.pow_le_mono_r; lia).
    apply (Z.mul_lt_mono_pos_l (2 * U)); [lia|].
    assert (2 * d * 2 ^ (- ey) <= 2 * (U - 1) * 2 ^ (- ey)) as H1
      by (apply Z.mul_le_mono_nonneg_r; lia).
    replace (2 * (U - 1) * 2 ^ (- ey)) with (2 * U * 2 ^ (- ey) - 2 * 2 ^ (- ey)) in H1 by ring.
    clear - H1 HI Hp53 HU53. lia.
Qed.

(** Dividing such a value by 24 and truncating: the result is not below
    the quotient of the integer by 24, and 24 times the result is not above
    the value. *)
Lemma div24_bounds (mz : positive) (ez q : Z) :
  2 ^ 52 <= Z.pos mz < 2 ^ 53 -> -60 <= ez < 0 -> 0 <= q ->
  q * 2 ^ (- ez) <= Z.pos mz ->
  let n := float64.toInt (float64.div (S754_finite false mz ez) (float64.ofInt 24)) in
  q / 24 <= n /\ 24 * n * 2 ^ (- ez) <= Z.pos mz.
Proof.
  intros Hnz Hez Hq Hlo.
  change (float64.ofInt 24) with (S754_finite false 6755399441055744 (-48)).
  destruct (div_normal mz 6755399441055744 ez (-48) Hnz ltac:(done) ltac:(lia) ltac:(lia))
    as (mR & eR & n1 & -> & HnR & Hn1 & HeR & Hlow & Hup).
  cbv zeta in HeR, Hlow, Hup.
  set (e' := ez - -48 - 53) in *.
  set (w := eR - e') in *.
  set (pz := 2 ^ (- ez)) in *.
  set (D := q / 24).
  assert (0 < pz) as Hpz by (apply pow2_pos; lia).
  assert (0 <= w <= 2) as Hw by (unfold w; lia).
  pose proof (pow2_pos w ltac:(lia)) as Hpw.
  assert (24 * D <= q) as HD by (unfold D; apply (Z.mul_div_le q 24); lia).
  assert (0 <= D) as HD0 by (apply Z.div_pos; lia).
  assert (2 ^ (- eR) * 2 ^ w = 32 * pz) as Hsplit.
  { unfold pz, w, e'. rewrite <- Z.pow_add_r by lia.
    replace (- eR + (eR - (ez - -48 - 53))) with (5 + - ez) by lia.
    rewrite Z.pow_add_r by lia. done. }
  pose proof (pow2_pos (- eR) ltac:(lia)) as HpR.
  assert (2 ^ n1 <= 2) as Hpn.
  { destruct (Z.eq_dec n1 0) as [->|]; [simpl; lia|].
    replace n1 with 1 by lia. simpl. lia. }
  change (2 ^ 53) with 9007199254740992 in Hlow, Hup.
  assert (D * 2 ^ (- eR) <= Z.pos mR) as HlowD.
  { eapply Z.le_trans; [|apply Hlow].
    apply Z.div_le_lower_bound; [lia|].
    apply Z.div_le_lower_bound; [lia|].
    assert (24 * D * pz <= Z.pos mz) as H1.
    { eapply Z.le_trans; [|apply Hlo]. apply Z.mul_le_mono_nonneg_r; lia. }
    replace (6755399441055744 * (2 ^ w * (D * 2 ^ (- eR))))
      with (6755399441055744 * D * (2 ^ (- eR) * 2 ^ w)) by ring.
    rewrite Hsplit. clear - H1. lia. }
  assert (float64.toInt (S754_finite false mR eR) = Z.pos mR / 2 ^ (- eR)) as Hn.
  { apply toInt_floor; [lia| |].
    - change (2 ^ 62) with 4611686018427387904.
      change (2 ^ 53) with 9007199254740992 in HnR.
      split; [apply Z.div_pos; lia|].
      apply Z.div_lt_upper_bound; [done|]. clear - HnR HpR. nia.
    - split; [rewrite Z.mul_comm; apply Z.mul_div_le; done|].
      rewrite Z.mul_comm. apply Z.mul_succ_div_gt. done. }
  cbv zeta. rewrite Hn. set (n := Z.pos mR / 2 ^ (- eR)).
  split.
  - unfold n. apply Z.div_le_lower_bound; [done|]. rewrite Z.mul_comm. exact HlowD.
  - assert (n * 2 ^ (- eR) <= Z.pos mR) as H1
      by (unfold n; rewrite Z.mul_comm; apply Z.mul_div_le; done).
    assert (n * (32 * pz) <= Z.pos mR * 2 ^ w) as H2.
    { rewrite <- Hsplit, Z.mul_assoc. apply Z.mul_le_mono_nonneg_r; lia. }
    assert (6755399441055744 * 2 ^ n1 <= 6755399441055744 * 2) as H4 by lia.
    fold pz. clear - H2 H4 Hup. lia.
Qed.

Lemma div24_floor (mz : positive) (ez q : Z) :
  2 ^ 52 <= Z.pos mz < 2 ^ 53 -> -60 <= ez < 0 -> 0 <= q ->
  q * 2 ^ (- ez) <= Z.pos mz < (q + 1) * 2 ^ (- ez) ->
  float64.toInt (float64.div (S754_finite false mz ez) (float64.ofInt 24)) = q / 24.
Proof.
  intros Hnz Hez Hq [Hlo Hhi].
  destruct (div24_bounds mz ez q Hnz Hez Hq Hlo) as [H1 H2].
  set (n := float64.toInt _) in *.
  pose proof (pow2_pos (- ez) ltac:(lia)) as Hpz.
  assert (24 * n < q + 1) as H3.
  { apply (Z.mul_lt_mono_pos_r (2 ^ (- ez))); [done|]. lia. }
  assert (n <= q / 24) as H4 by (apply Z.div_le_lower_bound; lia).
  lia.
Qed.

(** *** Durations before zero: the count is the mirror image *)

Lemma round_aux_opp (s : bool) (m e : Z) (l : location) :
  binary_round_aux float64.prec float64.emax (negb s) m e l
  = SFopp (binary_round_aux float64.prec float64.emax s m e l).
Proof.
  unfold binary_round_aux.
  destruct (shr_fexp _ _ m e l) as [r1 e1].
  destruct (shr_fexp _ _ _ e1 loc_Exact) as [r2 e2].
  destruct (shr_m r2); try done.
  destruct (e2 <=? _)%Z; done.
Qed.

Lemma mirrored_opp (f g : spec_float) : f = SFopp g -> mirrored f g.
Proof. intros ->. by destruct g. Qed.

Lemma normalize_mirrored (M e : Z) :
  mirrored (binary_normalize float64.prec float64.emax (- M) e false)
           (binary_normalize float64.prec float64.emax M e false).
Proof.
  destruct M as [|p|p]; [done| |]; apply mirrored_opp.
  - change (- Z.pos p) with (Z.neg p).
    unfold binary_normalize, binary_round.
    destruct (shl_align _ _ _) as [mz ez]. apply (round_aux_opp false).
  - change (- Z.neg p) with (Z.pos p).
    unfold binary_normalize, binary_round.
    destruct (shl_align _ _ _) as [mz ez].
    rewrite (round_aux_opp false).
    by destruct (binary_round_aux _ _ _ _ _ _) as [[]|[]| |[] ? ?].
Qed.

Lemma ofInt_mirrored (n : Z) : mirrored (float64.ofInt (- n)) (float64.ofInt n).
Proof. apply normalize_mirrored. Qed.

Lemma div_mirrored (f g : spec_float) (m : positive) (e : Z) :
  mirrored f g ->
  mirrored (float64.div f (S754_finite false m e)) (float64.div g (S754_finite false m e)).
Proof.
  unfold float64.div.
  destruct f as [s|s| |s mf ef], g as [t|t| |t mg eg]; cbn [mirrored SFopp];
    intros H; try discriminate H; try (injection H as H); subst; cbn [SFdiv];
    try done.
  - apply mirrored_opp. by destruct t.
  - destruct (SFdiv_core_binary _ _ _ _ _ _) as [[mz ez] lz].
    apply mirrored_opp. rewrite !xorb_false_r. apply round_aux_opp.
Qed.

Lemma cond_Zopp_negb (s : bool) (x : Z) : cond_Zopp (negb s) x = - cond_Zopp s x.
Proof. destruct s; simpl; lia. Qed.

Lemma add_mirrored (a b c d : spec_float) :
  mirrored a b -> mirrored c d ->
  mirrored (float64.add a c) (float64.add b d).
Proof.
  unfold float64.add.
  destruct a as [s|s| |s ma ea], b as [t|t| |t mb eb]; cbn [mirrored SFopp];
    intros H1; try discriminate H1; try (injection H1 as H1); subst;
    destruct c as [s'|s'| |s' mc ec], d as [t'|t'| |t' md ed]; cbn [mirrored SFopp];
    intros H2; try discriminate H2; try (injection H2 as H2); subst;
    cbn [SFadd]; try done;
    try (by destruct t, t'); try (by destruct s, t, s', t');
    try (by destruct t'); try (by destruct t).
  rewrite !cond_Zopp_negb, <- Z.opp_add_distr. apply normalize_mirrored.
Qed.

Lemma toInt_mirrored (f g : spec_float) :
  mirrored f g -> 0 <= float64.toInt g -> float64.toInt f = - float64.toInt g.
Proof.
  destruct f as [s|s| |s mf ef], g as [t|t| |t mg eg]; cbn [mirrored SFopp];
    intros H; try discriminate H; try (injection H as H); subst; try done.
  unfold float64.toInt.
  set (mag := if 0 <=? eg then _ else _).
  assert (0 <= mag) as Hmag.
  { subst mag. destruct (0 <=? eg) eqn:He.
    - apply Z.leb_le in He. pose proof (Z.pow_nonneg 2 eg). nia.
    - apply Z.leb_gt in He. apply Z.div_pos; [lia|]. apply Z.pow_pos_nonneg; lia. }
  cbv zeta. unfold float64.minInt64, float64.maxInt64.
  destruct t; cbn [negb];
    repeat match goal with
           | |- context [(?x <=? ?y)] => destruct (Z.leb_spec x y)
           end; cbn [andb]; lia.
Qed.


(** Below zero the truncated value is the opposite of the one for the
    opposite duration. *)
Lemma quotient_mirror (U d : Z) :
  0 < U < 2 ^ 53 -> d < 0 ->
  0 <= float64.toInt
         (float64.add (float64.ofInt (Z.quot (- d) U))
                      (float64.div (float64.ofInt (Z.rem (- d) U)) (float64.ofInt U))) ->
  float64.toInt
    (float64.add (float64.ofInt (Z.quot d U))
                 (float64.div (float64.ofInt (Z.rem d U)) (float64.ofInt U)))
  = - float64.toInt
        (float64.add (float64.ofInt (Z.quot (- d) U))
                     (float64.div (float64.ofInt (Z.rem (- d) U)) (float64.ofInt U))).
Proof.
  intros HU Hd Hpos.
  destruct (ofInt_exact U HU) as (mU & HofU & _). cbv zeta in HofU.
  replace d with (- - d) at 1 2 by lia.
  rewrite (Z.quot_opp_l (- d)), (Z.rem_opp_l (- d)) by lia.
  apply toInt_mirrored; [|done].
  apply add_mirrored; [apply ofInt_mirrored|].
  rewrite HofU. apply div_mirrored, ofInt_mirrored.
Qed.

(** The quotient towards zero, on both sides of zero. *)
Lemma quotient_trunc (U d j : Z) :
  0 < U -> 0 <= j <= 51 -> U * (2 ^ j + 1) < 2 ^ 54 ->
  Z.abs d / U < 2 ^ j ->
  float64.toInt
    (float64.add (float64.ofInt (Z.quot d U))
                 (float64.div (float64.ofInt (Z.rem d U)) (float64.ofInt U)))
  = Z.quot d U.
Proof.
  intros HU Hj HUj Hq.
  destruct (Z_le_gt_dec 0 d) as [Hd|Hd].
  - rewrite Z.abs_eq in Hq by done.
    rewrite (quotient_exact U d j) by done. symmetry. apply Z.quot_div_nonneg; lia.
  - rewrite Z.abs_neq in Hq by lia.
    pose proof (pow2_pos j ltac:(lia)) as Hpj.
    assert (U < 2 ^ 53) as HU53.
    { change (2 ^ 54) with (2 * 2 ^ 53) in HUj. clear - HUj Hpj HU. nia. }
    pose proof (quotient_exact U (- d) j HU Hj HUj ltac:(lia) Hq) as Hpos.
    assert (0 <= - d / U) as Hq0 by (apply Z.div_pos; lia).
    rewrite quotient_mirror by (try rewrite Hpos; lia).
    rewrite Hpos.
    replace d with (- - d) at 2 by lia.
    rewrite Z.quot_opp_l, Z.quot_div_nonneg by lia. done.
Qed.

(** For every quotient below [2^j] the truncated value is not below the
    quotient and exceeds [d / U] by at most [(2^j + 1) / 2^54]. *)
Lemma quotient_bounds (U d j : Z) :
  0 < U < 2 ^ 53 -> 0 <= j <= 51 -> 0 <= d -> d / U < 2 ^ j ->
  let n := float64.toInt
             (float64.add (float64.ofInt (Z.quot d U))
                (float64.div (float64.ofInt (Z.rem d U)) (float64.ofInt U))) in
  d / U <= n /\ 2 ^ 54 * U * n <= 2 ^ 54 * d + U * (2 ^ j + 1).
Proof.
  intros HU Hj Hd Hqj.
  pose proof (pow2_pos j ltac:(lia)) as Hpj.
  assert (0 <= U * (2 ^ j + 1)) as Hslack by (apply Z.mul_nonneg_nonneg; lia).
  destruct (Z_le_gt_dec U d) as [Hge|Hlt].
  - destruct (quotient_float_any U d j HU Hj Hge Hqj)
      as (mz & ez & Hres & Hn & Hez & Hlo & Hup).
    cbv zeta. rewrite Hres.
    pose proof (pow2_pos (- ez) ltac:(lia)) as Hpz.
    assert (float64.toInt (S754_finite false mz ez) = Z.pos mz / 2 ^ (- ez)) as ->.
    { apply toInt_floor; [lia| |].
      - change (2 ^ 62) with 4611686018427387904.
        change (2 ^ 53) with 9007199254740992 in Hn.
        split; [apply Z.div_pos; lia|].
        apply Z.div_lt_upper_bound; [done|]. clear - Hn Hpz. nia.
      - split; [rewrite Z.mul_comm; apply Z.mul_div_le; done|].
        rewrite Z.mul_comm. apply Z.mul_succ_div_gt. done. }
    set (n := Z.pos mz / 2 ^ (- ez)).
    assert (n * 2 ^ (- ez) <= Z.pos mz) as Hfl
      by (unfold n; rewrite Z.mul_comm; apply Z.mul_div_le; done).
    split.
    + unfold n. apply Z.div_le_lower_bound; [done|]. by rewrite Z.mul_comm.
    + apply (Z.mul_le_mono_pos_r _ _ (2 ^ (- ez))); [done|].
      eapply Z.le_trans; [|exact Hup].
      replace (2 ^ 54 * U * n * 2 ^ (- ez)) with (2 ^ 54 * U * (n * 2 ^ (- ez))) by ring.
      apply Z.mul_le_mono_nonneg_l; [lia|done].
  - cbv zeta. rewrite (quotient_exact U d 0); try lia.
    + rewrite Z.div_small by lia. split; [lia|]. rewrite Z.mul_0_r.
      apply Z.add_nonneg_nonneg; [apply Z.mul_nonneg_nonneg; lia|done].
    + rewrite Z.div_small by lia. done.
Qed.

(** [d.Seconds()], [d.Minutes()] and [d.Hours()] truncate to the integer
    quotient, towards zero, over the ranges below. *)
Lemma Seconds_trunc (d : time.Duration) :
  Z.abs d < 2 ^ 24 * time.Second ->
  float64.toInt (time.Seconds d) = Z.quot d time.Second.
Proof.
  intros Hd. unfold time.Seconds. cbv zeta.
  change 1000000000 with time.Second.
  apply (quotient_trunc time.Second d 24); try done.
  apply Z.div_lt_upper_bound; [done|]. lia.
Qed.

Lemma Minutes_trunc (d : time.Duration) :
  Z.abs d < 2 ^ 18 * time.Minute ->
  float64.toInt (time.Minutes d) = Z.quot d time.Minute.
Proof.
  intros Hd. unfold time.Minutes. cbv zeta.
  change (60 * 1000000000) with time.Minute.
  apply (quotient_trunc time.Minute d 18); try done.
  apply Z.div_lt_upper_bound; [done|]. lia.
Qed.

Lemma Hours_trunc (d : time.Duration) :
  Z.abs d < 2 ^ 12 * time.Hour ->
  float64.toInt (time.Hours d) = Z.quot d time.Hour.
Proof.
  intros Hd. unfold time.Hours. cbv zeta.
  change (60 * 60 * 1000000000) with time.Hour.
  apply (quotient_trunc time.Hour d 12); try done.
  apply Z.div_lt_upper_bound; [done|]. lia.
Qed.

(** [int(d.Hours() / 24)] is the number of whole days, from one hour up
    to 4096 hours. *)
Lemma Days_trunc (d : time.Duration) :
  time.Hour <= d < 2 ^ 12 * time.Hour ->
  float64.toInt (float64.div (time.Hours d) (float64.ofInt 24))
  = d / (24 * time.Hour).
Proof.
  intros Hd. unfold time.Hours. cbv zeta.
  change (60 * 60 * 1000000000) with time.Hour.
  destruct (quotient_float time.Hour d 12 ltac:(done) ltac:(lia) ltac:(done)
              ltac:(lia) ltac:(apply Z.div_lt_upper_bound; [done|lia]))
    as (mz & ez & -> & Hnz & Hez & Hb).
  rewrite (div24_floor mz ez (d / time.Hour)); [| done | done | | done].
  - rewrite Z.div_div by done. by rewrite (Z.mul_comm time.Hour 24).
  - apply Z.div_pos; [lia|done].
Qed.

(** For every duration of at least one hour that an [int64] holds,
    [int(d.Hours() / 24)] is not below the number of whole days, and 24
    hours times it is at most 838 nanoseconds above the duration. *)
Lemma Days_bounds (d : time.Duration) :
  time.Hour <= d <= time.maxDuration ->
  let n := float64.toInt (float64.div (time.Hours d) (float64.ofInt 24)) in
  d / (24 * time.Hour) <= n /\ 24 * time.Hour * n <= d + 838.
Proof.
  intros Hd. unfold time.Hours. cbv zeta.
  change (60 * 60 * 1000000000) with time.Hour.
  assert (time.Hour = 3600000000000) as HH by reflexivity.
  assert (time.maxDuration = 9223372036854775807) as Hmax by reflexivity.
  destruct (quotient_float_any time.Hour d 22 ltac:(done) ltac:(lia) ltac:(lia)
              ltac:(apply Z.div_lt_upper_bound; [done|];
                    change (2 ^ 22) with 4194304; lia))
    as (mz & ez & -> & Hnz & Hez & Hlo & Hup).
  destruct (div24_bounds mz ez (d / time.Hour) Hnz Hez
              ltac:(apply Z.div_pos; [lia|done]) Hlo) as [H1 H2].
  set (n := float64.toInt _) in *.
  split.
  - rewrite <- (Z.mul_comm time.Hour 24), <- Z.div_div by done. exact H1.
  - pose proof (pow2_pos (- ez) ltac:(lia)) as Hpz.
    assert (2 ^ 54 * time.Hour * (24 * n * 2 ^ (- ez))
            <= (2 ^ 54 * d + time.Hour * (2 ^ 22 + 1)) * 2 ^ (- ez)) as H3.
    { eapply Z.le_trans; [|exact Hup].
      apply Z.mul_le_mono_nonneg_l; [lia|done]. }
    assert (2 ^ 54 * time.Hour * (24 * n) <= 2 ^ 54 * d + time.Hour * (2 ^ 22 + 1)) as H4.
    { apply (Z.mul_le_mono_pos_r _ _ (2 ^ (- ez))); [done|].
      replace (2 ^ 54 * time.Hour * (24 * n) * 2 ^ (- ez))
        with (2 ^ 54 * time.Hour * (24 * n * 2 ^ (- ez))) by ring.
      exact H3. }
    rewrite HH in *. change (2 ^ 54) with 18014398509481984 in H4.
    change (2 ^ 22) with 4194304 in H4. clear - H4. lia.
Qed.

(** X13. For an elapsed time from zero up to 4096 hours [since] shows the
    whole units elapsed, by integer division of the nanoseconds: seconds
    below one minute, minutes below one hour, hours below one day, days
    from then on.  The passage through [float64] loses nothing in this
    range. *)
Theorem since_elapsed (now t : time.Time) (d : Z) :
  time.Since now t = d ->
  0 <= d < 2 ^ 12 * time.Hour ->
  since now t =
    if d <? time.Minute then fmt.d (d / time.Second) ++ " seconds"
    else if d <? time.Hour then fmt.d (d / time.Minute) ++ " minutes"
    else if d <? 24 * time.Hour then fmt.d (d / time.Hour) ++ " hours"
    else fmt.d (d / (24 * time.Hour)) ++ " days".
Proof.
  intros Hd [H0 Hhi]. unfold since. rewrite Hd.
  assert (time.Minute = 60000000000) as HM by reflexivity.
  assert (time.Hour = 3600000000000) as HH by reflexivity.
  change (2 ^ 12) with 4096 in Hhi.
  destruct (Z.ltb_spec d time.Minute) as [H1|H1].
  { rewrite Seconds_trunc
      by (rewrite Z.abs_eq by done; change (2 ^ 24) with 16777216; durations).
    by rewrite Z.quot_div_nonneg. }
  destruct (Z.ltb_spec d time.Hour) as [H2|H2].
  { rewrite Minutes_trunc
      by (rewrite Z.abs_eq by done; change (2 ^ 18) with 262144; lia).
    rewrite Z.quot_div_nonneg by lia. done. }
  destruct (Z.ltb_spec d (24 * time.Hour)) as [H3|H3].
  { rewrite Hours_trunc
      by (rewrite Z.abs_eq by done; change (2 ^ 12) with 4096; lia).
    rewrite Z.quot_div_nonneg by lia. done. }
  rewrite Days_trunc by (change (2 ^ 12) with 4096; lia). done.
Qed.

Lemma since_elapsed_witness :
  since (time.mkTime 1000000 0) (time.mkTime 1 999999999) = "11 days".
Proof.
  apply (since_elapsed (time.mkTime 1000000 0) (time.mkTime 1 999999999)
           999998000000001).
  - reflexivity.
  - split; [lia|reflexivity].
Defined.

(** X14. For a start time less than [2^24] seconds ahead of the clock
    [since] shows the seconds ahead rounded towards zero, with a minus
    sign from one whole second on: less than one second ahead is shown as
    "0 seconds". *)
Theorem since_ahead (now t : time.Time) (d : Z) :
  time.Since now t = d ->
  - (2 ^ 24 * time.Second) < d < 0 ->
  since now t = fmt.d (Z.quot d time.Second) ++ " seconds"
  /\ (- time.Second < d -> since now t = "0 seconds").
Proof.
  intros Hd [Hlo Hhi].
  assert (since now t = fmt.d (Z.quot d time.Second) ++ " seconds") as Hs.
  { unfold since. rewrite Hd.
    assert ((d <? time.Minute) = true) as ->
      by (apply Z.ltb_lt; unfold time.Minute; durations).
    rewrite Seconds_trunc by (rewrite Z.abs_neq by lia; lia). done. }
  split; [done|]. intros H1. rewrite Hs.
  assert (Z.quot d time.Second = 0) as ->; [|reflexivity].
  replace d with (- - d) by lia.
  rewrite Z.quot_opp_l by done. rewrite Z.quot_small by lia. done.
Qed.

Lemma since_ahead_witness :
  since (time.mkTime 1000 0) (time.mkTime 1000 500000000) = "0 seconds".
Proof.
  destruct (since_ahead (time.mkTime 1000 0) (time.mkTime 1000 500000000)
              (- 500000000) eq_refl) as [_ H].
  - split; [reflexivity|lia].
  - apply H. reflexivity.
Defined.

Lemma Sub_range (t u : time.Time) :
  time.minDuration <= time.Sub t u <= time.maxDuration.
Proof.
  unfold time.Sub. cbv zeta.
  assert (time.minDuration <= time.maxDuration) by done.
  destruct (Z.ltb_spec ((time.sec t - time.sec u) * time.Second
                        + (time.nsec t - time.nsec u)) time.minDuration); [lia|].
  destruct (Z.ltb_spec time.maxDuration
              ((time.sec t - time.sec u) * time.Second + (time.nsec t - time.nsec u)));
    lia.
Qed.

(** X15. For every elapsed time of one day or more [since] shows a number
    of days that is the number of whole days elapsed or, when the next day
    is at most 838 nanoseconds away, possibly that next number: it is never
    below the whole days, and never above the whole days of the duration
    plus 838 nanoseconds. *)
Theorem since_days (now t : time.Time) (d : Z) :
  time.Since now t = d ->
  24 * time.Hour <= d ->
  exists n,
    since now t = fmt.d n ++ " days"
    /\ d / (24 * time.Hour) <= n <= (d + 838) / (24 * time.Hour).
Proof.
  intros Hd Hday.
  pose proof (Sub_range now t) as Hrange. fold (time.Since now t) in Hrange.
  rewrite Hd in Hrange.
  assert (time.Hour = 3600000000000) as HH by reflexivity.
  exists (float64.toInt (float64.div (time.Hours d) (float64.ofInt 24))).
  split.
  - unfold since. rewrite Hd.
    assert ((d <? time.Minute) = false) as ->
      by (apply Z.ltb_ge; unfold time.Minute; durations).
    assert ((d <? time.Hour) = false) as -> by (apply Z.ltb_ge; lia).
    assert ((d <? 24 * time.Hour) = false) as -> by (apply Z.ltb_ge; lia).
    done.
  - destruct (Days_bounds d ltac:(lia)) as [H1 H2].
    split; [done|]. apply Z.div_le_lower_bound; [lia|done].
Qed.

Lemma since_days_witness :
  exists n,
    since (time.mkTime 14774400 0) (time.mkTime 0 1) = fmt.d n ++ " days"
    /\ 170 <= n <= 171.
Proof.
  apply (since_days (time.mkTime 14774400 0) (time.mkTime 0 1) 14774399999999999).
  - reflexivity.
  - vm_compute. discriminate.
Defined.

(** For every duration below zero that an [int64] holds, [int(d.Seconds())]
    is the quotient towards zero or, within 953 nanoseconds of the next
    whole second, that second. *)
Lemma Seconds_ahead_bounds (d : time.Duration) :
  time.minDuration <= d < 0 ->
  let n := float64.toInt (time.Seconds d) in
  - ((- d + 953) / time.Second) <= n <= Z.quot d time.Second.
Proof.
  intros Hd. unfold time.Seconds. cbv zeta.
  change 1000000000 with time.Second.
  assert (time.Second = 1000000000) as HS by reflexivity.
  assert (time.minDuration = -9223372036854775808) as Hmin by reflexivity.
  destruct (quotient_bounds time.Second (- d) 34 ltac:(done) ltac:(lia) ltac:(lia)
              ltac:(apply Z.div_lt_upper_bound; [done|];
                    change (2 ^ 34) with 17179869184; lia)) as [H1 H2].
  assert (0 <= - d / time.Second) as Hq0 by (apply Z.div_pos; lia).
  rewrite quotient_mirror by (try done; lia).
  set (n := float64.toInt _) in *.
  assert (Z.quot d time.Second = - (- d / time.Second)) as ->.
  { rewrite <- (Z.quot_div_nonneg (- d)) by lia.
    rewrite <- Z.quot_opp_l by done. f_equal. lia. }
  assert (n <= (- d + 953) / time.Second) as H3.
  { apply Z.div_le_lower_bound; [done|].
    rewrite HS in *. change (2 ^ 54) with 18014398509481984 in H2.
    change (2 ^ 34) with 17179869184 in H2. clear - H2. lia. }
  lia.
Qed.

(** X16. For every start time ahead of the clock [since] stays in the
    seconds bucket and shows a count that is not above zero: the seconds
    ahead rounded towards zero or, when the next whole second is at most
    953 nanoseconds away, possibly that second, with a minus sign. *)
Theorem since_ahead_all (now t : time.Time) (d : Z) :
  time.Since now t = d ->
  d < 0 ->
  exists n,
    since now t = fmt.d n ++ " seconds"
    /\ - ((- d + 953) / time.Second) <= n <= Z.quot d time.Second
    /\ n <= 0.
Proof.
  intros Hd Hneg.
  pose proof (Sub_range now t) as Hrange. fold (time.Since now t) in Hrange.
  rewrite Hd in Hrange.
  exists (float64.toInt (time.Seconds d)).
  split.
  - unfold since. rewrite Hd.
    assert ((d <? time.Minute) = true) as ->
      by (apply Z.ltb_lt; unfold time.Minute; durations).
    done.
  - split; [apply Seconds_ahead_bounds; lia|]. by apply Seconds_negative.
Qed.

Lemma since_ahead_all_witness :
  exists n,
    since (time.mkTime 1000 0) (time.mkTime 1005 0) = fmt.d n ++ " seconds"
    /\ -5 <= n <= -5 /\ n <= 0.
Proof.
  apply (since_ahead_all (time.mkTime 1000 0) (time.mkTime 1005 0) (- 5000000000)).
  - reflexivity.
  - lia.
Defined.
